(* ===== verification/_CoqProject ===== *)
-Q . S2P
Prelude.v
KeyOrder.v
Contact.v
IndexSearch.v
SearchBound.v
LinkedList.v
Persistence.v
AvlTree.v
AvlBalance.v
AvlOrder.v
AvlIndex.v
AvlScenarios.v
App.v
Session.v
