(* ===== verification/Prelude.v ===== *)
(** * A verification development of the contact book of LiaIv/self-work

    ** The program

    The repository is a console contact book written in C++.  Its parts:
    - [src/binary_tree.h], [src/binary_tree.cpp]: [BinaryTree], an AVL
      tree indexing contacts by name; each node owns a key (a
      [std::string]), the vector [recordNumbers] of the contact ids filed
      under it, two children and a cached [height].  Operations: [insert],
      [remove] (private [deleteNode]), [search], [inOrder]
      (private [inOrderTraversal]), the rotations, [findMin].
    - [src/linked_list.h], [src/linked_list.cpp]: [LinkedList], a singly
      linked list of contacts kept in the order of a two-attribute
      comparator [compare]; [insert], [remove], [search],
      [changeSortAttributes], [saveToFile], [loadFromFile].
    - [src/contact.h], [src/contact.cpp]: the [Contact] record, the
      validators, [inputContacts] with the global id counter, the flat
      index arrays ([IndexArray]: [buildIndices], [sortIndices]), the two
      binary searches over them, [editContact], [deleteContact], the
      printing by index, CSV save and load.
    - [src/main.cpp]: the menu loop that keeps the contact vector, the
      index arrays, the tree and the list, and rebuilds the tree and the
      list after each edit or deletion.
    - [src/test.cpp]: assertions on the tree and the list.

    The tree and the binary searches return contact ids; [main.cpp]
    resolves an id by indexing the contact vector with [id - 1].

    ** Files of this development (in dependency order)

    - [Prelude] (this file): the C++ idioms the sources use ([std::max],
      the erase-remove idiom, [size_t] and [int] conversions), sorted
      insertion (shared by the linked list and the model of [std::sort]),
      list lemmas by index, a [Proper] instance of [filter] for
      permutations, the tactics and the hint database [cpp].
    - [KeyOrder]: the class [KeyOrder] the tree requires of its keys (a
      total strict order given by a three-way comparison), and its
      instance for [std::string]: Stdlib [string] with the unsigned byte
      order of [std::string::operator<].
    - [Contact]: [struct Contact], the validators, [inputContacts] (its
      retry loops [readField] and [readInputs] on the console lines, the
      storing with the counter threaded explicitly), [editContact],
      [deleteContact] and [resolve] ([contacts[id - 1]]).
    - [IndexSearch]: [Index], [IndexArray], [buildIndices]; [sortIndices]
      as the postcondition of [std::sort] (a relation, since the sort is
      unstable) with an insertion sort showing it is satisfiable; the two
      binary searches and their widening scans, defined with Equations by
      well-founded recursion on the window.
    - [SearchBound]: the loop of [binarySearchIterative] with a budget of
      rounds, its logarithmic bound and the [int] wrap-around of [right].
    - [LinkedList]: the three enums (as modules [PrimarySortAttribute],
      [SecondarySortAttribute], [SortOrder]), the list as the chain of
      contacts from [head], and every operation of [linked_list.cpp]
      except the file functions.
    - [Persistence]: the CSV format of both save functions, both loaders,
      and the library calls they make ([operator<<] on [int],
      [std::getline], [std::string::find] with [npos], [substr],
      [std::stoi] with its two exceptions as a [result] type).
    - [AvlTree]: the data ([TreeNode], [BinaryTree]) and every operation of
      [binary_tree.cpp], each a Rocq function following the C++ line by
      line.
    - [AvlBalance]: the AVL invariant and its preservation by [insert] and
      [remove]; the number of levels [depth] and the size bound that
      makes it logarithmic.
    - [AvlOrder]: the search-tree invariant, the refinement of the tree by
      a sorted association list ([ainsert], [aremove], [lookup]), the
      functional specification of [search] after [insert] and [remove],
      the in-order traversal in both directions, and the branch of
      [deleteNode] that duplicates a key.
    - [AvlIndex]: the class [MultiIndex] (what the record layer uses of
      the tree) and its instance for [BinaryTree]; the public API as a
      state machine [reachable] with its invariants.
    - [AvlScenarios]: [test.cpp]'s tree tests, the witnesses of the tree
      theorems, and concrete trees showing the defects of [deleteNode].
    - [App]: [main.cpp] as a step function on [AppState] (vector, indices,
      tree, list, [main]'s sort attributes, the counter, the files); a
      [Command] is a menu choice with the lines it reads (the answers of
      item 18 as typed, read one at a time by [readChoice]; [Unknown]
      only for numbers outside 0-20), the output a list of [Output]
      events; the reachable states start from the fields [readInputs]
      accepts; [std::sort] is a section parameter that
      satisfies [sortIndices].
    - [Session]: the loop of [main] as a step relation on configurations
      (state, pending choices, output, status) with an inductive
      [eventually]; the well-formedness of the ids in every reachable
      state.

    ** What the theorems show

    - Tree (C1-C14): [insert] and [remove] keep the AVL invariant (exact
      heights, balance in [-1, 1]) with the height changing by at most
      one; on search trees they refine insertion into and removal from a
      sorted association list, and [search] is its lookup; every reachable
      tree is AVL without empty id vectors; removing an id that [search]
      does not return gives back the identical tree (the spec's
      idempotence of absence); traversal order; in every reachable tree
      the cached height is the number of levels and at most
      [2 log2 (size + 1) + 1].
    - Index arrays (C15-C19): on a sorted array with fewer than [2^31]
      entries the iterative search returns exactly the ids under the key;
      after [buildIndices] and any [std::sort] outcome a search returns
      the ids of exactly the matching contacts; the recursive search as
      [main] calls it equals the iterative one on every array; the loop
      of the iterative search ends within [floor(log2 n) + 1] rounds; from
      [2^31 + 1] entries on, [right] wraps to a negative [int] and the
      search finds nothing.
    - Persistence (C20, C36-C39): loading a saved vector gives it back (the
      round trip, through [stoi] of [operator<<]) when names and phone
      numbers hold no comma or newline; every contact whose name holds a
      comma is read back as another contact, the name cut at the comma;
      [loadFromFile] does not clear the list; it ends in an exception
      exactly when a line after lines that parsed makes [parseLine]
      throw, keeping what those lines inserted; the [int] counter set to
      [contact.id + 1] stays within [INT_MAX + 1] and overflows exactly
      when an id [INT_MAX] is loaded.
    - Program (C21-C24, C33, C40): every reachable state keeps the tree and
      the indices equal to what [main] builds from the vector; without a
      deletion, searches by name print exactly the contacts of that name;
      the loop, once choice 0 is entered, eventually exits with both files
      saved (liveness); the ids held are distinct and below the counter
      in every reachable state; after a deletion the tree search for a
      contact stored after the deleted one no longer prints it; every
      contact held is valid in every reachable state.
    - Linked list (C25-C28, C35): [insert] is sorted insertion by
      [compare]; [compare] is a strict weak order exactly in the four
      configurations whose secondary attribute and order repeat the
      primary ones, where the list stays sorted; in [main]'s configuration
      any two contacts with names and cities in opposite orders are put
      out of name order; [remove] unlinks exactly the first match.
    - Record layer (C29-C31, C34): validity is kept by edit and delete;
      [editContact] edits the first match only; ids from [inputContacts]
      resolve to their contact, and after a deletion every contact stored
      after a deleted one no longer does.
    - The defect of [deleteNode] (C32): on every search tree, removing
      the last id of a node with two children whose successor holds a
      second id leaves a key in two nodes.
    - [test.cpp]'s assertions are evaluated in [AvlScenarios],
      [LinkedList] and [App] ([testAVLInsertion_asserts], [testAVLDeletion_asserts],
      [testLinkedList_scenario], [testLinkedList_prints]).

    ** Bounds and fuel

    The binary searches, the widening scans and the tree recursions need
    no fuel: they are structural or defined by well-founded recursion, so
    they terminate on every input.  [showDigits] takes one unit of fuel
    per bit of the number ([Z.log2 n + 1]), more than its decimal digits,
    which [showDigits_digits] uses.  [SearchBound.bsLoopFuel] is the
    loop of [binarySearchIterative] with a budget of rounds, to count
    them: a budget of [f] suffices for every window narrower than [2^f],
    since a round at least halves the window.  Indices are [int]s as [Z]: the search
    theorems assume fewer than [2^31] entries, below which no index
    computation leaves [int]; [size_t] positions of the CSV parser are
    taken modulo [2^64], and the round trip assumes lines shorter than
    [npos].  [global_id_counter] is kept as an unbounded [Z]: the C++ [int]
    would overflow only past [INT_MAX], and [loadFromFile_counter_overflow]
    shows when a load reaches that point.

    ** Not modelled

    Prompts and console formatting (the output is abstracted to the
    contacts and messages printed); the tokenising of the console input
    into menu rounds (a [Command] is the choice with the lines its round
    reads; what [operator>>] does with non-numeric input is not
    modelled, except that a missing answer of item 18 reads as 0); the
    count loop of [inputContacts] (its result [numContacts] is a
    parameter); failure to open a file for writing;
    [printInsertionOrder] (never called; it only prints a message); the
    destructors (empty: the [unique_ptr]s release the nodes); the move
    constructor and move assignment of [BinaryTree] and [LinkedList]
    beyond value semantics; out-of-memory behaviour.  The headers hold
    the declarations of the functions defined in the [.cpp] files; the
    map points to the definitions, and from the headers to the data
    ([TreeNode] and its constructor, [ListNode] and the class fields,
    [Contact], [Index], [IndexArray], the three enums).
*)

From Stdlib Require Import ZArith List Bool Lia Sorting.Sorted Sorting.Permutation Morphisms.
Import ListNotations.

Declare Scope cpp_scope.
Delimit Scope cpp_scope with cpp.
Open Scope Z_scope.

Create HintDb cpp.
Create Rewrite HintDb cpp.

(** ** [std::max] on [int]

    The sources compute heights as [std::max(a, b) + 1] (in the rotations)
    and as [1 + std::max(a, b)] (in [insert] and [deleteNode]).  Both are
    [Z.max] here; the heights are bounded by the logarithm of the number of
    nodes (see [AvlBalance]), so the 32-bit [int] never wraps. *)

Lemma max_plus_one_comm (a b : Z) : Z.max a b + 1 = 1 + Z.max a b.
Proof. lia. Qed.

(** ** The erase-remove idiom

    [v.erase(std::remove(v.begin(), v.end(), x), v.end())] deletes every
    element equal to [x] and keeps the others in order; [remove_if] is the
    same with a predicate.  (Note: every occurrence, not the first.) *)

Definition remove_if {A : Type} (p : A -> bool) (v : list A) : list A :=
  filter (fun a => negb (p a)) v.

Definition erase_remove (x : Z) (v : list Z) : list Z :=
  remove_if (fun y => y =? x) v.

Notation "v \ x" := (erase_remove x v) (at level 40, left associativity) : cpp_scope.
Open Scope cpp_scope.

Lemma In_remove_if {A} (p : A -> bool) v a :
  In a (remove_if p v) <-> In a v /\ p a = false.
Proof.
  unfold remove_if. rewrite filter_In. destruct (p a); simpl; intuition congruence.
Qed.

Lemma In_erase_remove v x y : In y (v \ x) <-> In y v /\ y <> x.
Proof.
  unfold erase_remove. rewrite In_remove_if, Z.eqb_neq. reflexivity.
Qed.

Lemma remove_if_app {A} (p : A -> bool) u v :
  remove_if p (u ++ v) = remove_if p u ++ remove_if p v.
Proof. apply filter_app. Qed.

Lemma erase_remove_absent v x : ~ In x v -> v \ x = v.
Proof.
  induction v as [|y v IH]; simpl; intros Hn; [reflexivity|].
  unfold erase_remove, remove_if in *; simpl.
  destruct (Z.eqb_spec y x); [subst; tauto|]. simpl. f_equal. apply IH. tauto.
Qed.

Lemma erase_remove_cons_self x v : (x :: v) \ x = v \ x.
Proof. unfold erase_remove, remove_if. cbn [filter]. now rewrite Z.eqb_refl. Qed.

(** A vector all of whose elements are the same id: the shape for which the
    two-children case of [deleteNode] is correct (see [AvlOrder]). *)
Definition uniform (v : list Z) : Prop := forall x y, In x v -> In y v -> x = y.

Lemma erase_remove_uniform v x :
  uniform v -> v \ x = [] \/ v \ x = v.
Proof.
  intros Hu. destruct (in_dec Z.eq_dec x v) as [Hin|Hnin].
  - left. destruct (v \ x) as [|y w] eqn:E; [reflexivity|].
    assert (Hy : In y (v \ x)) by (rewrite E; left; reflexivity).
    apply In_erase_remove in Hy as [Hy Hne]. exfalso. apply Hne. now apply Hu.
  - right. now apply erase_remove_absent.
Qed.

Lemma erase_remove_head_uniform x v : uniform (x :: v) -> (x :: v) \ x = [].
Proof.
  intros Hu. destruct (erase_remove_uniform (x :: v) x Hu) as [E|E]; [exact E|].
  assert (Hx : In x ((x :: v) \ x)) by (rewrite E; left; reflexivity).
  apply In_erase_remove in Hx. tauto.
Qed.

Lemma uniform_single x : uniform [x].
Proof. intros a b [->|[]] [->|[]]. reflexivity. Qed.

#[export] Hint Resolve uniform_single : cpp.

(** ** Sorted lists *)

Lemma SSorted_app {A} (R : A -> A -> Prop) (l1 l2 : list A) :
  StronglySorted R (l1 ++ l2) <->
  StronglySorted R l1 /\ StronglySorted R l2 /\
  (forall x y, In x l1 -> In y l2 -> R x y).
Proof.
  induction l1 as [|a l1 IH]; simpl.
  - split; [intros; repeat split; auto; [constructor | contradiction] | tauto].
  - split.
    + intros Hs. apply StronglySorted_inv in Hs as [Hs Ha].
      apply IH in Hs as (H1 & H2 & H12). rewrite Forall_app in Ha. destruct Ha as [Ha1 Ha2].
      repeat split; auto.
      * constructor; auto.
      * intros x y [<-|Hx] Hy; [|auto]. rewrite Forall_forall in Ha2. auto.
    + intros (H1 & H2 & H12). apply StronglySorted_inv in H1 as [H1 Ha].
      constructor.
      * apply IH. repeat split; auto.
      * apply Forall_app. split; [exact Ha|]. apply Forall_forall. auto.
Qed.

(** ** Tactics shared by the development *)

(** Turn the boolean comparisons of [Z] produced by the C++ conditions into
    propositions that [lia] reads. *)
Ltac zbool :=
  repeat match goal with
  | H : (_ <? _) = true |- _ => apply Z.ltb_lt in H
  | H : (_ <? _) = false |- _ => apply Z.ltb_ge in H
  | H : (_ >? _) = true |- _ => rewrite Z.gtb_ltb, Z.ltb_lt in H
  | H : (_ >? _) = false |- _ => rewrite Z.gtb_ltb, Z.ltb_ge in H
  | H : (_ >=? _) = true |- _ => rewrite Z.geb_leb, Z.leb_le in H
  | H : (_ >=? _) = false |- _ => rewrite Z.geb_leb, Z.leb_gt in H
  | H : (_ <=? _) = true |- _ => apply Z.leb_le in H
  | H : (_ <=? _) = false |- _ => apply Z.leb_gt in H
  | H : (_ && _)%bool = true |- _ => apply andb_prop in H; destruct H
  end.

(** Case on the first [if] of the goal, keeping the equation. *)
Ltac case_if :=
  match goal with
  | |- context [if ?b then _ else _] =>
      let E := fresh "E" in destruct b eqn:E
  end.

(** Case on the first comparison of [Z] in the condition of the outermost
    [if] of the goal that has one, as the code evaluates its conditions;
    then simplify the boolean connectives around it. *)
Ltac zcase_in c :=
  match c with
  | context [?a >? ?b] => destruct (Z.gtb_spec a b)
  | context [?a >=? ?b] => destruct (Z.geb_spec a b)
  | context [?a <? ?b] => destruct (Z.ltb_spec a b)
  | context [?a <=? ?b] => destruct (Z.leb_spec a b)
  end.

Ltac zcase :=
  match goal with |- context [if ?c then _ else _] => zcase_in c end;
  cbn [andb orb negb].

(** ** Sorted insertion

    Inserting [x] before the first element [y] with [comp x y] is what
    [LinkedList::insert] does, and repeated from the empty list it is an
    insertion sort.  [std::sort] promises that no element is [comp]-less
    than one before it: [not_after comp] holds of every ordered pair. *)
Section SortedInsert.
Context {A : Type} (comp : A -> A -> bool).

Definition not_after (a b : A) : Prop := comp b a = false.

Fixpoint insert_sorted (x : A) (l : list A) : list A :=
  match l with
  | [] => [x]
  | y :: l' => if comp x y then x :: l else y :: insert_sorted x l'
  end.

Definition sort_by (l : list A) : list A :=
  fold_left (fun acc x => insert_sorted x acc) l [].

Lemma insert_sorted_perm x l : Permutation (insert_sorted x l) (x :: l).
Proof.
  induction l as [|y l IH]; cbn [insert_sorted]; [reflexivity|].
  destruct (comp x y); [reflexivity|].
  rewrite IH. apply perm_swap.
Qed.

Lemma sort_by_perm l : Permutation (sort_by l) l.
Proof.
  unfold sort_by. rewrite <- (app_nil_r l) at 2. generalize (@nil A) as acc.
  induction l as [|x l IH]; intros acc; cbn [fold_left app]; [reflexivity|].
  rewrite IH, insert_sorted_perm. symmetry. apply Permutation_middle.
Qed.

(** [comp] is a strict weak order: asymmetric, and its complement is
    transitive (negative transitivity). *)
Hypothesis comp_asym : forall a b, comp a b = true -> comp b a = false.
Hypothesis comp_neg_trans : forall a b c, comp a c = true -> comp a b = true \/ comp b c = true.

Lemma insert_sorted_sorted x l :
  StronglySorted not_after l -> StronglySorted not_after (insert_sorted x l).
Proof.
  unfold not_after. induction 1 as [|y l Hs IH Hall]; cbn [insert_sorted].
  - repeat constructor.
  - destruct (comp x y) eqn:Exy.
    + constructor; [constructor; assumption|]. constructor; [now apply comp_asym|].
      eapply Forall_impl; [|exact Hall]. intros z Hz. cbv beta in Hz |- *.
      destruct (comp z x) eqn:Ezx; [|reflexivity].
      destruct (comp_neg_trans z y x Ezx) as [E|E]; [congruence|].
      rewrite (comp_asym _ _ Exy) in E. discriminate.
    + constructor; [exact IH|]. eapply Permutation_Forall; [symmetry; apply insert_sorted_perm|].
      constructor; assumption.
Qed.

Lemma sort_by_sorted l : StronglySorted not_after (sort_by l).
Proof.
  unfold sort_by. assert (H : StronglySorted not_after (@nil A)) by constructor.
  revert H. generalize (@nil A) as acc. induction l as [|x l IH]; intros acc Hacc; [exact Hacc|].
  apply IH, insert_sorted_sorted, Hacc.
Qed.
End SortedInsert.

(** ** Machine integers

    [std::size_t] is 64 bits unsigned, [int] 32 bits signed; converting a
    [size_t] to an [int] keeps the low 32 bits as a two's complement value
    (the conversion of every compiler the code targets, and C++20's rule). *)
Definition size_t_of (z : Z) : Z := z mod 2 ^ 64.

Definition int_of (z : Z) : Z :=
  let m := z mod 2 ^ 32 in if m <? 2 ^ 31 then m else m - 2 ^ 32.

Lemma int_of_size_minus_one (n : Z) :
  1 <= n <= 2 ^ 31 -> int_of (size_t_of (n - 1)) = n - 1.
Proof.
  intros Hn. unfold int_of, size_t_of.
  rewrite (Z.mod_small (n - 1)) by lia. rewrite (Z.mod_small (n - 1)) by lia.
  destruct (Z.ltb_spec (n - 1) (2 ^ 31)); lia.
Qed.

Lemma int_of_size_zero_minus_one : int_of (size_t_of (0 - 1)) = -1.
Proof. reflexivity. Qed.

(** ** Filtering *)

Lemma NoDup_map_filter {A B} (f : A -> B) (p : A -> bool) (l : list A) :
  NoDup (map f l) -> NoDup (map f (filter p l)).
Proof.
  induction l as [|a l IH]; cbn [map filter]; [auto|]. intros Hn. inversion_clear Hn as [|? ? Hna Hl].
  destruct (p a); cbn [map]; [|auto]. constructor; [|auto].
  intros Hin. apply Hna. apply in_map_iff in Hin as (x & <- & Hx). apply filter_In in Hx as [Hx _].
  apply in_map, Hx.
Qed.

Lemma incl_map_filter {A B} (f : A -> B) (p : A -> bool) (l : list A) :
  incl (map f (filter p l)) (map f l).
Proof. apply incl_map. intros x Hx. apply filter_In in Hx as [Hx _]. exact Hx. Qed.

(** ** Lists by index *)

Lemma SSorted_nth {A} (R : A -> A -> Prop) (l : list A) d i j :
  StronglySorted R l -> (i < j < length l)%nat -> R (nth i l d) (nth j l d).
Proof.
  intros Hs. revert i j. induction Hs as [|x l Hs IH Hall]; intros i j Hij; cbn [length] in Hij; [lia|].
  destruct i, j; try lia; cbn [nth].
  - rewrite Forall_forall in Hall. apply Hall, nth_In. lia.
  - apply IH. lia.
Qed.

Lemma filter_all_false {A} (p : A -> bool) l :
  (forall x, In x l -> p x = false) -> filter p l = [].
Proof.
  induction l as [|x l IH]; intros H; cbn; [reflexivity|].
  rewrite H by now left. apply IH. intros y Hy. apply H. now right.
Qed.

Lemma filter_all_true {A} (p : A -> bool) l :
  (forall x, In x l -> p x = true) -> filter p l = l.
Proof.
  induction l as [|x l IH]; intros H; cbn; [reflexivity|].
  rewrite H by now left. f_equal. apply IH. intros y Hy. apply H. now right.
Qed.

Lemma seq_offset s n : seq s n = map (Nat.add s) (seq 0 n).
Proof.
  revert s. induction n as [|n IH]; intros s; [reflexivity|].
  cbn [seq map]. rewrite Nat.add_0_r. f_equal.
  rewrite IH, (IH 1%nat), map_map. apply map_ext. intros; lia.
Qed.

Lemma map_nth_seq {A} (l : list A) d : map (fun j => nth j l d) (seq 0 (length l)) = l.
Proof.
  induction l as [|x l IH]; [reflexivity|]. cbn [length seq map nth]. f_equal.
  rewrite <- seq_shift, map_map. exact IH.
Qed.

(** Filtering a list is filtering its positions. *)
Lemma filter_nth_seq {A} (p : A -> bool) (l : list A) d :
  filter p l = map (fun j => nth j l d) (filter (fun j => p (nth j l d)) (seq 0 (length l))).
Proof. rewrite <- filter_map_swap, map_nth_seq. reflexivity. Qed.

(** The positions [j < len] of an interval [s..e]. *)
Lemma filter_seq_interval (q : nat -> bool) s e len :
  (forall j, (j < len)%nat -> q j = true <-> (s <= j <= e)%nat) -> (s <= e < len)%nat ->
  filter q (seq 0 len) = seq s (e - s + 1).
Proof.
  intros Hq Hse.
  replace len with (s + ((e - s + 1) + (len - e - 1)))%nat at 1 by lia.
  rewrite (seq_app s _ 0), (seq_app (e - s + 1) _ (0 + s)), !filter_app, !Nat.add_0_l.
  rewrite (filter_all_false q (seq 0 s)), (filter_all_true q (seq s _)), (filter_all_false q (seq _ (len - e - 1))).
  - rewrite app_nil_r. reflexivity.
  - intros j Hj. apply in_seq in Hj. destruct (q j) eqn:E; [|reflexivity]. apply Hq in E; lia.
  - intros j Hj. apply in_seq in Hj. apply Hq; lia.
  - intros j Hj. apply in_seq in Hj. destruct (q j) eqn:E; [|reflexivity]. apply Hq in E; lia.
Qed.

(** [filter] respects permutations, so [rewrite] works under it. *)
#[export] Instance filter_Permutation {A} (p : A -> bool) :
  Proper (@Permutation A ==> @Permutation A) (filter p).
Proof.
  intros l l' HP. induction HP; cbn [filter].
  - constructor.
  - destruct (p x); [constructor|]; assumption.
  - destruct (p x), (p y); try constructor; reflexivity.
  - etransitivity; eassumption.
Qed.
