(* ===== verification/KeyOrder.v ===== *)
(** * The interface between the tree and its keys

    [BinaryTree] compares keys only through [operator<], [operator>] and
    [operator==] of [std::string].  The class [KeyOrder] is what the tree's
    theorems assume of a key type: a three-way comparison that is a total
    strict order.  The instance [string_KeyOrder] discharges it for the
    keys the program uses: [std::string] compares byte sequences
    lexicographically, each byte as an [unsigned char] (the rule of
    [std::char_traits<char>::lt]), a proper prefix being smaller; Stdlib's
    [String.compare] is the same order on [string] ([Ascii.compare] is the
    order of the byte values 0..255). *)

From Stdlib Require Import ZArith List Bool Lia String Ascii.
From Stdlib Require Import RelationClasses.
From S2P Require Import Prelude.

Class KeyOrder (K : Type) := {
  key_compare : K -> K -> comparison;
  key_compare_eq : forall a b, key_compare a b = Eq -> a = b;
  key_compare_refl : forall a, key_compare a a = Eq;
  key_compare_antisym : forall a b, key_compare b a = CompOpp (key_compare a b);
  key_compare_trans : forall a b c,
    key_compare a b = Lt -> key_compare b c = Lt -> key_compare a c = Lt
}.

Section KeyFacts.
Context {K : Type} `{KeyOrder K}.

(** [a < b], [a > b] and [a == b] on keys, as the C++ code writes them. *)
Definition key_lt (a b : K) : bool :=
  match key_compare a b with Lt => true | _ => false end.
Definition key_gt (a b : K) : bool :=
  match key_compare a b with Gt => true | _ => false end.
Definition key_eqb (a b : K) : bool :=
  match key_compare a b with Eq => true | _ => false end.

(** The strict order as a proposition. *)
Definition klt (a b : K) : Prop := key_compare a b = Lt.

Lemma klt_trans a b c : klt a b -> klt b c -> klt a c.
Proof. apply key_compare_trans. Qed.

Lemma klt_irrefl a : ~ klt a a.
Proof. unfold klt. rewrite key_compare_refl. discriminate. Qed.

Lemma klt_asym a b : klt a b -> ~ klt b a.
Proof. unfold klt. intros E. rewrite key_compare_antisym, E. discriminate. Qed.

Lemma klt_neq a b : klt a b -> a <> b.
Proof. intros Hlt ->. exact (klt_irrefl _ Hlt). Qed.

#[global] Instance klt_StrictOrder : StrictOrder klt.
Proof. split; [exact klt_irrefl | exact klt_trans]. Qed.

Lemma key_compare_spec a b :
  CompareSpec (a = b) (klt a b) (klt b a) (key_compare a b).
Proof.
  unfold klt. destruct (key_compare a b) eqn:E; constructor.
  - now apply key_compare_eq.
  - reflexivity.
  - rewrite key_compare_antisym, E. reflexivity.
Qed.

Lemma key_lt_spec a b : key_lt a b = true <-> klt a b.
Proof. unfold key_lt, klt. destruct (key_compare a b); split; congruence. Qed.

Lemma key_gt_spec a b : key_gt a b = true <-> klt b a.
Proof.
  unfold key_gt, klt. rewrite (key_compare_antisym a b).
  destruct (key_compare a b); simpl; split; congruence.
Qed.

Lemma key_eqb_spec a b : key_eqb a b = true <-> a = b.
Proof.
  unfold key_eqb. split.
  - destruct (key_compare a b) eqn:E; try discriminate. intros _. now apply key_compare_eq.
  - intros ->. now rewrite key_compare_refl.
Qed.

Definition key_eq_dec (a b : K) : {a = b} + {a <> b}.
Proof.
  destruct (key_eqb a b) eqn:E; [left | right].
  - now apply key_eqb_spec.
  - intros Heq. apply key_eqb_spec in Heq. congruence.
Defined.

(** The three outcomes of one comparison, as the code's [if]s see them. *)
Lemma key_lt_gt_cases a b :
  (key_lt a b = true /\ key_gt a b = false /\ klt a b) \/
  (key_lt a b = false /\ key_gt a b = true /\ klt b a) \/
  (key_lt a b = false /\ key_gt a b = false /\ a = b).
Proof.
  unfold key_lt, key_gt. destruct (key_compare_spec a b) as [->| |]; auto.
Qed.
End KeyFacts.

Declare Scope key_scope.
Notation "a <k b" := (klt a b) (at level 70, no associativity) : key_scope.
Open Scope key_scope.

#[export] Hint Resolve klt_trans klt_irrefl : cpp.

(** Split a goal on the comparison of two keys, as the nested
    [if (key < k) ... else if (key > k) ... else ...] of the code does. *)
Ltac kcases a b :=
  let Hlt := fresh "Hlt" in let Hgt := fresh "Hgt" in let Hk := fresh "Hk" in
  destruct (key_lt_gt_cases a b) as [[Hlt [Hgt Hk]] | [[Hlt [Hgt Hk]] | [Hlt [Hgt Hk]]]];
  rewrite ?Hlt, ?Hgt; cbn [andb orb negb].

(** ** [std::string] keys *)

Lemma ascii_compare_refl (c : ascii) : Ascii.compare c c = Eq.
Proof. unfold Ascii.compare. apply N.compare_refl. Qed.

Lemma ascii_compare_trans (a b c : ascii) :
  Ascii.compare a b = Lt -> Ascii.compare b c = Lt -> Ascii.compare a c = Lt.
Proof.
  unfold Ascii.compare. rewrite !N.compare_lt_iff. apply N.lt_trans.
Qed.

Lemma string_compare_refl (s : string) : String.compare s s = Eq.
Proof. induction s as [|c s IH]; simpl; [reflexivity|]. now rewrite ascii_compare_refl. Qed.

Lemma string_compare_trans (a b c : string) :
  String.compare a b = Lt -> String.compare b c = Lt -> String.compare a c = Lt.
Proof.
  revert b c. induction a as [|x a IH]; intros [|y b] [|z c]; simpl; try congruence.
  destruct (Ascii.compare x y) eqn:Exy; try discriminate;
    destruct (Ascii.compare y z) eqn:Eyz; try discriminate;
    repeat match goal with
    | H : Ascii.compare _ _ = Eq |- _ => apply Ascii.compare_eq_iff in H; subst
    end.
  - rewrite ascii_compare_refl. apply IH.
  - now rewrite Eyz.
  - now rewrite Exy.
  - intros _ _. now rewrite (ascii_compare_trans _ _ _ Exy Eyz).
Qed.

#[export] Instance string_KeyOrder : KeyOrder string := {
  key_compare := String.compare;
  key_compare_eq := String.compare_eq_iff;
  key_compare_refl := string_compare_refl;
  key_compare_antisym := fun a b => String.compare_antisym b a;
  key_compare_trans := string_compare_trans
}.
