(* ===== verification/Contact.v ===== *)
(** * The record layer of [src/contact.cpp]

    [Contact] is the struct of [contact.h]; ids are [int]s, the three
    text fields [std::string]s (byte strings, Stdlib [string]).  Console
    input is a list of lines: [readField] is one retry loop of
    [inputContacts] and [readInputs] its [for] loop reading the fields of
    every contact; [inputContacts] stores the accepted fields;
    [editContact] receives its three answers as parameters.

    - The validators are boolean functions, with [std::isdigit] on the
      bytes ['0'..'9'].
    - [inputContacts] threads the global id counter explicitly: it takes
      the counter and returns the new one.
    - [editContact] and [deleteContact] change the contact vector; the
      index arrays they rebuild are modelled in [IndexSearch].
    - [resolve] is the way [main.cpp] and [inOrderTraversal] turn an id
      back into a contact: [contacts[id - 1]] when [id - 1] is in range.

    Theorems: the retry loops store only valid contacts
    ([inputContacts_valid]) and validity is kept by [editContact] and
    [deleteContact]; ids handed out by [inputContacts] are consecutive
    and resolve to their own contact; after [deleteContact] every
    contact stored after a deleted one no longer does
    ([resolve_after_delete]). *)

From Stdlib Require Import ZArith List Bool Lia String Ascii.
From S2P Require Import Prelude.
Import ListNotations.

(** [struct Contact]. *)
Record Contact : Type := mkContact {
  id : Z;
  name : string;
  phoneNumber : string;
  city : string
}.

(** [validateName]: [!name.empty()]. *)
Definition validateName (name : string) : bool := negb (String.eqb name "").

(** [validateCity]: [!city.empty()]. *)
Definition validateCity (city : string) : bool := negb (String.eqb city "").

(** [std::isdigit] on a byte: the characters ['0'] to ['9'].  (The C++
    passes a plain [char]; for a byte above 127 that is negative, which
    [std::isdigit] does not accept.) *)
Definition isdigit (c : ascii) : bool :=
  let n := N_of_ascii c in (48 <=? n)%N && (n <=? 57)%N.

(** [validatePhoneNumber]: 7 to 15 bytes, every one a digit. *)
Definition validatePhoneNumber (phoneNumber : string) : bool :=
  if (String.length phoneNumber <? 7)%nat || (15 <? String.length phoneNumber)%nat then false
  else forallb isdigit (list_ascii_of_string phoneNumber).

(** What [inputContacts] guarantees of every contact it accepts. *)
Definition validContact (c : Contact) : bool :=
  validateName (name c) && validatePhoneNumber (phoneNumber c) && validateCity (city c).

(** One retry loop of [inputContacts]
    ([while(true) { getline(...); if (validate(...)) break; }]): the
    first line the validator accepts and the input after it; [None] when
    the input ends first ([getline] fails and the loop never exits). *)
Fixpoint readField (valid : string -> bool) (lines : list string) : option (string * list string) :=
  match lines with
  | [] => None
  | l :: rest => if valid l then Some (l, rest) else readField valid rest
  end.

(** The console side of [inputContacts]'s [for] loop: for each of the
    [numContacts] contacts, the name, phone and city retry loops in turn.
    The accepted triples in order, and the input left after them. *)
Fixpoint readInputs (numContacts : nat) (lines : list string)
    : option (list (string * string * string) * list string) :=
  match numContacts with
  | O => Some ([], lines)
  | S k =>
      match readField validateName lines with
      | None => None
      | Some (n, l1) =>
          match readField validatePhoneNumber l1 with
          | None => None
          | Some (p, l2) =>
              match readField validateCity l2 with
              | None => None
              | Some (c, l3) =>
                  match readInputs k l3 with
                  | None => None
                  | Some (ins, l4) => Some ((n, p, c) :: ins, l4)
                  end
              end
          end
      end
  end.

(** The store side of [inputContacts]'s [for] loop: each accepted triple
    (name, phone, city) becomes a contact with the id
    [global_id_counter++], appended to the vector.  Returns the vector
    and the new counter. *)
Fixpoint inputContacts (contacts : list Contact) (global_id_counter : Z)
    (inputs : list (string * string * string)) : list Contact * Z :=
  match inputs with
  | [] => (contacts, global_id_counter)
  | (n, p, c) :: rest =>
      inputContacts (contacts ++ [mkContact global_id_counter n p c])
        (global_id_counter + 1) rest
  end.

(** The loop body of [editContact] at the matching contact: a non-empty
    new name or city replaces the old one; a non-empty new phone number
    replaces it only if it validates. *)
Definition editFields (c : Contact) (newName newPhone newCity : string) : Contact :=
  let c := if String.eqb newName "" then c
           else mkContact (id c) newName (phoneNumber c) (city c) in
  let c := if String.eqb newPhone "" then c
           else if validatePhoneNumber newPhone
                then mkContact (id c) (name c) newPhone (city c) else c in
  if String.eqb newCity "" then c else mkContact (id c) (name c) (phoneNumber c) newCity.

(** [editContact]: the first contact whose name equals [key] is edited
    ([break] after it); the flag is [found]. *)
Fixpoint editContact (contacts : list Contact) (key newName newPhone newCity : string)
    : list Contact * bool :=
  match contacts with
  | [] => ([], false)
  | c :: rest =>
      if String.eqb (name c) key then (editFields c newName newPhone newCity :: rest, true)
      else let '(rest', found) := editContact rest key newName newPhone newCity in
           (c :: rest', found)
  end.

(** [deleteContact]: [std::remove_if] on [c.name == key], then [erase];
    the flag says whether anything was removed. *)
Definition deleteContact (contacts : list Contact) (key : string) : list Contact * bool :=
  let kept := remove_if (fun c => String.eqb (name c) key) contacts in
  (kept, negb (Nat.eqb (List.length kept) (List.length contacts))).

(** [contacts[id - 1]] guarded by [id - 1 >= 0 && id - 1 < contacts.size()]. *)
Definition resolve (contacts : list Contact) (id : Z) : option Contact :=
  if (0 <=? id - 1) && (id - 1 <? Z.of_nat (List.length contacts)) then
    nth_error contacts (Z.to_nat (id - 1))
  else None.

(** ** Theorems *)

Lemma editFields_valid c newName newPhone newCity :
  validContact c = true -> validContact (editFields c newName newPhone newCity) = true.
Proof.
  unfold validContact, editFields, validateName, validateCity.
  intros Hv. apply andb_prop in Hv as [Hv Hc]. apply andb_prop in Hv as [Hn Hp].
  destruct (String.eqb newName "") eqn:En; destruct (String.eqb newPhone "") eqn:Ep;
    try destruct (validatePhoneNumber newPhone) eqn:Ev;
    destruct (String.eqb newCity "") eqn:Ec; cbn [name phoneNumber city];
    rewrite ?En, ?Ec, ?Ev, ?Hn, ?Hp, ?Hc; reflexivity.
Qed.

Lemma editFields_id c newName newPhone newCity : id (editFields c newName newPhone newCity) = id c.
Proof.
  unfold editFields. destruct (String.eqb newName ""), (String.eqb newPhone ""),
    (validatePhoneNumber newPhone), (String.eqb newCity ""); reflexivity.
Qed.

Lemma editContact_valid (contacts : list Contact) key newName newPhone newCity :
  Forall (fun c => validContact c = true) contacts ->
  Forall (fun c => validContact c = true) (fst (editContact contacts key newName newPhone newCity)).
Proof.
  induction 1 as [|c cs Hc Hcs IH]; [constructor|]. cbn [editContact].
  destruct (String.eqb (name c) key).
  - constructor; [apply editFields_valid; exact Hc | exact Hcs].
  - destruct (editContact cs key newName newPhone newCity) as [cs' found]. constructor; assumption.
Qed.

Lemma deleteContact_valid (contacts : list Contact) key :
  Forall (fun c => validContact c = true) contacts ->
  Forall (fun c => validContact c = true) (fst (deleteContact contacts key)).
Proof.
  intros Hv. unfold deleteContact, remove_if. cbn [fst]. apply Forall_forall. intros c Hin.
  apply filter_In in Hin as [Hin _]. rewrite Forall_forall in Hv. auto.
Qed.

(** The retry loops accept only valid fields. *)
Lemma readField_valid valid lines x rest : readField valid lines = Some (x, rest) -> valid x = true.
Proof.
  induction lines as [|l ls IH]; cbn [readField]; [discriminate|].
  destruct (valid l) eqn:E; [intros H; injection H as <- _; exact E | exact IH].
Qed.

(** [inputContacts] stores only valid contacts, and exactly
    [numContacts] of them. *)
Lemma inputContacts_valid numContacts lines ins rest contacts ctr :
  readInputs numContacts lines = Some (ins, rest) ->
  Forall (fun c => validContact c = true) contacts ->
  Forall (fun c => validContact c = true) (fst (inputContacts contacts ctr ins)) /\
  List.length ins = numContacts.
Proof.
  revert lines ins rest contacts ctr. induction numContacts as [|k IH]; intros lines ins rest contacts ctr E Hv.
  - injection E as <- _. split; [exact Hv | reflexivity].
  - cbn [readInputs] in E.
    destruct (readField validateName lines) as [[n l1]|] eqn:En; [|discriminate].
    destruct (readField validatePhoneNumber l1) as [[p l2]|] eqn:Ep; [|discriminate].
    destruct (readField validateCity l2) as [[c l3]|] eqn:Ec; [|discriminate].
    destruct (readInputs k l3) as [[ins' l4]|] eqn:Ek; [|discriminate]. injection E as <- <-.
    cbn [inputContacts List.length].
    match goal with |- Forall _ (fst (inputContacts ?cs ?n _)) /\ _ =>
      destruct (IH l3 ins' l4 cs n Ek) as [Hv' Hl]; [|split; [exact Hv' | rewrite Hl; reflexivity]] end.
    apply Forall_app. split; [exact Hv|]. constructor; [|constructor].
    unfold validContact. cbn [name phoneNumber city].
    rewrite (readField_valid _ _ _ _ En), (readField_valid _ _ _ _ Ep), (readField_valid _ _ _ _ Ec).
    reflexivity.
Qed.

(** (C29) Every stored contact stays valid (non-empty name and city, a
    phone number of 7 to 15 digits) through [editContact] and
    [deleteContact]: an edit never stores an empty name or city nor a
    phone number that fails [validatePhoneNumber]. *)
Theorem contacts_stay_valid (contacts : list Contact) key newName newPhone newCity :
  Forall (fun c => validContact c = true) contacts ->
  Forall (fun c => validContact c = true) (fst (editContact contacts key newName newPhone newCity)) /\
  Forall (fun c => validContact c = true) (fst (deleteContact contacts key)).
Proof. intros Hv. split; [apply editContact_valid | apply deleteContact_valid]; exact Hv. Qed.

(** [editContact] never changes an id: the ids of the vector, in order,
    are the same before and after. *)
Lemma editContact_ids (contacts : list Contact) key newName newPhone newCity :
  map id (fst (editContact contacts key newName newPhone newCity)) = map id contacts.
Proof.
  induction contacts as [|c cs IH]; [reflexivity|]. cbn [editContact].
  destruct (String.eqb (name c) key).
  - cbn. now rewrite editFields_id.
  - destruct (editContact cs key newName newPhone newCity) as [cs' found] eqn:E.
    cbn in *. now rewrite IH.
Qed.

Lemma editContact_unchanged contacts key newName newPhone newCity :
  snd (editContact contacts key newName newPhone newCity) = false ->
  fst (editContact contacts key newName newPhone newCity) = contacts.
Proof.
  induction contacts as [|c cs IH]; cbn [editContact]; [reflexivity|].
  destruct (String.eqb (name c) key); [discriminate|].
  destruct (editContact cs key newName newPhone newCity) as [cs' found]. cbn in *.
  intros H. f_equal. exact (IH H).
Qed.

(** (C30) [editContact] edits exactly the first contact named [key] (the
    [break] after it), through [editFields], and reports it found; with
    no contact of that name it changes nothing and reports not found. *)
Theorem editContact_spec (contacts : list Contact) key newName newPhone newCity :
  match editContact contacts key newName newPhone newCity with
  | (cs', true) => exists pre x post, contacts = pre ++ x :: post /\
      Forall (fun y => String.eqb (name y) key = false) pre /\ name x = key /\
      cs' = pre ++ editFields x newName newPhone newCity :: post
  | (cs', false) => cs' = contacts /\ Forall (fun y => String.eqb (name y) key = false) contacts
  end.
Proof.
  induction contacts as [|c cs IH]; cbn [editContact]; [auto|].
  destruct (String.eqb (name c) key) eqn:E.
  - exists [], c, cs. repeat split; auto. now apply String.eqb_eq.
  - destruct (editContact cs key newName newPhone newCity) as [cs' [|]].
    + destruct IH as (pre & x & post & -> & Hpre & Hx & ->).
      exists (c :: pre), x, post. repeat split; auto.
    + destruct IH as [-> Hall]. auto.
Qed.

(** The ids of [contacts] are [n], [n+1], ... in vector order: what
    [inputContacts] establishes from [global_id_counter = 1]. *)
Definition ids_from (contacts : list Contact) (n : Z) : Prop :=
  forall k c, nth_error contacts k = Some c -> id c = n + Z.of_nat k.

Lemma inputContacts_ids contacts n inputs :
  ids_from contacts 1 -> n = 1 + Z.of_nat (List.length contacts) ->
  ids_from (fst (inputContacts contacts n inputs)) 1 /\
  snd (inputContacts contacts n inputs) = 1 + Z.of_nat (List.length (fst (inputContacts contacts n inputs))) /\
  List.length (fst (inputContacts contacts n inputs)) = (List.length contacts + List.length inputs)%nat.
Proof.
  revert contacts n. induction inputs as [|[[nm p] c] rest IH]; intros contacts n Hids Hn.
  - cbn. rewrite Nat.add_0_r. auto.
  - cbn [inputContacts List.length]. destruct (IH (contacts ++ [mkContact n nm p c]) (n + 1))
      as (H1 & H2 & H3).
    + intros k c' Hk. destruct (Nat.lt_ge_cases k (List.length contacts)) as [Hlt|Hge].
      * rewrite nth_error_app1 in Hk by exact Hlt. auto.
      * rewrite nth_error_app2 in Hk by exact Hge.
        destruct (k - List.length contacts)%nat eqn:E; cbn in Hk; [|now destruct n0].
        injection Hk as <-. cbn [id]. lia.
    + rewrite length_app. cbn [List.length]. lia.
    + rewrite length_app in H3. cbn [List.length] in H3. repeat split; auto. lia.
Qed.

Lemma ids_from_wf (cs : list Contact) (n : Z) :
  ids_from cs n -> NoDup (map id cs) /\ Forall (fun i => n <= i < n + Z.of_nat (List.length cs)) (map id cs).
Proof.
  revert n. induction cs as [|c cs IH]; intros n Hids; [split; constructor|].
  assert (Hc : id c = n) by (rewrite (Hids 0%nat c eq_refl); lia).
  destruct (IH (n + 1)) as [Hnd Hb].
  { intros k c' Hk. rewrite (Hids (S k) c' Hk). lia. }
  cbn [map List.length]. split.
  - constructor; [|exact Hnd]. intros Hin. rewrite Forall_forall in Hb. specialize (Hb _ Hin). lia.
  - constructor; [lia|]. eapply Forall_impl; [|exact Hb]. intros i. cbn beta. lia.
Qed.

Lemma resolve_ids_from contacts c :
  ids_from contacts 1 -> In c contacts -> resolve contacts (id c) = Some c.
Proof.
  intros Hids Hin. apply In_nth_error in Hin as [k Hk].
  rewrite (Hids k c Hk). unfold resolve.
  pose proof (nth_error_Some contacts k) as Hs. rewrite Hk in Hs.
  assert (k < List.length contacts)%nat by (apply Hs; discriminate).
  replace (1 + Z.of_nat k - 1) with (Z.of_nat k) by lia.
  rewrite Nat2Z.id. destruct (Z.leb_spec 0 (Z.of_nat k)), (Z.ltb_spec (Z.of_nat k) (Z.of_nat (List.length contacts)));
    cbn [andb]; first [exact Hk | lia].
Qed.

(** (C31) [inputContacts] started as [main.cpp] starts it (empty vector,
    counter 1) hands out the ids [1..n] in order and leaves the counter at
    [n + 1], so [contacts[id - 1]] finds every contact by its id. *)
Theorem inputContacts_resolve inputs c :
  In c (fst (inputContacts [] 1 inputs)) ->
  resolve (fst (inputContacts [] 1 inputs)) (id c) = Some c /\
  snd (inputContacts [] 1 inputs) = 1 + Z.of_nat (List.length inputs).
Proof.
  intros Hin.
  destruct (inputContacts_ids [] 1 inputs) as (H1 & H2 & H3); [intros [|k] c' Hk; discriminate | reflexivity |].
  split; [now apply resolve_ids_from|]. rewrite H2, H3. reflexivity.
Qed.

Lemma editContact_length contacts key newName newPhone newCity :
  List.length (fst (editContact contacts key newName newPhone newCity)) = List.length contacts.
Proof.
  rewrite <- (length_map id), editContact_ids. apply length_map.
Qed.

Lemma editContact_ids_from contacts n key newName newPhone newCity :
  ids_from contacts n -> ids_from (fst (editContact contacts key newName newPhone newCity)) n.
Proof.
  intros Hids k c Hk.
  assert (Hm : nth_error (map id (fst (editContact contacts key newName newPhone newCity))) k = Some (id c))
    by (rewrite nth_error_map, Hk; reflexivity).
  rewrite editContact_ids, nth_error_map in Hm.
  destruct (nth_error contacts k) as [c0|] eqn:E; [|discriminate].
  injection Hm as <-. apply Hids. exact E.
Qed.

(** [contacts[id - 1]] finds a contact only at the position [id - 1]:
    ids are distinct, so a contact sits at one position only. *)
Lemma resolve_pos (cs : list Contact) (c : Contact) (p : nat) (i : Z) :
  NoDup (map id cs) -> nth_error cs p = Some c -> resolve cs i = Some c -> i - 1 = Z.of_nat p.
Proof.
  intros Hnd Hp. unfold resolve.
  destruct ((0 <=? i - 1) && (i - 1 <? Z.of_nat (List.length cs))) eqn:Hg; [|discriminate].
  apply andb_true_iff in Hg as [Hg1 Hg2]. apply Z.leb_le in Hg1. apply Z.ltb_lt in Hg2. intros Hi.
  assert (E : Z.to_nat (i - 1) = p).
  { apply (proj1 (NoDup_nth_error (map id cs)) Hnd); [rewrite length_map; lia|].
    rewrite !nth_error_map, Hi, Hp. reflexivity. }
  lia.
Qed.

Lemma ids_from_app (l1 l2 : list Contact) n :
  ids_from (l1 ++ l2) n -> ids_from l2 (n + Z.of_nat (List.length l1)).
Proof.
  intros H k c Hk. rewrite (H (List.length l1 + k)%nat c) by (rewrite nth_error_app2, Nat.add_comm, Nat.add_sub by lia; exact Hk).
  lia.
Qed.

Lemma ids_from_In (l : list Contact) n x : ids_from l n -> In x l -> n <= id x.
Proof. intros H Hx. apply In_nth_error in Hx as [k Hk]. rewrite (H k x Hk). lia. Qed.

(** What [deleteContact] does to a kept contact [c] placed after a
    deleted one [d]: [c] stays, the ids stay distinct, and [c] moves to
    a position below [id c - 1]. *)
Lemma deleteContact_shift (cs pre post1 post2 : list Contact) (d c : Contact) (key : string) :
  ids_from cs 1 -> cs = pre ++ d :: post1 ++ c :: post2 -> name d = key -> name c <> key ->
  In c (fst (deleteContact cs key)) /\ NoDup (map id (fst (deleteContact cs key))) /\
  exists p, nth_error (fst (deleteContact cs key)) p = Some c /\
    (p <= List.length pre + List.length post1)%nat /\
    id c = 1 + Z.of_nat (List.length pre + S (List.length post1)).
Proof.
  intros Hids Hcs Hd Hck. destruct (ids_from_wf cs 1 Hids) as [Hnd _].
  set (f := fun x : Contact => negb (String.eqb (name x) key)).
  assert (Ef : fst (deleteContact cs key) = filter f cs) by reflexivity. rewrite Ef.
  assert (Hfc : f c = true) by (unfold f; apply negb_true_iff, String.eqb_neq, Hck).
  assert (Hfd : f d = false) by (unfold f; rewrite Hd, String.eqb_refl; reflexivity).
  split; [apply filter_In; split; [rewrite Hcs; apply in_or_app; right; right; apply in_or_app; right; left; reflexivity | exact Hfc]|].
  split; [exact (NoDup_map_filter id f cs Hnd)|].
  exists (List.length (filter f pre) + List.length (filter f post1))%nat. split; [|split].
  - rewrite Hcs, !filter_app. cbn [filter]. rewrite Hfd, filter_app. cbn [filter]. rewrite Hfc.
    rewrite nth_error_app2 by lia. rewrite Nat.add_comm, Nat.add_sub.
    rewrite nth_error_app2 by lia. rewrite Nat.sub_diag. reflexivity.
  - pose proof (filter_length_le f pre). pose proof (filter_length_le f post1). lia.
  - apply Hids. rewrite Hcs, nth_error_app2 by lia.
    replace (List.length pre + S (List.length post1) - List.length pre)%nat with (S (List.length post1)) by lia.
    cbn [nth_error]. rewrite nth_error_app2 by lia. rewrite Nat.sub_diag. reflexivity.
Qed.

(** (C34) [deleteContact] compacts the vector but keeps the ids: in a
    vector whose ids are its positions plus one (as [inputContacts] makes
    it), when a contact [d] is deleted, every kept contact [c] after it
    is still in the vector, but [contacts[id - 1]] with its id no longer
    finds it (it finds a later contact, or nothing). *)
Theorem resolve_after_delete (cs pre post : list Contact) (d c : Contact) (key : string) :
  ids_from cs 1 -> cs = pre ++ d :: post -> name d = key -> In c post -> name c <> key ->
  In c (fst (deleteContact cs key)) /\ resolve (fst (deleteContact cs key)) (id c) <> Some c.
Proof.
  intros Hids Hcs Hd Hc Hck. apply In_split in Hc as (post1 & post2 & ->).
  destruct (deleteContact_shift cs pre post1 post2 d c key Hids Hcs Hd Hck) as (Hin & Hnd & p & Hp & Hle & Hid).
  split; [exact Hin|]. intros Hr. pose proof (resolve_pos _ _ _ _ Hnd Hp Hr). lia.
Qed.


Local Open Scope string_scope.

(** Three contacts entered at start-up, as [inputContacts] numbers them. *)
Definition demoInputs : list (string * string * string) :=
  [("Anna", "1111111", "Moscow"); ("Boris", "2222222", "Kazan"); ("Vera", "3333333", "Omsk")].

(** The console lines that give them: the phone "111" is too short and
    the empty city is refused, so their retry loops read again. *)
Definition demoLines : list string :=
  ["Anna"; "111"; "1111111"; "Moscow"; "Boris"; "2222222"; ""; "Kazan"; "Vera"; "3333333"; "Omsk"].

Lemma demoLines_read : readInputs 3 demoLines = Some (demoInputs, []).
Proof. vm_compute. reflexivity. Qed.

Definition demoContacts : list Contact := fst (inputContacts [] 1 demoInputs).


Lemma contacts_stay_valid_witness :
  Forall (fun c => validContact c = true) demoContacts /\
  Forall (fun c => validContact c = true) (fst (editContact demoContacts "Boris" "Boris" "44" "Ufa")) /\
  Forall (fun c => validContact c = true) (fst (deleteContact demoContacts "Boris")).
Proof.
  assert (H : Forall (fun c => validContact c = true) demoContacts) by (vm_compute; repeat constructor).
  split; [exact H | apply (contacts_stay_valid demoContacts "Boris" "Boris" "44" "Ufa"); exact H].
Defined.

Lemma inputContacts_resolve_witness :
  In (mkContact 2 "Boris" "2222222" "Kazan") demoContacts /\
  resolve demoContacts 2 = Some (mkContact 2 "Boris" "2222222" "Kazan") /\
  snd (inputContacts [] 1 demoInputs) = 1 + Z.of_nat (List.length demoInputs).
Proof.
  assert (H : In (mkContact 2 "Boris" "2222222" "Kazan") demoContacts) by (vm_compute; auto).
  split; [exact H | exact (inputContacts_resolve demoInputs _ H)].
Defined.

Lemma resolve_after_delete_witness :
  ids_from demoContacts 1 /\ demoContacts = ([] ++ mkContact 1 "Anna" "1111111" "Moscow" ::
    [mkContact 2 "Boris" "2222222" "Kazan"; mkContact 3 "Vera" "3333333" "Omsk"])%list /\
  In (mkContact 2 "Boris" "2222222" "Kazan") (fst (deleteContact demoContacts "Anna")) /\
  resolve (fst (deleteContact demoContacts "Anna")) 2 = Some (mkContact 3 "Vera" "3333333" "Omsk").
Proof.
  assert (H1 : ids_from demoContacts 1) by (apply (proj1 (inputContacts_ids [] 1 demoInputs ltac:(intros [|k] c Hk; discriminate) eq_refl))).
  assert (H2 : demoContacts = ([] ++ mkContact 1 "Anna" "1111111" "Moscow" ::
    [mkContact 2 "Boris" "2222222" "Kazan"; mkContact 3 "Vera" "3333333" "Omsk"])%list) by reflexivity.
  split; [exact H1 | split; [exact H2|]]. split; [|vm_compute; reflexivity].
  refine (proj1 (resolve_after_delete demoContacts [] _ _ (mkContact 2 "Boris" "2222222" "Kazan") "Anna"
            H1 H2 eq_refl _ _)); [left; reflexivity | discriminate].
Defined.
