(* ===== verification/IndexSearch.v ===== *)
(** * The flat index arrays of [src/contact.cpp] and their binary searches

    [Index] and [IndexArray] are the structs of [contact.h].
    [buildIndices] is the loop of [IndexArray::buildIndices]; the four
    [std::sort] calls of [IndexArray::sortIndices] are a relation, since
    [std::sort] fixes the multiset and the order but not how equal keys are
    arranged: [std_sort comp v v'] is its postcondition (a permutation in
    which no element is [comp]-less than an element before it), and
    [sortIndices_total] shows that every array has such a sorted form.

    [binarySearchIterative] and [binarySearchRecursive] are defined with
    Equations by well-founded recursion on the width of the window
    [left..right] (so both terminate on every input); the two scans that
    widen a hit to all equal keys are [expandLeft] and [expandRight].
    Indices are [int]s as [Z]; [right = indexArray.size() - 1] goes
    through [size_t] and back to [int] ([size_t_of], [int_of]).

    Theorems: on an array sorted by key with fewer than [2^31] entries,
    both searches return exactly the record numbers stored under the key,
    in array order; the recursive search is the iterative one; composed
    with [buildIndices] and any result of [sortIndices], a search by name
    or city returns the ids of exactly the contacts with that name or
    city. *)

From Stdlib Require Import ZArith List Bool Lia String Sorting.Sorted Sorting.Permutation.
From Equations Require Import Equations.
From S2P Require Import Prelude KeyOrder Contact.
Import ListNotations.

(** [struct Index]. *)
Record Index : Type := mkIndex {
  key : string;
  recordNumber : Z
}.

(** [struct IndexArray]. *)
Record IndexArray : Type := mkIndexArray {
  nameIndexAsc : list Index;
  nameIndexDesc : list Index;
  cityIndexAsc : list Index;
  cityIndexDesc : list Index
}.

Definition emptyIndexArray : IndexArray := mkIndexArray [] [] [] [].

(** [IndexArray::buildIndices]: clear the four arrays, then push the
    name entry into both name arrays and the city entry into both city
    arrays, contact by contact. *)
Definition buildIndices (contacts : list Contact) : IndexArray :=
  fold_left (fun ia c =>
    let idx := mkIndex (name c) (id c) in
    let idx' := mkIndex (city c) (id c) in
    mkIndexArray (nameIndexAsc ia ++ [idx]) (nameIndexDesc ia ++ [idx])
                 (cityIndexAsc ia ++ [idx']) (cityIndexDesc ia ++ [idx']))
    contacts emptyIndexArray.

(** The comparators of [sortIndices]: [a.key < b.key] and [a.key > b.key]. *)
Definition keyLess (a b : Index) : bool := key_lt (key a) (key b).
Definition keyGreater (a b : Index) : bool := key_gt (key a) (key b).

(** The postcondition of [std::sort(v.begin(), v.end(), comp)]. *)
Definition std_sort (comp : Index -> Index -> bool) (v v' : list Index) : Prop :=
  Permutation v v' /\ StronglySorted (not_after comp) v'.

(** [IndexArray::sortIndices]: [ia'] is a possible result from [ia]. *)
Definition sortIndices (ia ia' : IndexArray) : Prop :=
  std_sort keyLess (nameIndexAsc ia) (nameIndexAsc ia') /\
  std_sort keyGreater (nameIndexDesc ia) (nameIndexDesc ia') /\
  std_sort keyLess (cityIndexAsc ia) (cityIndexAsc ia') /\
  std_sort keyGreater (cityIndexDesc ia) (cityIndexDesc ia').

(** [indexArray[i]]; every access of the searches is in range (proved
    below), the default entry is never read. *)
Definition subscript (ia : list Index) (i : Z) : Index :=
  nth (Z.to_nat i) ia (mkIndex "" 0).

Definition size (ia : list Index) : Z := Z.of_nat (List.length ia).

(** [while(start > 0 && indexArray[start - 1].key == key) start--;] *)
Equations expandLeft (ia : list Index) (k : string) (start : Z) : Z
  by wf (Z.to_nat start) lt :=
expandLeft ia k start with Z_gt_dec start 0 => {
  | left _ => if String.eqb (key (subscript ia (start - 1))) k
              then expandLeft ia k (start - 1) else start;
  | right _ => start }.
Next Obligation. lia. Qed.

(** [while(end < indexArray.size() - 1 && indexArray[end + 1].key == key) end++;]
    (the array is not empty here and [end >= 0], so the unsigned comparison
    is the comparison of the values). *)
Equations expandRight (ia : list Index) (k : string) (fin : Z) : Z
  by wf (Z.to_nat (size ia - fin)) lt :=
expandRight ia k fin with Z_lt_dec fin (size ia - 1) => {
  | left _ => if String.eqb (key (subscript ia (fin + 1))) k
              then expandRight ia k (fin + 1) else fin;
  | right _ => fin }.
Next Obligation. lia. Qed.

(** [for(int i = start; i <= end; ++i) result.push_back(indexArray[i].recordNumber);] *)
Definition collect (ia : list Index) (start fin : Z) : list Z :=
  map (fun j => recordNumber (subscript ia (start + Z.of_nat j)))
      (seq 0 (Z.to_nat (fin - start + 1))).

(** The branch [indexArray[mid].key == key] of both searches. *)
Definition foundRange (ia : list Index) (k : string) (mid : Z) : list Z :=
  collect ia (expandLeft ia k mid) (expandRight ia k mid).

Lemma mid_bounds (lft rgt : Z) :
  lft <= rgt -> lft <= lft + Z.quot (rgt - lft) 2 <= rgt.
Proof.
  intros H. rewrite Z.quot_div_nonneg by lia.
  pose proof (Z.div_pos (rgt - lft) 2). pose proof (Z.div_le_upper_bound (rgt - lft) 2 (rgt - lft)). lia.
Qed.

(** The [while(left <= right)] loop of [binarySearchIterative]; [break]
    after a hit. *)
Equations bsLoop (ia : list Index) (k : string) (lft rgt : Z) : list Z
  by wf (Z.to_nat (rgt - lft + 1)) lt :=
bsLoop ia k lft rgt with Z_le_gt_dec lft rgt => {
  | left Hle =>
      let mid := lft + Z.quot (rgt - lft) 2 in
      if String.eqb (key (subscript ia mid)) k then foundRange ia k mid
      else if key_lt (key (subscript ia mid)) k then bsLoop ia k (mid + 1) rgt
      else bsLoop ia k lft (mid - 1);
  | right _ => [] }.
Next Obligation. pose proof (mid_bounds lft rgt Hle). lia. Qed.
Next Obligation. pose proof (mid_bounds lft rgt Hle). lia. Qed.

(** [binarySearchIterative]: [left = 0], [right = indexArray.size() - 1]. *)
Definition binarySearchIterative (ia : list Index) (k : string) : list Z :=
  bsLoop ia k 0 (int_of (size_t_of (size ia - 1))).

(** [binarySearchRecursive]: the result of the recursive call is appended
    to the (empty) local result. *)
Equations binarySearchRecursive (ia : list Index) (k : string) (lft rgt : Z) : list Z
  by wf (Z.to_nat (rgt - lft + 1)) lt :=
binarySearchRecursive ia k lft rgt with Z_le_gt_dec lft rgt => {
  | left Hle =>
      let mid := lft + Z.quot (rgt - lft) 2 in
      if String.eqb (key (subscript ia mid)) k then foundRange ia k mid
      else if key_lt (key (subscript ia mid)) k
      then [] ++ binarySearchRecursive ia k (mid + 1) rgt
      else [] ++ binarySearchRecursive ia k lft (mid - 1);
  | right _ => [] }.
Next Obligation. pose proof (mid_bounds lft rgt Hle). lia. Qed.
Next Obligation. pose proof (mid_bounds lft rgt Hle). lia. Qed.

(** How [main.cpp] calls it (menu items 7 and 9). *)
Definition searchRecursiveFromMain (ia : list Index) (k : string) : list Z :=
  binarySearchRecursive ia k 0 (int_of (size_t_of (size ia - 1))).

(** ** The comparators are strict weak orders *)

Lemma key_le_antisym (a b : string) : ~ klt a b -> ~ klt b a -> a = b.
Proof. intros H1 H2. destruct (key_compare_spec a b); tauto. Qed.

Lemma key_neg_trans (a b c : string) : klt a c -> klt a b \/ klt b c.
Proof.
  intros Hac. destruct (key_compare_spec a b) as [->| |Hba]; auto.
  right. eapply klt_trans; eassumption.
Qed.

Lemma keyLess_asym a b : keyLess a b = true -> keyLess b a = false.
Proof.
  unfold keyLess. intros H. apply key_lt_spec in H.
  destruct (key_lt (key b) (key a)) eqn:E; [|reflexivity].
  apply key_lt_spec in E. exfalso. exact (klt_asym _ _ H E).
Qed.

Lemma keyLess_neg_trans a b c : keyLess a c = true -> keyLess a b = true \/ keyLess b c = true.
Proof. unfold keyLess. rewrite !key_lt_spec. apply key_neg_trans. Qed.

Lemma keyGreater_asym a b : keyGreater a b = true -> keyGreater b a = false.
Proof.
  unfold keyGreater. intros H. apply key_gt_spec in H.
  destruct (key_gt (key b) (key a)) eqn:E; [|reflexivity].
  apply key_gt_spec in E. exfalso. exact (klt_asym _ _ H E).
Qed.

Lemma keyGreater_neg_trans a b c :
  keyGreater a c = true -> keyGreater a b = true \/ keyGreater b c = true.
Proof.
  unfold keyGreater. rewrite !key_gt_spec. intros H.
  destruct (key_neg_trans _ (key b) _ H); auto.
Qed.

(** One possible outcome of [sortIndices]: an insertion sort of each
    array.  It shows that the relation [sortIndices] is never empty. *)
Definition sortIndicesBy (ia : IndexArray) : IndexArray :=
  mkIndexArray (sort_by keyLess (nameIndexAsc ia)) (sort_by keyGreater (nameIndexDesc ia))
               (sort_by keyLess (cityIndexAsc ia)) (sort_by keyGreater (cityIndexDesc ia)).

Lemma sortIndicesBy_sorts (ia : IndexArray) : sortIndices ia (sortIndicesBy ia).
Proof.
  unfold sortIndices, std_sort, sortIndicesBy; cbn [nameIndexAsc nameIndexDesc cityIndexAsc cityIndexDesc].
  repeat split; try (symmetry; apply sort_by_perm); apply sort_by_sorted;
    first [exact keyLess_asym | exact keyLess_neg_trans | exact keyGreater_asym | exact keyGreater_neg_trans].
Qed.

(** ** The scans around a hit *)

Section Expand.
Variable ia : list Index.
Variable k : string.

Lemma expandLeft_spec start :
  0 <= start -> key (subscript ia start) = k ->
  let s := expandLeft ia k start in
  0 <= s <= start /\ (forall j, s <= j <= start -> key (subscript ia j) = k) /\
  (s = 0 \/ key (subscript ia (s - 1)) <> k).
Proof.
  intros Hs Hk. funelim (expandLeft ia k start); cbv zeta.
  - destruct (String.eqb_spec (key (subscript ia (start - 1))) k) as [E|E]; cbn [negb].
    + destruct (H (start - 1) ltac:(lia) E eq_refl eq_refl) as (H1 & H2 & H3).
      repeat split; try lia; auto.
      intros j Hj. destruct (Z.eq_dec j start) as [->|]; [exact Hk | apply H2; lia].
    + repeat split; try lia; auto. intros j Hj. replace j with start by lia. exact Hk.
  - repeat split; try lia. intros j Hj. replace j with start by lia. exact Hk.
Qed.

Lemma expandRight_spec fin :
  0 <= fin < size ia -> key (subscript ia fin) = k ->
  let e := expandRight ia k fin in
  fin <= e < size ia /\ (forall j, fin <= j <= e -> key (subscript ia j) = k) /\
  (e = size ia - 1 \/ key (subscript ia (e + 1)) <> k).
Proof.
  intros Hs Hk. funelim (expandRight ia k fin); cbv zeta.
  - destruct (String.eqb_spec (key (subscript ia (fin + 1))) k) as [E|E].
    + destruct (H (fin + 1) ltac:(lia) E eq_refl eq_refl) as (H1 & H2 & H3).
      repeat split; try lia; auto.
      intros j Hj. destruct (Z.eq_dec j fin) as [->|]; [exact Hk | apply H2; lia].
    + repeat split; try lia; auto. intros j Hj. replace j with fin by lia. exact Hk.
  - repeat split; try lia. intros j Hj. replace j with fin by lia. exact Hk.
Qed.
End Expand.

(** ** Searching a sorted array *)

Lemma In_subscript (ia : list Index) x :
  In x ia -> exists i, 0 <= i < size ia /\ subscript ia i = x.
Proof.
  intros Hin. apply In_nth with (d := mkIndex "" 0) in Hin as [n [Hn Hx]].
  exists (Z.of_nat n). unfold subscript, size. rewrite Nat2Z.id. split; [lia | exact Hx].
Qed.

Section Sorted.
Variable ia : list Index.
Variable k : string.
Hypothesis Hsorted : StronglySorted (not_after keyLess) ia.

(** What both searches return: the record numbers of the entries whose
    key is [k], in array order. *)
Definition expected : list Z :=
  map recordNumber (filter (fun x => String.eqb (key x) k) ia).

Lemma key_mono i j :
  0 <= i <= j -> j < size ia -> ~ klt (key (subscript ia j)) (key (subscript ia i)).
Proof.
  intros Hij Hj Hlt. destruct (Z.eq_dec i j) as [->|Hne]; [exact (klt_irrefl _ Hlt)|].
  apply key_lt_spec in Hlt. unfold size, subscript in *.
  assert (H := SSorted_nth _ ia (mkIndex "" 0) (Z.to_nat i) (Z.to_nat j) Hsorted ltac:(lia)).
  unfold not_after, keyLess in H. congruence.
Qed.

(** Between two entries with key [k], every key is [k]. *)
Lemma key_between i j l :
  0 <= i <= j -> j <= l < size ia -> key (subscript ia i) = k -> key (subscript ia l) = k ->
  key (subscript ia j) = k.
Proof.
  intros Hij Hjl Hi Hl. apply key_le_antisym.
  - rewrite <- Hi. apply key_mono; lia.
  - rewrite <- Hl. apply key_mono; lia.
Qed.

Lemma expected_none :
  (forall i, 0 <= i < size ia -> key (subscript ia i) <> k) -> expected = [].
Proof.
  intros H. unfold expected. rewrite filter_all_false; [reflexivity|].
  intros x Hx. apply In_subscript in Hx as [i [Hi <-]].
  destruct (String.eqb_spec (key (subscript ia i)) k); [exfalso; eapply H; eauto | reflexivity].
Qed.

(** If the entries with key [k] are exactly those from [s] to [e], the
    record numbers under [k] are the ones [collect] gathers. *)
Lemma expected_block s e :
  0 <= s <= e -> e < size ia ->
  (forall i, 0 <= i < size ia -> key (subscript ia i) = k <-> s <= i <= e) ->
  expected = collect ia s e.
Proof.
  intros Hse He Hblock. unfold expected, collect.
  rewrite (filter_nth_seq _ _ (mkIndex "" 0)).
  rewrite (filter_seq_interval _ (Z.to_nat s) (Z.to_nat e)).
  - rewrite map_map, seq_offset, map_map. unfold subscript.
    replace (Z.to_nat e - Z.to_nat s + 1)%nat with (Z.to_nat (e - s + 1)) by lia.
    apply map_ext. intros j. f_equal. f_equal. lia.
  - intros j Hj. unfold size, subscript in Hblock.
    specialize (Hblock (Z.of_nat j) ltac:(lia)). rewrite Nat2Z.id in Hblock.
    rewrite String.eqb_eq, Hblock. split; lia.
  - unfold size in He. lia.
Qed.

(** A hit at [mid] returns every record number under [k]. *)
Lemma foundRange_spec mid :
  0 <= mid < size ia -> key (subscript ia mid) = k -> foundRange ia k mid = expected.
Proof.
  intros Hm Hk. unfold foundRange.
  destruct (expandLeft_spec ia k mid ltac:(lia) Hk) as (Hs1 & Hs2 & Hs3).
  destruct (expandRight_spec ia k mid Hm Hk) as (He1 & He2 & He3).
  set (s := expandLeft ia k mid) in *. set (e := expandRight ia k mid) in *.
  symmetry. apply expected_block; [lia | lia |]. intros i Hi. split.
  - intros Hki. split.
    + destruct (Z_lt_le_dec i s) as [Hlt|]; [exfalso|assumption].
      destruct Hs3 as [|Hne]; [lia|]. apply Hne. apply (key_between i _ mid); auto; lia.
    + destruct (Z_le_gt_dec i e) as [|Hgt]; [assumption|exfalso].
      destruct He3 as [|Hne]; [lia|]. apply Hne. apply (key_between mid _ i); auto; lia.
  - intros Hse. destruct (Z_le_gt_dec i mid); [apply Hs2 | apply He2]; lia.
Qed.

(** The loop invariant: every entry with key [k] lies in the window. *)
Definition window (lft rgt : Z) : Prop :=
  forall i, 0 <= i < size ia -> key (subscript ia i) = k -> lft <= i <= rgt.

Lemma bsLoop_spec lft rgt :
  0 <= lft -> rgt < size ia -> window lft rgt -> bsLoop ia k lft rgt = expected.
Proof.
  intros Hl Hr Hw. funelim (bsLoop ia k lft rgt); cbv zeta.
  - pose proof (mid_bounds lft rgt Hle) as Hm. set (mid := lft + Z.quot (rgt - lft) 2) in *.
    destruct (String.eqb_spec (key (subscript ia mid)) k) as [E|E]; [apply foundRange_spec; auto; lia|].
    destruct (key_lt (key (subscript ia mid)) k) eqn:L.
    + apply key_lt_spec in L. eapply H; try reflexivity; try lia. intros i Hi Hki. specialize (Hw i Hi Hki).
      destruct (Z_le_gt_dec i mid); [exfalso|lia]. apply (key_mono i mid); [lia | lia |]. congruence.
    + eapply H0; try reflexivity; try lia. intros i Hi Hki. specialize (Hw i Hi Hki).
      destruct (Z_lt_le_dec i mid); [lia|exfalso]. apply (key_mono mid i); [lia | lia |].
      destruct (key_compare_spec (key (subscript ia mid)) k) as [|Hlt|Hgt]; [congruence| |congruence].
      apply key_lt_spec in Hlt. congruence.
  - symmetry. apply expected_none. intros i Hi Hki. specialize (Hw i Hi Hki). lia.
Qed.
End Sorted.

Lemma int_right (ia : list Index) :
  size ia < 2 ^ 31 -> int_of (size_t_of (size ia - 1)) = size ia - 1.
Proof.
  intros Hs. destruct (Z.eq_dec (size ia) 0) as [->|]; [reflexivity|].
  apply int_of_size_minus_one. unfold size in *. lia.
Qed.

(** (C15) On an index array sorted as [sortIndices] sorts the ascending
    arrays, with fewer than [2^31] entries (so that [size() - 1] and every
    index fit in an [int]), [binarySearchIterative] returns exactly the
    record numbers of the entries whose key equals the searched key, in
    array order, and nothing when the key is absent. *)
Theorem binarySearchIterative_correct (ia : list Index) (k : string) :
  StronglySorted (not_after keyLess) ia -> size ia < 2 ^ 31 ->
  binarySearchIterative ia k = map recordNumber (filter (fun x => String.eqb (key x) k) ia).
Proof.
  intros Hs Hn. unfold binarySearchIterative. rewrite int_right by exact Hn.
  apply bsLoop_spec; [exact Hs | lia | lia |]. intros i Hi _. lia.
Qed.

(** [binarySearchRecursive] computes what the loop of
    [binarySearchIterative] computes, on every window. *)
Lemma binarySearchRecursive_bsLoop (ia : list Index) (k : string) (lft rgt : Z) :
  binarySearchRecursive ia k lft rgt = bsLoop ia k lft rgt.
Proof.
  funelim (binarySearchRecursive ia k lft rgt); simp bsLoop;
    destruct (Z_le_gt_dec lft rgt); try lia; simp bsLoop; cbv zeta; [|reflexivity].
  destruct (String.eqb _ k); [reflexivity|].
  destruct (key_lt _ k); cbn [app]; [eapply H | eapply H0]; reflexivity.
Qed.

(** (C17) The recursive search as [main.cpp] calls it (from [0] to
    [size() - 1]) returns what [binarySearchIterative] returns, on every
    array, sorted or not: menu items 6 and 7 (and 8 and 9) always print
    the same. *)
Theorem searchRecursiveFromMain_iterative (ia : list Index) (k : string) :
  searchRecursiveFromMain ia k = binarySearchIterative ia k.
Proof. apply binarySearchRecursive_bsLoop. Qed.

(** ** From contacts to search results *)

Definition nameEntry (c : Contact) : Index := mkIndex (name c) (id c).
Definition cityEntry (c : Contact) : Index := mkIndex (city c) (id c).

Lemma buildIndices_spec (contacts : list Contact) :
  buildIndices contacts =
  mkIndexArray (map nameEntry contacts) (map nameEntry contacts)
               (map cityEntry contacts) (map cityEntry contacts).
Proof.
  unfold buildIndices.
  assert (H : forall acc, fold_left (fun ia c =>
    mkIndexArray (nameIndexAsc ia ++ [nameEntry c]) (nameIndexDesc ia ++ [nameEntry c])
                 (cityIndexAsc ia ++ [cityEntry c]) (cityIndexDesc ia ++ [cityEntry c])) contacts
    (mkIndexArray (map nameEntry acc) (map nameEntry acc) (map cityEntry acc) (map cityEntry acc)) =
    mkIndexArray (map nameEntry (acc ++ contacts)) (map nameEntry (acc ++ contacts))
                 (map cityEntry (acc ++ contacts)) (map cityEntry (acc ++ contacts))).
  { induction contacts as [|c cs IH]; intros acc.
    - rewrite app_nil_r. reflexivity.
    - cbn [fold_left nameIndexAsc nameIndexDesc cityIndexAsc cityIndexDesc].
      rewrite <- !map_last, IH, <- app_assoc. reflexivity. }
  apply (H []).
Qed.

(** A sorted arrangement of the entries [proj c, id c] of the contacts is
    searched for exactly the ids of the contacts whose [proj] is [k]. *)
Lemma search_entries (proj : Contact -> string) (contacts : list Contact) (v : list Index) k :
  Permutation (map (fun c => mkIndex (proj c) (id c)) contacts) v ->
  StronglySorted (not_after keyLess) v -> Z.of_nat (List.length contacts) < 2 ^ 31 ->
  Permutation (binarySearchIterative v k) (map id (filter (fun c => String.eqb (proj c) k) contacts)).
Proof.
  intros HP Hs Hn. unfold binarySearchIterative.
  assert (Hv : size v < 2 ^ 31) by (unfold size; rewrite <- (Permutation_length HP), length_map; exact Hn).
  rewrite int_right by exact Hv. rewrite bsLoop_spec by (try exact Hs; try lia; intros i Hi _; lia).
  unfold expected. rewrite <- HP, filter_map_swap, map_map. reflexivity.
Qed.

(** (C16) After [buildIndices] and any outcome of [sortIndices] (with
    fewer than [2^31] contacts), the iterative binary search of
    [nameIndexAsc] for [k] returns the ids of exactly the contacts named
    [k], and that of [cityIndexAsc] the ids of exactly the contacts in the
    city [k], each as often as it occurs (in the order [std::sort] left
    them). *)
Theorem search_contacts (contacts : list Contact) (ia : IndexArray) (k : string) :
  sortIndices (buildIndices contacts) ia -> Z.of_nat (List.length contacts) < 2 ^ 31 ->
  Permutation (binarySearchIterative (nameIndexAsc ia) k)
              (map id (filter (fun c => String.eqb (name c) k) contacts)) /\
  Permutation (binarySearchIterative (cityIndexAsc ia) k)
              (map id (filter (fun c => String.eqb (city c) k) contacts)).
Proof.
  rewrite buildIndices_spec. intros ((Pn & Sn) & _ & (Pc & Sc) & _) Hn.
  split; apply search_entries; assumption.
Qed.

(** ** Scenarios *)

Local Open Scope string_scope.

(** Four contacts, two of them named "Boris", sorted by insertion sort. *)
Definition demoIndices : IndexArray :=
  sortIndicesBy (buildIndices (demoContacts ++ [mkContact 4 "Boris" "4444444" "Omsk"])).

Lemma binarySearchIterative_correct_witness :
  StronglySorted (not_after keyLess) (nameIndexAsc demoIndices) /\ size (nameIndexAsc demoIndices) < 2 ^ 31 /\
  binarySearchIterative (nameIndexAsc demoIndices) "Boris" =
    map recordNumber (filter (fun x => String.eqb (key x) "Boris") (nameIndexAsc demoIndices)).
Proof.
  assert (Hs : StronglySorted (not_after keyLess) (nameIndexAsc demoIndices))
    by apply (sortIndicesBy_sorts (buildIndices (demoContacts ++ [mkContact 4 "Boris" "4444444" "Omsk"]))).
  assert (Hn : size (nameIndexAsc demoIndices) < 2 ^ 31) by (vm_compute; reflexivity).
  split; [exact Hs | split; [exact Hn | exact (binarySearchIterative_correct _ "Boris" Hs Hn)]].
Defined.

Lemma search_contacts_witness :
  sortIndices (buildIndices (demoContacts ++ [mkContact 4 "Boris" "4444444" "Omsk"])) demoIndices /\
  Permutation (binarySearchIterative (nameIndexAsc demoIndices) "Boris")
    (map id (filter (fun c => String.eqb (name c) "Boris") (demoContacts ++ [mkContact 4 "Boris" "4444444" "Omsk"]))) /\
  Permutation (binarySearchIterative (cityIndexAsc demoIndices) "Omsk")
    (map id (filter (fun c => String.eqb (city c) "Omsk") (demoContacts ++ [mkContact 4 "Boris" "4444444" "Omsk"]))).
Proof.
  assert (Hs := sortIndicesBy_sorts (buildIndices (demoContacts ++ [mkContact 4 "Boris" "4444444" "Omsk"]))).
  split; [exact Hs|]. split; apply (search_contacts _ _ _ Hs); vm_compute; reflexivity.
Defined.

(** Both searches find the two "Boris" entries, ids 2 and 4. *)
Example demo_search_values :
  binarySearchIterative (nameIndexAsc demoIndices) "Boris" = [2; 4] /\
  searchRecursiveFromMain (nameIndexAsc demoIndices) "Boris" = [2; 4] /\
  binarySearchIterative (cityIndexAsc demoIndices) "Omsk" = [3; 4] /\
  binarySearchIterative (nameIndexAsc demoIndices) "Petr" = [].
Proof. vm_compute. repeat split. Qed.
