(* ===== verification/SearchBound.v ===== *)
(** * How many times the loop of [binarySearchIterative] runs

    [IndexSearch.bsLoop] is defined by well-founded recursion, so it
    terminates, but its definition does not say after how many rounds.
    [bsLoopFuel] is the same [while (left <= right)] loop of
    [binarySearchIterative] ([src/contact.cpp]) run with a budget of
    rounds: it answers [None] when it would start a round with no budget
    left.  Each round at least halves the window [left..right], so a
    budget of [floor(log2 n) + 1] rounds is never exhausted on an array
    of [n] entries. *)

From Stdlib Require Import ZArith List Bool Lia String.
From Equations Require Import Equations.
From S2P Require Import Prelude KeyOrder Contact IndexSearch.
Import ListNotations.

(** The loop of [binarySearchIterative], one round per unit of [fuel]. *)
Fixpoint bsLoopFuel (fuel : nat) (ia : list Index) (k : string) (lft rgt : Z) : option (list Z) :=
  match Z_le_gt_dec lft rgt with
  | left _ =>
      match fuel with
      | O => None
      | S f =>
          let mid := lft + Z.quot (rgt - lft) 2 in
          if String.eqb (key (subscript ia mid)) k then Some (foundRange ia k mid)
          else if key_lt (key (subscript ia mid)) k then bsLoopFuel f ia k (mid + 1) rgt
          else bsLoopFuel f ia k lft (mid - 1)
      end
  | right _ => Some []
  end.

(** Both halves a round can continue with are at most half the window. *)
Lemma mid_halves (lft rgt : Z) :
  lft <= rgt ->
  2 * (lft + Z.quot (rgt - lft) 2 - lft) <= rgt - lft + 1 /\
  2 * (rgt - (lft + Z.quot (rgt - lft) 2)) <= rgt - lft + 1.
Proof.
  intros H. rewrite Z.quot_div_nonneg by lia.
  pose proof (Z.div_mod (rgt - lft) 2 ltac:(lia)). pose proof (Z.mod_pos_bound (rgt - lft) 2 ltac:(lia)).
  lia.
Qed.

Lemma pow2_succ (f : nat) : 2 ^ Z.of_nat (S f) = 2 * 2 ^ Z.of_nat f.
Proof. rewrite Nat2Z.inj_succ, Z.pow_succ_r by lia. lia. Qed.

(** An array one entry past the [int] range (never evaluated). *)
Definition overflowIndex : list Index := repeat (mkIndex "Anna" 1) (Z.to_nat (2 ^ 31 + 1)).

(** A budget [f] suffices for every window narrower than [2^f]. *)
Lemma bsLoopFuel_bsLoop (fuel : nat) (ia : list Index) (k : string) (lft rgt : Z) :
  rgt - lft + 1 < 2 ^ Z.of_nat fuel -> bsLoopFuel fuel ia k lft rgt = Some (bsLoop ia k lft rgt).
Proof.
  revert lft rgt. induction fuel as [|f IH]; intros lft rgt Hw; cbn [bsLoopFuel];
    simp bsLoop; destruct (Z_le_gt_dec lft rgt) as [Hle|Hgt]; simp bsLoop; try reflexivity.
  - cbn in Hw. lia.
  - cbv zeta. rewrite pow2_succ in Hw. pose proof (mid_halves lft rgt Hle).
    destruct (String.eqb _ k); [reflexivity|].
    destruct (key_lt _ k); apply IH; lia.
Qed.

(** (C18) The [while (left <= right)] loop of [binarySearchIterative]
    ends on every array of [n < 2^31] entries within [floor(log2 n) + 1]
    rounds (none for an empty array, where [right] is [-1]), with the
    result of [binarySearchIterative]. *)
Theorem binarySearchIterative_rounds (ia : list Index) (k : string) :
  size ia < 2 ^ 31 ->
  bsLoopFuel (Z.to_nat (Z.log2 (size ia)) + 1) ia k 0 (int_of (size_t_of (size ia - 1)))
    = Some (binarySearchIterative ia k) /\
  (size ia = 0 -> bsLoopFuel 0 ia k 0 (int_of (size_t_of (size ia - 1))) = Some []).
Proof.
  intros Hs. unfold binarySearchIterative. rewrite int_right by exact Hs. split.
  - apply bsLoopFuel_bsLoop. rewrite Nat2Z.inj_add, Z2Nat.id by apply Z.log2_nonneg.
    destruct (Z.eq_dec (size ia) 0) as [->|Hn]; [reflexivity|].
    assert (0 < size ia) by (unfold size in *; lia).
    pose proof (Z.log2_spec (size ia) ltac:(lia)) as [_ Hup].
    rewrite <- Z.add_1_r in Hup. lia.
  - intros ->. reflexivity.
Qed.

(** (C19) Past [2^31] entries [right = indexArray.size() - 1] wraps
    around to a negative [int]: on an array of [2^31 + 1] to [2^32]
    entries the loop runs no round (it needs no budget) and the search
    finds nothing, whatever the array holds. *)
Theorem binarySearchIterative_int_overflow (ia : list Index) (k : string) :
  2 ^ 31 < size ia <= 2 ^ 32 ->
  int_of (size_t_of (size ia - 1)) < 0 /\
  bsLoopFuel 0 ia k 0 (int_of (size_t_of (size ia - 1))) = Some [] /\
  binarySearchIterative ia k = [].
Proof.
  intros Hs. assert (Hr : int_of (size_t_of (size ia - 1)) = size ia - 1 - 2 ^ 32).
  { unfold int_of, size_t_of. rewrite (Z.mod_small (size ia - 1)) by lia.
    rewrite (Z.mod_small (size ia - 1)) by lia. destruct (Z.ltb_spec (size ia - 1) (2 ^ 31)); lia. }
  rewrite Hr. split; [lia|]. cbn [bsLoopFuel]. unfold binarySearchIterative. rewrite Hr. simp bsLoop.
  destruct (Z_le_gt_dec 0 (size ia - 1 - 2 ^ 32)); [lia|]. simp bsLoop. split; reflexivity.
Qed.

(** ** Witnesses *)

Lemma binarySearchIterative_rounds_witness :
  size (nameIndexAsc demoIndices) < 2 ^ 31 /\
  bsLoopFuel (Z.to_nat (Z.log2 (size (nameIndexAsc demoIndices))) + 1) (nameIndexAsc demoIndices) "Boris" 0
    (int_of (size_t_of (size (nameIndexAsc demoIndices) - 1)))
    = Some (binarySearchIterative (nameIndexAsc demoIndices) "Boris") /\
  binarySearchIterative (nameIndexAsc demoIndices) "Boris" = [2; 4].
Proof.
  assert (Hn : size (nameIndexAsc demoIndices) < 2 ^ 31) by (vm_compute; reflexivity).
  split; [exact Hn | split; [exact (proj1 (binarySearchIterative_rounds _ "Boris" Hn)) | vm_compute; reflexivity]].
Defined.

Lemma binarySearchIterative_int_overflow_witness :
  2 ^ 31 < size overflowIndex <= 2 ^ 32 /\ binarySearchIterative overflowIndex "Anna" = [].
Proof.
  assert (Hn : 2 ^ 31 < size overflowIndex <= 2 ^ 32).
  { unfold size, overflowIndex. rewrite repeat_length, Z2Nat.id by lia. lia. }
  split; [exact Hn | exact (proj2 (proj2 (binarySearchIterative_int_overflow _ "Anna" Hn)))].
Defined.
