(* ===== verification/LinkedList.v ===== *)
(** * The sorted singly-linked list of [src/linked_list.cpp]

    The chain of [std::unique_ptr<ListNode>] from [head] is a [list
    Contact]: each node owns the next one exclusively, so the chain is a
    finite list and moving it is moving the list.  The three [enum class]es
    are inductive types in modules of their own names, so that
    [PrimarySortAttribute.NAME] reads as the C++ does; the class and its
    methods sit in [Module LinkedList] ([LinkedList.insert] is
    [LinkedList::insert]), exported so that clients use short names.

    - [compare] is [LinkedList::compare] branch by branch;
    - [insert] is [LinkedList::insert]: the head case, then the walk
      [while(current->next && !compare(contact, current->next->contact))]
      as the fixpoint [insertAfter];
    - [search] returns the contacts it prints; [remove] unlinks the first
      match and reports which message it printed;
    - [changeSortAttributes] empties the list and inserts the old contents
      again under the new attributes.

    Theorems: [insert] is the reference sorted insertion [insert_sorted]
    with [compare] as the order, and never loses or duplicates a contact;
    [compare] is a strict weak order exactly when the secondary attribute
    and order repeat the primary ones ([coherent]); under such a
    configuration [insert] and [changeSortAttributes] keep the list
    sorted; otherwise, and in particular in the configuration [main.cpp]
    starts with, any two contacts whose names and cities are in opposite
    orders are inserted out of name order ([main_list_unsorted]).  [remove] unlinks exactly the first match. *)

From Stdlib Require Import ZArith List Bool Lia String Sorting.Sorted Sorting.Permutation.
From S2P Require Import Prelude KeyOrder Contact.
Import ListNotations.

Module PrimarySortAttribute.
Inductive t : Type := NAME | CITY.
End PrimarySortAttribute.

Module SecondarySortAttribute.
Inductive t : Type := NAME | CITY.
End SecondarySortAttribute.

Module SortOrder.
Inductive t : Type := ASCENDING | DESCENDING.
End SortOrder.

Module LinkedList.

(** [class LinkedList]: the chain from [head] and the four attributes. *)
Record LinkedList : Type := mkLinkedList {
  head : list Contact;
  primaryAttribute : PrimarySortAttribute.t;
  secondaryAttribute : SecondarySortAttribute.t;
  primaryOrder : SortOrder.t;
  secondaryOrder : SortOrder.t
}.

(** The constructor: an empty chain. *)
Definition newLinkedList (primaryAttr : PrimarySortAttribute.t)
    (secondaryAttr : SecondarySortAttribute.t) (primaryOrd secondaryOrd : SortOrder.t) : LinkedList :=
  mkLinkedList [] primaryAttr secondaryAttr primaryOrd secondaryOrd.

(** The move constructor and move assignment: the target takes the chain
    ([std::move] of the [unique_ptr] head) and copies the four attributes;
    the source keeps its attributes and is left with an empty chain.
    (Self-assignment, excluded by [this != &other], is a no-op.) *)
Definition move (other : LinkedList) : LinkedList * LinkedList :=
  (mkLinkedList (head other) (primaryAttribute other) (secondaryAttribute other)
                (primaryOrder other) (secondaryOrder other),
   mkLinkedList [] (primaryAttribute other) (secondaryAttribute other)
                (primaryOrder other) (secondaryOrder other)).

(** [a.x < b.x] or [a.x > b.x] by the order. *)
Definition ordered (ord : SortOrder.t) (x y : string) : bool :=
  match ord with
  | SortOrder.ASCENDING => key_lt x y
  | SortOrder.DESCENDING => key_gt x y
  end.

(** [LinkedList::compare]: the primary comparison, and when it is false
    the secondary comparison (the final [return false] is unreachable). *)
Definition compare (ll : LinkedList) (a b : Contact) : bool :=
  let primaryComparison :=
    match primaryAttribute ll with
    | PrimarySortAttribute.NAME => ordered (primaryOrder ll) (name a) (name b)
    | PrimarySortAttribute.CITY => ordered (primaryOrder ll) (city a) (city b)
    end in
  if primaryComparison then true
  else match secondaryAttribute ll with
       | SecondarySortAttribute.NAME => ordered (secondaryOrder ll) (name a) (name b)
       | SecondarySortAttribute.CITY => ordered (secondaryOrder ll) (city a) (city b)
       end.

(** The walk of [LinkedList::insert] from [current]: [next] is the chain
    after [current]; the new node goes before the first [next] node that
    the contact compares less than, or at the end. *)
Fixpoint insertAfter (ll : LinkedList) (contact : Contact) (next : list Contact) : list Contact :=
  match next with
  | [] => [contact]
  | n :: rest =>
      if negb (compare ll contact n) then n :: insertAfter ll contact rest
      else contact :: n :: rest
  end.

(** [LinkedList::insert]. *)
Definition insert (ll : LinkedList) (contact : Contact) : LinkedList :=
  let head' :=
    match head ll with
    | [] => [contact]
    | h :: rest => if compare ll contact h then contact :: h :: rest
                   else h :: insertAfter ll contact rest
    end in
  mkLinkedList head' (primaryAttribute ll) (secondaryAttribute ll) (primaryOrder ll) (secondaryOrder ll).

(** The test of [search] and [remove]: the primary attribute equals [key]. *)
Definition matches (ll : LinkedList) (key : string) (c : Contact) : bool :=
  match primaryAttribute ll with
  | PrimarySortAttribute.NAME => String.eqb (name c) key
  | PrimarySortAttribute.CITY => String.eqb (city c) key
  end.

(** [LinkedList::search]: the contacts it prints, in list order (none:
    the "not found" message). *)
Definition search (ll : LinkedList) (key : string) : list Contact :=
  filter (matches ll key) (head ll).

(** The three messages [LinkedList::remove] ends with. *)
Inductive RemoveOutcome : Type := ListEmpty | Removed | NotFound.

(** The loop of [remove] after the head: unlink the first [next] node
    that matches. *)
Fixpoint removeAfter (ll : LinkedList) (key : string) (next : list Contact) : option (list Contact) :=
  match next with
  | [] => None
  | n :: rest =>
      if matches ll key n then Some rest
      else option_map (cons n) (removeAfter ll key rest)
  end.

Definition setHead (ll : LinkedList) (h : list Contact) : LinkedList :=
  mkLinkedList h (primaryAttribute ll) (secondaryAttribute ll) (primaryOrder ll) (secondaryOrder ll).

(** [LinkedList::remove]. *)
Definition remove (ll : LinkedList) (key : string) : LinkedList * RemoveOutcome :=
  match head ll with
  | [] => (ll, ListEmpty)
  | h :: rest =>
      if matches ll key h then (setHead ll rest, Removed)
      else match removeAfter ll key rest with
           | Some rest' => (setHead ll (h :: rest'), Removed)
           | None => (ll, NotFound)
           end
  end.

(** [LinkedList::changeSortAttributes]: set the attributes, copy the
    chain into [contactList], reset [head], insert the copy again. *)
Definition changeSortAttributes (ll : LinkedList) (primaryAttr : PrimarySortAttribute.t)
    (secondaryAttr : SecondarySortAttribute.t) (primaryOrd secondaryOrd : SortOrder.t) : LinkedList :=
  let contactList := head ll in
  fold_left insert contactList (newLinkedList primaryAttr secondaryAttr primaryOrd secondaryOrd).

(** The configurations under which [compare] compares one attribute in
    one order. *)
Definition coherent (ll : LinkedList) : bool :=
  match primaryAttribute ll, secondaryAttribute ll, primaryOrder ll, secondaryOrder ll with
  | PrimarySortAttribute.NAME, SecondarySortAttribute.NAME, SortOrder.ASCENDING, SortOrder.ASCENDING
  | PrimarySortAttribute.NAME, SecondarySortAttribute.NAME, SortOrder.DESCENDING, SortOrder.DESCENDING
  | PrimarySortAttribute.CITY, SecondarySortAttribute.CITY, SortOrder.ASCENDING, SortOrder.ASCENDING
  | PrimarySortAttribute.CITY, SecondarySortAttribute.CITY, SortOrder.DESCENDING, SortOrder.DESCENDING => true
  | _, _, _, _ => false
  end.

End LinkedList.
Export LinkedList.

(** ** Insertion *)

Lemma insertAfter_insert_sorted ll contact next :
  insertAfter ll contact next = insert_sorted (compare ll) contact next.
Proof.
  induction next as [|n rest IH]; [reflexivity|]. cbn [insertAfter insert_sorted].
  destruct (compare ll contact n); cbn [negb]; [reflexivity|]. now rewrite IH.
Qed.

Lemma insert_head ll contact : head (insert ll contact) = insert_sorted (compare ll) contact (head ll).
Proof.
  unfold insert; cbn [LinkedList.head]. destruct (head ll) as [|h rest]; [reflexivity|].
  cbn [insert_sorted]. destruct (compare ll contact h); [reflexivity|].
  now rewrite insertAfter_insert_sorted.
Qed.

(** (C25) [LinkedList::insert] is sorted insertion with [compare] as the
    order (the new contact goes before the first node it compares less
    than), keeps the four attributes, and the new chain is the old one
    with the contact added: nothing lost, nothing duplicated. *)
Theorem insert_spec (ll : LinkedList) (contact : Contact) :
  head (insert ll contact) = insert_sorted (compare ll) contact (head ll) /\
  Permutation (head (insert ll contact)) (contact :: head ll) /\
  setHead ll (head (insert ll contact)) = insert ll contact.
Proof.
  split; [apply insert_head|]. split; [rewrite insert_head; apply insert_sorted_perm | reflexivity].
Qed.

(** ** When [compare] is an order *)

(** The primary attribute of a contact. *)
Definition primaryKey (ll : LinkedList) (c : Contact) : string :=
  match primaryAttribute ll with
  | PrimarySortAttribute.NAME => name c
  | PrimarySortAttribute.CITY => city c
  end.

Lemma compare_coherent ll a b :
  coherent ll = true -> compare ll a b = ordered (primaryOrder ll) (primaryKey ll a) (primaryKey ll b).
Proof.
  destruct ll as [h [] [] [] []]; unfold coherent, compare, primaryKey; cbn;
    try discriminate; intros _; case_if; reflexivity.
Qed.

Lemma ordered_asym o x y : ordered o x y = true -> ordered o y x = false.
Proof.
  destruct o; cbn; [rewrite key_lt_spec | rewrite key_gt_spec]; intros H;
    [destruct (key_lt y x) eqn:E | destruct (key_gt y x) eqn:E]; try reflexivity;
    [apply key_lt_spec in E | apply key_gt_spec in E]; exfalso; exact (klt_asym _ _ H E).
Qed.

Lemma ordered_neg_trans o x y z : ordered o x z = true -> ordered o x y = true \/ ordered o y z = true.
Proof.
  destruct o; cbn; [rewrite !key_lt_spec | rewrite !key_gt_spec]; intros H.
  - destruct (key_compare_spec x y) as [->| |Hyx]; auto. right. eapply klt_trans; eassumption.
  - destruct (key_compare_spec y z) as [->| |Hzy]; auto. left. eapply klt_trans; eassumption.
Qed.

Lemma compare_asym_of_coherent ll a b :
  coherent ll = true -> compare ll a b = true -> compare ll b a = false.
Proof. intros Hc. rewrite !(compare_coherent ll) by exact Hc. apply ordered_asym. Qed.

Lemma compare_neg_trans_of_coherent ll a b c :
  coherent ll = true -> compare ll a c = true -> compare ll a b = true \/ compare ll b c = true.
Proof. intros Hc. rewrite !(compare_coherent ll) by exact Hc. apply ordered_neg_trans. Qed.

Definition cAB : Contact := mkContact 1 "A" "1111111" "B".
Definition cBA : Contact := mkContact 2 "B" "2222222" "A".
Definition cAA : Contact := mkContact 3 "A" "3333333" "A".
Definition cBB : Contact := mkContact 4 "B" "4444444" "B".

(** (C26) [compare] is a strict weak order (asymmetric, with a transitive
    complement: what sorted insertion needs) exactly in the four
    [coherent] configurations, where the secondary attribute and order
    repeat the primary ones.  In the twelve others there are two contacts
    each of which [compare] puts before the other. *)
Theorem compare_strict_weak_iff (ll : LinkedList) :
  coherent ll = true <->
  (forall a b, compare ll a b = true -> compare ll b a = false) /\
  (forall a b c, compare ll a c = true -> compare ll a b = true \/ compare ll b c = true).
Proof.
  split.
  - intros Hc. split; [intros a b | intros a b c];
      [apply compare_asym_of_coherent | apply compare_neg_trans_of_coherent]; exact Hc.
  - intros [Hasym _]. destruct ll as [h [] [] [] []]; try reflexivity; exfalso;
      first [ pose proof (Hasym cAB cBA eq_refl) as X; vm_compute in X; discriminate X
            | pose proof (Hasym cBA cAB eq_refl) as X; vm_compute in X; discriminate X
            | pose proof (Hasym cAA cBB eq_refl) as X; vm_compute in X; discriminate X
            | pose proof (Hasym cBB cAA eq_refl) as X; vm_compute in X; discriminate X ].
Qed.

(** ** Sortedness *)

(** A chain is sorted for [ll] when no node compares less than one
    before it. *)
Definition sorted (ll : LinkedList) : Prop := StronglySorted (not_after (compare ll)) (head ll).

Lemma insert_sorted_coherent ll contact :
  coherent ll = true -> sorted ll -> sorted (insert ll contact).
Proof.
  intros Hc Hs. unfold sorted. rewrite insert_head.
  apply insert_sorted_sorted; [intros a b | intros a b c | exact Hs];
    [apply compare_asym_of_coherent | apply compare_neg_trans_of_coherent]; exact Hc.
Qed.

(** Inserting a sequence of contacts is [sort_by]'s insertion loop. *)
Lemma fold_insert (l : list Contact) (acc : LinkedList) :
  fold_left insert l acc =
  setHead acc (fold_left (fun h c => insert_sorted (compare acc) c h) l (head acc)).
Proof.
  revert acc. induction l as [|c l IH]; intros acc; [destruct acc; reflexivity|].
  cbn [fold_left]. rewrite IH, insert_head. reflexivity.
Qed.

(** (C27) Changing to a [coherent] configuration re-sorts the list: the
    new chain holds the same contacts and is sorted for the new
    attributes. *)
Theorem changeSortAttributes_sorted (ll : LinkedList) pa sa po so :
  coherent (newLinkedList pa sa po so) = true ->
  Permutation (head (changeSortAttributes ll pa sa po so)) (head ll) /\
  sorted (changeSortAttributes ll pa sa po so).
Proof.
  intros Hc. unfold changeSortAttributes, sorted. rewrite fold_insert. cbn [head setHead].
  change (fold_left _ (LinkedList.head ll) []) with (sort_by (compare (newLinkedList pa sa po so)) (head ll)).
  split; [apply sort_by_perm|]. apply sort_by_sorted; [intros a b | intros a b c];
    [apply compare_asym_of_coherent | apply compare_neg_trans_of_coherent]; exact Hc.
Qed.

(** The configuration [main.cpp] starts with: name then city, both
    ascending. *)
Definition mainList : LinkedList :=
  newLinkedList PrimarySortAttribute.NAME SecondarySortAttribute.CITY SortOrder.ASCENDING SortOrder.ASCENDING.

(** (C35) In [main.cpp]'s configuration the list is not sorted by name:
    for any two contacts [a], [b] with [name a < name b] and
    [city b < city a], [compare] puts each before the other, and
    inserting [a] and then [b] into the empty list puts [b] first,
    because [compare] falls back to the city whenever the name comparison
    is false, not only when the names are equal. *)
Theorem main_list_unsorted (a b : Contact) :
  key_lt (name a) (name b) = true -> key_lt (city b) (city a) = true ->
  map name (head (fold_left insert [a; b] mainList)) = [name b; name a] /\
  compare mainList a b = true /\ compare mainList b a = true.
Proof.
  intros Hn Hc. assert (Hn' : key_lt (name b) (name a) = false).
  { apply not_true_is_false. rewrite key_lt_spec in *. exact (klt_asym _ _ Hn). }
  cbn [fold_left]. unfold insert, compare.
  cbn [mainList newLinkedList head primaryAttribute secondaryAttribute primaryOrder secondaryOrder ordered].
  rewrite Hn, Hn', Hc. repeat split; reflexivity.
Qed.

Module testLinkedList.

(** The five contacts of [testLinkedList] in [test.cpp], inserted into a
    list sorted by name ascending, then city descending. *)
Definition testContacts : list Contact :=
  [mkContact 1 "Борис" "1111111111" "Москва";
   mkContact 2 "Алексей" "2222222222" "Санкт-Петербург";
   mkContact 3 "Виктория" "3333333333" "Новосибирск";
   mkContact 4 "Галина" "4444444444" "Екатеринбург";
   mkContact 5 "Дмитрий" "5555555555" "Нижний Новгород"].

Definition testList : LinkedList :=
  fold_left insert testContacts
    (newLinkedList PrimarySortAttribute.NAME SecondarySortAttribute.CITY SortOrder.ASCENDING SortOrder.DESCENDING).
End testLinkedList.
Export testLinkedList.

(** [testLinkedList] of [test.cpp]: the list it prints as sorted by
    name is Алексей, Виктория, Дмитрий, Борис, Галина; removing "Галина"
    succeeds and removing "Петр" reports not found; after
    [changeSortAttributes] to city descending, name ascending, the cities
    come out as Санкт-Петербург, Москва, Новосибирск, Нижний Новгород,
    again not in the requested order. *)
Theorem testLinkedList_scenario :
  map id (head testList) = [2; 3; 5; 1; 4] /\
  map id (search testList "Алексей") = [2] /\ search testList "Петр" = [] /\
  snd (remove testList "Галина") = Removed /\
  snd (remove (fst (remove testList "Галина")) "Петр") = NotFound /\
  map id (head (changeSortAttributes (fst (remove (fst (remove testList "Галина")) "Петр"))
    PrimarySortAttribute.CITY SecondarySortAttribute.NAME SortOrder.DESCENDING SortOrder.ASCENDING)) =
    [2; 1; 3; 5].
Proof. vm_compute. repeat split. Qed.

(** ** Removal *)

Lemma removeAfter_spec ll key l :
  match removeAfter ll key l with
  | Some l' => exists pre x post, l = pre ++ x :: post /\
      Forall (fun y => matches ll key y = false) pre /\ matches ll key x = true /\ l' = pre ++ post
  | None => Forall (fun y => matches ll key y = false) l
  end.
Proof.
  induction l as [|n rest IH]; cbn [removeAfter]; [constructor|].
  destruct (matches ll key n) eqn:Em.
  - exists [], n, rest. auto.
  - destruct (removeAfter ll key rest) as [l'|]; cbn [option_map].
    + destruct IH as (pre & x & post & -> & Hpre & Hx & ->).
      exists (n :: pre), x, post. repeat split; auto.
    + constructor; assumption.
Qed.

(** (C28) [LinkedList::remove] unlinks exactly the first contact whose
    primary attribute equals the key and reports success; when none
    matches it leaves the list unchanged and reports "not found", and on
    an empty list "list empty". *)
Theorem remove_spec (ll : LinkedList) (key : string) :
  match remove ll key with
  | (ll', Removed) => exists pre x post, head ll = pre ++ x :: post /\
      Forall (fun y => matches ll key y = false) pre /\ matches ll key x = true /\
      ll' = setHead ll (pre ++ post)
  | (ll', NotFound) => ll' = ll /\ head ll <> [] /\ Forall (fun y => matches ll key y = false) (head ll)
  | (ll', ListEmpty) => ll' = ll /\ head ll = []
  end.
Proof.
  unfold remove. destruct (head ll) as [|h rest] eqn:Eh; [auto|].
  destruct (matches ll key h) eqn:Em; [exists [], h, rest; auto|].
  pose proof (removeAfter_spec ll key rest) as Hr.
  destruct (removeAfter ll key rest) as [l'|].
  - destruct Hr as (pre & x & post & -> & Hpre & Hx & ->).
    exists (h :: pre), x, post. repeat split; auto.
  - repeat split; [discriminate | constructor; assumption].
Qed.

Lemma changeSortAttributes_sorted_witness :
  coherent (newLinkedList PrimarySortAttribute.CITY SecondarySortAttribute.CITY
              SortOrder.DESCENDING SortOrder.DESCENDING) = true /\
  Permutation (head (changeSortAttributes testList PrimarySortAttribute.CITY SecondarySortAttribute.CITY
                       SortOrder.DESCENDING SortOrder.DESCENDING)) (head testList) /\
  sorted (changeSortAttributes testList PrimarySortAttribute.CITY SecondarySortAttribute.CITY
            SortOrder.DESCENDING SortOrder.DESCENDING).
Proof.
  split; [reflexivity|]. apply changeSortAttributes_sorted. reflexivity.
Defined.

Lemma main_list_unsorted_witness :
  key_lt (name cAB) (name cBA) = true /\ key_lt (city cBA) (city cAB) = true /\
  map name (head (fold_left insert [cAB; cBA] mainList)) = ["B"%string; "A"%string].
Proof.
  assert (H1 : key_lt (name cAB) (name cBA) = true) by (vm_compute; reflexivity).
  assert (H2 : key_lt (city cBA) (city cAB) = true) by (vm_compute; reflexivity).
  split; [exact H1 | split; [exact H2 | exact (proj1 (main_list_unsorted cAB cBA H1 H2))]].
Defined.
