(* ===== verification/Persistence.v ===== *)
(** * CSV persistence: [saveContactsToFile], [loadContactsFromFile] and
      [LinkedList::saveToFile], [LinkedList::loadFromFile]

    A file is its content, a [string]; opening it for reading may fail
    ([None]).  Writing is [formatContact] per contact: [operator<<] on the
    [int] id ([showZ]: a minus sign for negative values, no leading zero),
    then the three fields, separated by commas, ended by a newline.

    Reading goes through the library calls the code makes, each modelled
    from its specification:
    - [getlines] is the loop [while(std::getline(inFile, line))]: lines
      end at a newline; a last line without one is still read; the empty
      rest after a final newline is not a line;
    - [find] is [std::string::find(char, pos)], returning [npos = 2^64-1]
      when there is no match, with positions as [size_t] (so [npos + 1]
      wraps to 0); [substr] is [std::string::substr];
    - [stoi] is [std::stoi]: leading white space, an optional sign, the
      longest run of digits; [invalid_argument] without digits and
      [out_of_range] outside [int]; the exception escapes the loading
      function ([Throw]).

    [parseLine] is the body of both loading loops; [loadContactsFromFile]
    clears the vector first, [LinkedList::loadFromFile] does not; both
    raise [global_id_counter] past every id they read.

    Theorems: [parseLine] reads back what [formatContact] wrote when the
    name and phone number hold no comma or newline, the city no newline,
    and the id is an [int] (so loading a saved vector gives it back, with
    the counter past its largest id); every contact whose name holds a
    comma, which [validateName] accepts, is read back as another contact
    with the name cut at the comma ([comma_name_corrupted]);
    [LinkedList::loadFromFile] of the list's own file doubles every
    contact; it ends in an exception exactly when some line after lines
    that parsed makes [parseLine] throw, and the list keeps what those
    lines inserted ([load_errors]).  The counter is an [int] in the C++: a load ends with it at
    most [INT_MAX + 1], past [INT_MAX] (a signed overflow) exactly when a
    contact of id [INT_MAX] was loaded. *)

From Stdlib Require Import ZArith List Bool Lia String Ascii Sorting.Permutation.
From S2P Require Import Prelude KeyOrder Contact LinkedList.
Import ListNotations.

(** Exceptions of the standard library the loading code can raise. *)
Inductive Exn : Type := invalid_argument | out_of_range.

(** A computation that returns or throws. *)
Inductive result (A : Type) : Type :=
| Ok (a : A)
| Throw (e : Exn).
Arguments Ok {A} a.
Arguments Throw {A} e.

(** ** Printing *)

Definition digitChar (d : Z) : ascii := ascii_of_nat (48 + Z.to_nat d).

(** The decimal digits of [n >= 0], prepended to [acc]; [fuel] bounds the
    number of digits ([showNat] gives one per bit, more than enough). *)
Fixpoint showDigits (fuel : nat) (n : Z) (acc : string) : string :=
  match fuel with
  | O => acc
  | S f =>
      let acc' := String (digitChar (n mod 10)) acc in
      if n <? 10 then acc' else showDigits f (n / 10) acc'
  end.

Definition showNat (n : Z) : string := showDigits (S (Z.to_nat (Z.log2 n))) n EmptyString.

(** [operator<<(std::ostream&, int)]. *)
Definition showZ (z : Z) : string :=
  if z <? 0 then String "-" (showNat (- z)) else showNat z.

Definition comma : string := String "," EmptyString.
Definition newline : string := String (ascii_of_nat 10) EmptyString.

(** One line of both [saveContactsToFile] and [LinkedList::saveToFile]:
    [id << "," << name << "," << phoneNumber << "," << city << "\n"]. *)
Definition formatLine (c : Contact) : string :=
  (showZ (id c) ++ comma ++ name c ++ comma ++ phoneNumber c ++ comma ++ city c)%string.

Definition formatContact (c : Contact) : string := (formatLine c ++ newline)%string.

(** [saveContactsToFile]: the content of the file it writes. *)
Definition saveContactsToFile (contacts : list Contact) : string :=
  fold_right (fun c s => (formatContact c ++ s)%string) EmptyString contacts.

(** [LinkedList::saveToFile]: the chain from [head], in order. *)
Definition saveToFile (ll : LinkedList) : string := saveContactsToFile (head ll).

(** ** Reading *)

(** [std::getline] until it fails: [cur] is the line read so far. *)
Fixpoint getlinesFrom (cur : string) (s : string) : list string :=
  match s with
  | EmptyString => match cur with EmptyString => [] | _ => [cur] end
  | String c rest =>
      if Ascii.eqb c (ascii_of_nat 10) then cur :: getlinesFrom EmptyString rest
      else getlinesFrom (cur ++ String c EmptyString)%string rest
  end.

Definition getlines (s : string) : list string := getlinesFrom EmptyString s.

Definition npos : Z := 2 ^ 64 - 1.

(** The first index [>= i] of [c] in [s], counting [s] from [i]. *)
Fixpoint findFrom (c : ascii) (s : string) (i : nat) : option nat :=
  match s with
  | EmptyString => None
  | String d rest => if Ascii.eqb c d then Some i else findFrom c rest (S i)
  end.

(** [s.find(c, pos)]. *)
Definition find (s : string) (c : ascii) (pos : Z) : Z :=
  if Z.of_nat (String.length s) <=? pos then npos
  else match findFrom c (substring (Z.to_nat pos) (String.length s) s) (Z.to_nat pos) with
       | Some i => Z.of_nat i
       | None => npos
       end.

(** [s.substr(pos, n)] for [pos <= s.size()] (every call below). *)
Definition substr (s : string) (pos n : Z) : string := substring (Z.to_nat pos) (Z.to_nat n) s.

(** [s.substr(pos)]: to the end. *)
Definition substrFrom (s : string) (pos : Z) : string :=
  substring (Z.to_nat pos) (String.length s - Z.to_nat pos) s.

(** [std::isspace] in the C locale. *)
Definition isspace (c : ascii) : bool :=
  let n := N_of_ascii c in (n =? 32)%N || ((9 <=? n)%N && (n <=? 13)%N).

Fixpoint skipSpaces (s : string) : string :=
  match s with
  | String c rest => if isspace c then skipSpaces rest else s
  | EmptyString => EmptyString
  end.

Fixpoint digitPrefix (s : string) : list Z :=
  match s with
  | String c rest => if isdigit c then (Z.of_N (N_of_ascii c) - 48) :: digitPrefix rest else []
  | EmptyString => []
  end.

Definition digitsValue (ds : list Z) : Z := fold_left (fun acc d => acc * 10 + d) ds 0.

(** The optional sign. *)
Definition splitSign (s : string) : bool * string :=
  match s with
  | String c rest => if Ascii.eqb c "-" then (true, rest)
                     else if Ascii.eqb c "+" then (false, rest) else (false, s)
  | EmptyString => (false, s)
  end.

(** [std::stoi(s)] (base 10). *)
Definition stoi (s : string) : result Z :=
  let '(neg, s) := splitSign (skipSpaces s) in
  match digitPrefix s with
  | [] => Throw invalid_argument
  | ds => let v := if neg then - digitsValue ds else digitsValue ds in
          if (v <? - 2 ^ 31) || (2 ^ 31 - 1 <? v) then Throw out_of_range else Ok v
  end.

(** The body of both loading loops for one line: [None] for a line with
    fewer than three commas ([continue]), the contact otherwise. *)
Definition parseLine (line : string) : result (option Contact) :=
  let pos1 := find line "," 0 in
  let pos2 := find line "," (size_t_of (pos1 + 1)) in
  let pos3 := find line "," (size_t_of (pos2 + 1)) in
  if (pos1 =? npos) || (pos2 =? npos) || (pos3 =? npos) then Ok None
  else match stoi (substr line 0 pos1) with
       | Throw e => Throw e
       | Ok i => Ok (Some (mkContact i (substr line (pos1 + 1) (pos2 - pos1 - 1))
                                       (substr line (pos2 + 1) (pos3 - pos2 - 1))
                                       (substrFrom line (pos3 + 1))))
       end.

(** [if(contact.id >= global_id_counter) global_id_counter = contact.id + 1;] *)
Definition bumpCounter (global_id_counter : Z) (c : Contact) : Z :=
  if id c >=? global_id_counter then id c + 1 else global_id_counter.

(** The loop of [loadContactsFromFile] over the lines, appending to
    [contacts]; the state when an exception escapes is returned with it. *)
Fixpoint loadLines (lines : list string) (contacts : list Contact) (global_id_counter : Z)
    : list Contact * Z * option Exn :=
  match lines with
  | [] => (contacts, global_id_counter, None)
  | line :: rest =>
      match parseLine line with
      | Throw e => (contacts, global_id_counter, Some e)
      | Ok None => loadLines rest contacts global_id_counter
      | Ok (Some c) => loadLines rest (contacts ++ [c]) (bumpCounter global_id_counter c)
      end
  end.

(** [loadContactsFromFile]: nothing changes if the file cannot be opened;
    otherwise the vector is cleared and the lines are loaded. *)
Definition loadContactsFromFile (file : option string) (contacts : list Contact)
    (global_id_counter : Z) : list Contact * Z * option Exn :=
  match file with
  | None => (contacts, global_id_counter, None)
  | Some content => loadLines (getlines content) [] global_id_counter
  end.

(** The loop of [LinkedList::loadFromFile]: each contact is inserted into
    the list as it is. *)
Fixpoint loadListLines (lines : list string) (ll : LinkedList) (global_id_counter : Z)
    : LinkedList * Z * option Exn :=
  match lines with
  | [] => (ll, global_id_counter, None)
  | line :: rest =>
      match parseLine line with
      | Throw e => (ll, global_id_counter, Some e)
      | Ok None => loadListLines rest ll global_id_counter
      | Ok (Some c) => loadListLines rest (insert ll c) (bumpCounter global_id_counter c)
      end
  end.

(** [LinkedList::loadFromFile]: the list is not cleared. *)
Definition loadFromFile (file : option string) (ll : LinkedList) (global_id_counter : Z)
    : LinkedList * Z * option Exn :=
  match file with
  | None => (ll, global_id_counter, None)
  | Some content => loadListLines (getlines content) ll global_id_counter
  end.

(** ** Printing then reading a number *)

Definition digitsValueFrom (a : Z) (ds : list Z) : Z := fold_left (fun acc d => acc * 10 + d) ds a.

Lemma digitPrefix_digitChar d s :
  0 <= d <= 9 -> digitPrefix (String (digitChar d) s) = d :: digitPrefix s.
Proof.
  intros Hd. unfold digitChar.
  assert (Hn : N_of_ascii (ascii_of_nat (48 + Z.to_nat d)) = N.of_nat (48 + Z.to_nat d)).
  { unfold ascii_of_nat. apply N_ascii_embedding. lia. }
  cbn [digitPrefix]. unfold isdigit. rewrite Hn.
  replace ((48 <=? N.of_nat (48 + Z.to_nat d))%N && (N.of_nat (48 + Z.to_nat d) <=? 57)%N) with true
    by (symmetry; apply andb_true_iff; split; apply N.leb_le; lia).
  f_equal. lia.
Qed.

(** The digits [showDigits] prepends read back as [n]. *)
Lemma showDigits_digits fuel n acc :
  (0 < fuel)%nat -> 0 <= n < 2 ^ Z.of_nat fuel ->
  exists ds, ds <> [] /\ digitPrefix (showDigits fuel n acc) = ds ++ digitPrefix acc /\
             forall a, digitsValueFrom a ds = a * 10 ^ Z.of_nat (List.length ds) + n.
Proof.
  revert n acc. induction fuel as [|f IH]; intros n acc Hf Hn; [lia|].
  cbn [showDigits]. pose proof (Z.mod_pos_bound n 10 ltac:(lia)) as Hm.
  destruct (Z.ltb_spec n 10).
  - exists [n mod 10]. split; [discriminate|]. rewrite digitPrefix_digitChar by lia. split; [reflexivity|].
    intros a. cbn. rewrite Z.mod_small by lia. lia.
  - destruct (IH (n / 10) (String (digitChar (n mod 10)) acc)) as (ds & Hne & Hds & Hv).
    + destruct f; [cbn in Hn; lia | lia].
    + split; [apply Z.div_pos; lia|]. rewrite Nat2Z.inj_succ, Z.pow_succ_r in Hn by lia.
      apply Z.div_lt_upper_bound; lia.
    + exists (ds ++ [n mod 10]). split; [intros E; apply app_eq_nil in E as [_ E]; discriminate|].
      rewrite Hds, digitPrefix_digitChar, <- app_assoc by lia. split; [reflexivity|].
      intros a. unfold digitsValueFrom in *. rewrite fold_left_app, Hv. cbn [fold_left].
      rewrite length_app. cbn [List.length]. rewrite Nat2Z.inj_add, Z.pow_add_r by lia.
      pose proof (Z.div_mod n 10 ltac:(lia)). lia.
Qed.

Lemma digitPrefix_nonempty s :
  digitPrefix s <> [] -> exists c rest, s = String c rest /\ isdigit c = true.
Proof.
  destruct s as [|c rest]; cbn [digitPrefix]; [congruence|].
  destruct (isdigit c) eqn:E; [eauto | congruence].
Qed.

(** A digit is neither white space nor a sign. *)
Lemma isdigit_not_space_sign c :
  isdigit c = true -> isspace c = false /\ Ascii.eqb c "-" = false /\ Ascii.eqb c "+" = false.
Proof.
  intros H. split; [|split].
  - unfold isdigit, isspace in *. apply andb_true_iff in H as [H1 H2]. apply N.leb_le in H1, H2.
    destruct (N.eqb_spec (N_of_ascii c) 32); [lia|].
    destruct (N.leb_spec 9 (N_of_ascii c)), (N.leb_spec (N_of_ascii c) 13); cbn; reflexivity || lia.
  - destruct (Ascii.eqb_spec c "-") as [->|]; [discriminate H | reflexivity].
  - destruct (Ascii.eqb_spec c "+") as [->|]; [discriminate H | reflexivity].
Qed.

Lemma showNat_digits n :
  0 <= n -> exists ds, ds <> [] /\ digitPrefix (showNat n) = ds /\ digitsValue ds = n.
Proof.
  intros Hn. unfold showNat.
  destruct (showDigits_digits (S (Z.to_nat (Z.log2 n))) n EmptyString) as (ds & Hne & Hds & Hv).
  - lia.
  - split; [exact Hn|]. rewrite Nat2Z.inj_succ, Z2Nat.id by apply Z.log2_nonneg.
    destruct (Z.eq_dec n 0) as [->|]; [reflexivity|]. apply Z.log2_spec. lia.
  - exists ds. rewrite Hds, app_nil_r. repeat split; [exact Hne|]. unfold digitsValue.
    change (digitsValueFrom 0 ds = n). rewrite (Hv 0). lia.
Qed.

Definition int_min : Z := - 2 ^ 31.
Definition int_max : Z := 2 ^ 31 - 1.

(** [std::stoi] reads back every [int] that [operator<<] printed. *)
Lemma stoi_showZ z : int_min <= z <= int_max -> stoi (showZ z) = Ok z.
Proof.
  unfold int_min, int_max. intros Hz. unfold showZ, stoi.
  destruct (Z.ltb_spec z 0).
  - destruct (showNat_digits (- z)) as (ds & Hne & Hds & Hv); [lia|].
    cbn [skipSpaces]. change (isspace "-") with false. cbn [splitSign].
    change (Ascii.eqb "-" "-") with true. cbv iota beta. rewrite Hds. destruct ds as [|d ds]; [congruence|]. rewrite Hv.
    destruct (Z.ltb_spec (- - z) (- 2 ^ 31)), (Z.ltb_spec (2 ^ 31 - 1) (- - z)); cbn [orb]; try lia.
    f_equal. lia.
  - destruct (showNat_digits z) as (ds & Hne & Hds & Hv); [lia|].
    destruct (digitPrefix_nonempty (showNat z)) as (c & rest & Hs & Hc); [congruence|].
    destruct (isdigit_not_space_sign c Hc) as (Hsp & Hm & Hp).
    rewrite Hs. cbn [skipSpaces]. rewrite Hsp. cbn [splitSign]. rewrite Hm, Hp, <- Hs, Hds.
    destruct ds as [|d ds]; [congruence|]. rewrite Hv.
    destruct (Z.ltb_spec z (- 2 ^ 31)), (Z.ltb_spec (2 ^ 31 - 1) z); cbn [orb]; try lia. reflexivity.
Qed.

(** ** Strings *)

Fixpoint hasChar (c : ascii) (s : string) : bool :=
  match s with
  | EmptyString => false
  | String d rest => Ascii.eqb c d || hasChar c rest
  end.

Lemma sapp_assoc (a b c : string) : ((a ++ b) ++ c)%string = (a ++ b ++ c)%string.
Proof. induction a as [|x a IH]; cbn; [reflexivity | now rewrite IH]. Qed.

Lemma slength_app (a b : string) : String.length (a ++ b) = (String.length a + String.length b)%nat.
Proof. induction a as [|x a IH]; cbn; [reflexivity | now rewrite IH]. Qed.

Lemma substring_all (s : string) n : (String.length s <= n)%nat -> substring 0 n s = s.
Proof.
  revert n. induction s as [|x s IH]; intros [|n] Hn; cbn in *; try reflexivity; [lia|].
  f_equal. apply IH. lia.
Qed.

Lemma substring_prefix (a b : string) : substring 0 (String.length a) (a ++ b) = a.
Proof. induction a as [|x a IH]; cbn; [now destruct b | now rewrite IH]. Qed.

Lemma substring_skip (a b : string) m n :
  substring (String.length a + m) n (a ++ b) = substring m n b.
Proof. induction a as [|x a IH]; cbn; [reflexivity | exact IH]. Qed.

Lemma substring_after (a b : string) n : substring (String.length a) n (a ++ b) = substring 0 n b.
Proof. rewrite <- (Nat.add_0_r (String.length a)) at 1. apply substring_skip. Qed.

Lemma findFrom_app c (a b : string) i :
  hasChar c a = false -> findFrom c (a ++ b) i = findFrom c b (i + String.length a).
Proof.
  revert i. induction a as [|x a IH]; intros i H; cbn in *; [now rewrite Nat.add_0_r|].
  apply orb_false_iff in H as [H1 H2]. rewrite H1, IH by exact H2. f_equal. lia.
Qed.

(** [find] from the end of [p] stops at the first [c] after [q]. *)
Lemma find_after (s p q r : string) c pos :
  s = (p ++ q ++ String c r)%string -> hasChar c q = false -> pos = Z.of_nat (String.length p) ->
  find s c pos = pos + Z.of_nat (String.length q).
Proof.
  intros -> Hq ->. unfold find. rewrite !slength_app. cbn [String.length].
  destruct (Z.leb_spec (Z.of_nat (String.length p + (String.length q + S (String.length r))))
                       (Z.of_nat (String.length p))); [lia|].
  rewrite !Nat2Z.id, substring_after, substring_all by (rewrite slength_app; cbn; lia).
  rewrite findFrom_app by exact Hq. cbn [findFrom]. rewrite Ascii.eqb_refl. f_equal. lia.
Qed.

(** [substr] of the field [x] that follows [p]. *)
Lemma substr_field (s p x y : string) pos n :
  s = (p ++ x ++ y)%string -> pos = Z.of_nat (String.length p) -> n = Z.of_nat (String.length x) ->
  substr s pos n = x.
Proof.
  intros -> -> ->. unfold substr. rewrite !Nat2Z.id, substring_after. apply substring_prefix.
Qed.

Lemma substrFrom_tail (s p x : string) pos :
  s = (p ++ x)%string -> pos = Z.of_nat (String.length p) -> substrFrom s pos = x.
Proof.
  intros -> ->. unfold substrFrom. rewrite slength_app, !Nat2Z.id, substring_after.
  apply substring_all. lia.
Qed.

Lemma size_t_of_small z : 0 <= z < 2 ^ 64 -> size_t_of z = z.
Proof. intros. unfold size_t_of. apply Z.mod_small. lia. Qed.

Lemma isdigit_digitChar d : 0 <= d <= 9 -> isdigit (digitChar d) = true.
Proof.
  intros Hd. pose proof (digitPrefix_digitChar d EmptyString Hd) as H. cbn [digitPrefix] in H.
  destruct (isdigit (digitChar d)); [reflexivity | discriminate].
Qed.

Lemma hasChar_showDigits c fuel n acc :
  isdigit c = false -> hasChar c (showDigits fuel n acc) = hasChar c acc.
Proof.
  intros Hc. revert n acc. induction fuel as [|f IH]; intros n acc; [reflexivity|]. cbn [showDigits].
  assert (E : hasChar c (String (digitChar (n mod 10)) acc) = hasChar c acc).
  { cbn [hasChar]. destruct (Ascii.eqb_spec c (digitChar (n mod 10))) as [->|]; [|reflexivity].
    rewrite isdigit_digitChar in Hc; [discriminate|]. pose proof (Z.mod_pos_bound n 10). lia. }
  destruct (n <? 10); [exact E | rewrite IH; exact E].
Qed.

(** The printed id holds no comma and no newline. *)
Lemma hasChar_showZ c z :
  isdigit c = false -> Ascii.eqb c "-" = false -> hasChar c (showZ z) = false.
Proof.
  intros Hd Hm. unfold showZ, showNat. destruct (z <? 0); cbn [hasChar];
    rewrite ?Hm, hasChar_showDigits by exact Hd; reflexivity.
Qed.

(** What a line needs to be read back: an [int] id, no comma in the name
    or phone number, no newline anywhere, and positions that fit in a
    [size_t] below [npos]. *)
Definition csvSafe (c : Contact) : bool :=
  (int_min <=? id c) && (id c <=? int_max) &&
  negb (hasChar "," (name c)) && negb (hasChar "," (phoneNumber c)) &&
  negb (hasChar (ascii_of_nat 10) (name c)) && negb (hasChar (ascii_of_nat 10) (phoneNumber c)) &&
  negb (hasChar (ascii_of_nat 10) (city c)) &&
  (Z.of_nat (String.length (formatLine c)) <? npos).

(** The loop body reads back the line [formatLine] wrote. *)
Lemma parseLine_formatLine c : csvSafe c = true -> parseLine (formatLine c) = Ok (Some c).
Proof.
  intros H. pose proof H as Hs. unfold csvSafe in Hs.
  repeat match type of Hs with (_ && _) = true => apply andb_true_iff in Hs as [Hs ?] end.
  match goal with
  | Hlen : (_ <? npos) = true, Hi1 : (int_min <=? _) = true, Hi2 : (_ <=? int_max) = true |- _ =>
      apply Z.ltb_lt in Hlen; apply Z.leb_le in Hi1, Hi2
  end.
  rewrite negb_true_iff in *.
  assert (Hz : hasChar "," (showZ (id c)) = false) by (apply hasChar_showZ; reflexivity).
  set (a := showZ (id c)) in *. destruct c as [i nm ph ct]; cbn [id name phoneNumber city] in *.
  set (line := formatLine (mkContact i nm ph ct)) in *.
  assert (E1 : line = (EmptyString ++ a ++ String "," (nm ++ comma ++ ph ++ comma ++ ct))%string)
    by reflexivity.
  assert (E2 : line = ((a ++ comma) ++ nm ++ String "," (ph ++ comma ++ ct))%string)
    by (unfold line, formatLine; rewrite sapp_assoc; reflexivity).
  assert (E3 : line = ((a ++ comma ++ nm ++ comma) ++ ph ++ String "," ct)%string)
    by (unfold line, formatLine; rewrite !sapp_assoc; reflexivity).
  assert (E4 : line = ((a ++ comma ++ nm ++ comma ++ ph ++ comma) ++ ct)%string)
    by (unfold line, formatLine; rewrite !sapp_assoc; reflexivity).
  assert (HL : Z.of_nat (String.length line) =
    Z.of_nat (String.length a) + Z.of_nat (String.length nm) + Z.of_nat (String.length ph)
    + Z.of_nat (String.length ct) + 3) by (rewrite E4, !slength_app; cbn; lia).
  unfold parseLine. unfold npos in *.
  rewrite (find_after line EmptyString a _ "," 0 E1 Hz) by reflexivity.
  rewrite size_t_of_small by lia.
  rewrite (find_after line (a ++ comma) nm _ "," _ E2) by (auto; rewrite slength_app; cbn; lia).
  rewrite size_t_of_small by lia.
  rewrite (find_after line (a ++ comma ++ nm ++ comma) ph _ "," _ E3) by (auto; rewrite !slength_app; cbn; lia).
  destruct (Z.eqb_spec (0 + Z.of_nat (String.length a)) (2 ^ 64 - 1)); [lia|].
  destruct (Z.eqb_spec (0 + Z.of_nat (String.length a) + 1 + Z.of_nat (String.length nm)) (2 ^ 64 - 1)); [lia|].
  destruct (Z.eqb_spec (0 + Z.of_nat (String.length a) + 1 + Z.of_nat (String.length nm) + 1
                        + Z.of_nat (String.length ph)) (2 ^ 64 - 1)); [lia|].
  cbn [orb].
  rewrite (substr_field line EmptyString a _ 0 _ E1) by (auto; lia).
  unfold a at 1. rewrite stoi_showZ by (unfold int_min, int_max in *; lia).
  rewrite (substr_field line (a ++ comma) nm _ _ _ E2) by (rewrite ?slength_app; cbn; lia).
  rewrite (substr_field line (a ++ comma ++ nm ++ comma) ph _ _ _ E3) by (rewrite ?slength_app; cbn; lia).
  rewrite (substrFrom_tail line (a ++ comma ++ nm ++ comma ++ ph ++ comma) ct _ E4)
    by (rewrite ?slength_app; cbn; lia).
  reflexivity.
Qed.

(** ** Whole files *)

Lemma sapp_nil_r (s : string) : (s ++ EmptyString)%string = s.
Proof. induction s as [|x s IH]; cbn; [reflexivity | now rewrite IH]. Qed.

Lemma hasChar_app c (a b : string) : hasChar c (a ++ b) = hasChar c a || hasChar c b.
Proof. induction a as [|x a IH]; cbn; [reflexivity | now rewrite IH, orb_assoc]. Qed.

Lemma getlinesFrom_line cur (s t : string) :
  hasChar (ascii_of_nat 10) s = false ->
  getlinesFrom cur (s ++ newline ++ t) = (cur ++ s)%string :: getlinesFrom EmptyString t.
Proof.
  revert cur. induction s as [|x s IH]; intros cur Hs; cbn [append newline getlinesFrom].
  - rewrite Ascii.eqb_refl, sapp_nil_r. reflexivity.
  - cbn [hasChar] in Hs. apply orb_false_iff in Hs as [Hx Hs].
    rewrite Ascii.eqb_sym, Hx, IH by exact Hs. rewrite sapp_assoc. reflexivity.
Qed.

Lemma formatLine_no_newline c : csvSafe c = true -> hasChar (ascii_of_nat 10) (formatLine c) = false.
Proof.
  intros H. unfold csvSafe in H. repeat (apply andb_true_iff in H as [H ?]).
  rewrite negb_true_iff in *. unfold formatLine. rewrite !hasChar_app.
  rewrite hasChar_showZ by reflexivity. cbn [comma hasChar]. change (Ascii.eqb _ ",") with false.
  rewrite !orb_false_r. repeat match goal with E : hasChar _ _ = false |- _ => rewrite E end. reflexivity.
Qed.

Lemma getlines_save contacts :
  Forall (fun c => csvSafe c = true) contacts ->
  getlines (saveContactsToFile contacts) = map formatLine contacts.
Proof.
  unfold getlines. induction 1 as [|c cs Hc Hcs IH]; [reflexivity|].
  cbn [saveContactsToFile fold_right map]. unfold formatContact. rewrite sapp_assoc.
  rewrite getlinesFrom_line by (apply formatLine_no_newline; exact Hc). f_equal. exact IH.
Qed.

Lemma loadLines_format lines_of acc ctr :
  Forall (fun c => csvSafe c = true) lines_of ->
  loadLines (map formatLine lines_of) acc ctr = (acc ++ lines_of, fold_left bumpCounter lines_of ctr, None).
Proof.
  intros H. revert acc ctr. induction H as [|c cs Hc Hcs IH]; intros acc ctr.
  - rewrite app_nil_r. reflexivity.
  - cbn [map loadLines fold_left]. rewrite parseLine_formatLine by exact Hc.
    rewrite IH, <- app_assoc. reflexivity.
Qed.

Lemma bumpCounter_above cs ctr :
  ctr <= fold_left bumpCounter cs ctr /\ Forall (fun c => id c < fold_left bumpCounter cs ctr) cs.
Proof.
  revert ctr. induction cs as [|c cs IH]; intros ctr; cbn [fold_left]; [split; [lia | constructor]|].
  destruct (IH (bumpCounter ctr c)) as [H1 H2]. unfold bumpCounter in *.
  split; [destruct (Z.geb_spec (id c) ctr); lia|]. constructor; [|exact H2].
  destruct (Z.geb_spec (id c) ctr); lia.
Qed.

(** (C20) Loading the file [saveContactsToFile] wrote gives back the same
    vector, whatever it held before, provided every contact is
    [csvSafe]; no exception escapes, and [global_id_counter] ends above
    every loaded id (and never decreases). *)
Theorem load_save_roundtrip (contacts old : list Contact) (ctr : Z) :
  Forall (fun c => csvSafe c = true) contacts ->
  loadContactsFromFile (Some (saveContactsToFile contacts)) old ctr =
    (contacts, fold_left bumpCounter contacts ctr, None) /\
  ctr <= fold_left bumpCounter contacts ctr /\
  Forall (fun c => id c < fold_left bumpCounter contacts ctr) contacts.
Proof.
  intros H. split; [|apply bumpCounter_above].
  unfold loadContactsFromFile. rewrite getlines_save, loadLines_format by exact H. reflexivity.
Qed.

Lemma loadListLines_format cs ll ctr :
  Forall (fun c => csvSafe c = true) cs ->
  loadListLines (map formatLine cs) ll ctr = (fold_left insert cs ll, fold_left bumpCounter cs ctr, None).
Proof.
  intros H. revert ll ctr. induction H as [|c cs Hc Hcs IH]; intros ll ctr; [reflexivity|].
  cbn [map loadListLines fold_left]. rewrite parseLine_formatLine by exact Hc. apply IH.
Qed.

Lemma fold_insert_perm cs ll : Permutation (head (fold_left insert cs ll)) (cs ++ head ll).
Proof.
  revert ll. induction cs as [|c cs IH]; intros ll; [reflexivity|]. cbn [fold_left app].
  rewrite IH, insert_head, insert_sorted_perm. symmetry. apply Permutation_middle.
Qed.

(** (C37) [LinkedList::loadFromFile] does not clear the list: loading the
    file the list itself saved inserts every contact a second time, so
    each contact of the list appears twice afterwards. *)
Theorem loadFromFile_duplicates (ll : LinkedList) (ctr : Z) :
  Forall (fun c => csvSafe c = true) (head ll) ->
  let '(ll', _, err) := loadFromFile (Some (saveToFile ll)) ll ctr in
  err = None /\ Permutation (head ll') (head ll ++ head ll).
Proof.
  intros H. unfold loadFromFile, saveToFile. rewrite getlines_save, loadListLines_format by exact H.
  split; [reflexivity | apply fold_insert_perm].
Qed.

(** ** The id counter and the [int] range *)

(** Loading raises the counter above every id it inserts, also when an
    exception stops it half-way. *)
Lemma loadListLines_ids lines ll ctr :
  Forall (fun i => i < ctr) (map id (head ll)) ->
  let '(ll', ctr', _) := loadListLines lines ll ctr in
  ctr <= ctr' /\ Forall (fun i => i < ctr') (map id (head ll')).
Proof.
  revert ll ctr. induction lines as [|line lines IH]; intros ll ctr Hll; cbn [loadListLines];
    [split; [lia | exact Hll]|].
  destruct (parseLine line) as [[c|]|e]; [|apply IH, Hll | split; [lia | exact Hll]].
  assert (Hb : ctr <= bumpCounter ctr c /\ id c < bumpCounter ctr c)
    by (unfold bumpCounter; destruct (Z.geb_spec (id c) ctr); lia).
  specialize (IH (insert ll c) (bumpCounter ctr c)).
  destruct (loadListLines lines (insert ll c) (bumpCounter ctr c)) as [[ll' ctr'] err].
  destruct IH as [Hc Hl]; [|split; [lia | exact Hl]].
  rewrite insert_head, insert_sorted_perm. cbn [map]. constructor; [lia|].
  eapply Forall_impl; [|exact Hll]. cbn beta. lia.
Qed.

Lemma loadFromFile_ids file ll ctr :
  Forall (fun i => i < ctr) (map id (head ll)) ->
  let '(ll', ctr', _) := loadFromFile file ll ctr in
  ctr <= ctr' /\ Forall (fun i => i < ctr') (map id (head ll')).
Proof.
  intros Hll. destruct file as [content|]; cbn [loadFromFile]; [apply loadListLines_ids, Hll|].
  split; [lia | exact Hll].
Qed.

Lemma stoi_range s v : stoi s = Ok v -> int_min <= v <= int_max.
Proof.
  unfold stoi, int_min, int_max. destruct (splitSign (skipSpaces s)) as [neg s'].
  destruct (digitPrefix s'); [discriminate|].
  destruct ((_ <? _) || (_ <? _)) eqn:E; [discriminate|]. intros Hv. injection Hv as <-.
  apply orb_false_iff in E as [E1 E2]. apply Z.ltb_ge in E1, E2. lia.
Qed.

Lemma parseLine_range line c : parseLine line = Ok (Some c) -> int_min <= id c <= int_max.
Proof.
  unfold parseLine. destruct (_ || _ || _); [discriminate|].
  destruct (stoi _) as [i|e] eqn:E; [|discriminate]. intros Hc. injection Hc as <-.
  exact (stoi_range _ _ E).
Qed.

(** Loading only adds to the list, and the counter it ends with is the
    one it started with or one more than the id of a contact it inserted. *)
Lemma loadListLines_counter lines ll ctr :
  let '(ll', ctr', _) := loadListLines lines ll ctr in
  incl (head ll) (head ll') /\
  (ctr' = ctr \/ exists c, In c (head ll') /\ int_min <= id c <= int_max /\ ctr' = id c + 1).
Proof.
  revert ll ctr. induction lines as [|line lines IH]; intros ll ctr; cbn [loadListLines];
    [split; [apply incl_refl | left; reflexivity]|].
  destruct (parseLine line) as [[c|]|e] eqn:Ep; [|apply IH | split; [apply incl_refl | left; reflexivity]].
  specialize (IH (insert ll c) (bumpCounter ctr c)).
  destruct (loadListLines lines (insert ll c) (bumpCounter ctr c)) as [[ll' ctr'] err].
  destruct IH as [Hi [Hc|Hc]].
  - assert (Hin : In c (head ll')).
    { apply Hi. eapply Permutation_in; [symmetry; rewrite insert_head; apply insert_sorted_perm | left; reflexivity]. }
    assert (Hsub : incl (head ll) (head (insert ll c))).
    { intros x Hx. eapply Permutation_in; [symmetry; rewrite insert_head; apply insert_sorted_perm | right; exact Hx]. }
    split; [exact (incl_tran Hsub Hi)|]. unfold bumpCounter in Hc. destruct (Z.geb_spec (id c) ctr).
    + right. exists c. split; [exact Hin|]. split; [exact (parseLine_range _ _ Ep) | exact Hc].
    + left. exact Hc.
  - split; [|right; exact Hc]. intros x Hx. apply Hi.
    eapply Permutation_in; [symmetry; rewrite insert_head; apply insert_sorted_perm | right; exact Hx].
Qed.

(** (C39) [global_id_counter] is an [int], and [LinkedList::loadFromFile]
    sets it to [contact.id + 1]: starting from an [int] counter above the
    ids of the list, the counter it ends with is at most [INT_MAX + 1],
    and it leaves the [int] range (the C++ addition overflows, which is
    undefined behaviour) exactly when the list then holds a contact of id
    [INT_MAX], as a file line with id 2147483647 gives. *)
Theorem loadFromFile_counter_overflow (file : option string) (ll : LinkedList) (ctr : Z) :
  ctr <= int_max -> Forall (fun i => i < ctr) (map id (head ll)) ->
  let '(ll', ctr', _) := loadFromFile file ll ctr in
  ctr' <= int_max + 1 /\ (int_max < ctr' <-> exists c, In c (head ll') /\ id c = int_max).
Proof.
  intros Hctr Hll. pose proof (loadFromFile_ids file ll ctr Hll) as Hb.
  assert (Hc : let '(ll', ctr', _) := loadFromFile file ll ctr in
               incl (head ll) (head ll') /\
               (ctr' = ctr \/ exists c, In c (head ll') /\ int_min <= id c <= int_max /\ ctr' = id c + 1))
    by (destruct file; [apply loadListLines_counter | split; [apply incl_refl | left; reflexivity]]).
  destruct (loadFromFile file ll ctr) as [[ll' ctr'] err]. destruct Hb as [Hle Hall].
  rewrite Forall_map, Forall_forall in Hall. destruct Hc as [_ [->|(c & Hin & Hr & ->)]].
  - split; [lia|]. split; [lia|]. intros (c & Hin & Hid). specialize (Hall c Hin). lia.
  - split; [lia|]. split; [intros Hgt; exists c; split; [exact Hin | lia]|].
    intros (c' & Hin' & Hid). specialize (Hall c' Hin'). lia.
Qed.

(** ** Scenarios *)

Lemma Forall_csvSafe l : forallb csvSafe l = true -> Forall (fun c => csvSafe c = true) l.
Proof. rewrite forallb_forall, Forall_forall. exact (fun H => H). Qed.

Local Open Scope string_scope.

Definition commaContact : Contact := mkContact 1 "Smith, John" "1234567" "Omsk".

(** A file line as [saveContactsToFile] writes it for a contact of id
    [INT_MAX], and the empty list [main] starts with. *)
Definition maxIdFile : string := formatLine (mkContact 2147483647 "Anna" "1234567" "Omsk").

Definition emptyNameList : LinkedList :=
  newLinkedList PrimarySortAttribute.NAME SecondarySortAttribute.CITY SortOrder.ASCENDING SortOrder.ASCENDING.

Lemma split_first (c : ascii) (s : string) :
  hasChar c s = true -> exists q r, s = (q ++ String c r)%string /\ hasChar c q = false.
Proof.
  induction s as [|x s IH]; cbn [hasChar]; [discriminate|]. intros H.
  destruct (Ascii.eqb_spec c x) as [<-|Hne].
  - exists EmptyString, s. split; reflexivity.
  - cbn [orb] in H. destruct (IH H) as (q & r & -> & Hq). exists (String x q), r. split; [reflexivity|].
    cbn [hasChar]. destruct (Ascii.eqb_spec c x); [contradiction | exact Hq].
Qed.

(** (C36) The CSV format does not escape commas, and [validateName]
    accepts them: for every contact with an [int] id whose name holds a
    comma, the line [saveContactsToFile] writes for it is read back by
    the loading loop as another contact, whose name is the part of the
    name before its first comma. *)
Theorem comma_name_corrupted (c : Contact) (na nb : string) :
  int_min <= id c <= int_max -> name c = (na ++ String "," nb)%string -> hasChar "," na = false ->
  Z.of_nat (String.length (formatLine c)) < npos ->
  exists c', parseLine (formatLine c) = Ok (Some c') /\ id c' = id c /\ name c' = na /\ c' <> c.
Proof.
  intros Hi Hn Hna Hlen.
  assert (Hz : hasChar "," (showZ (id c)) = false) by (apply hasChar_showZ; reflexivity).
  set (a := showZ (id c)) in *. destruct c as [i nm ph ct]; cbn [id name phoneNumber city] in *. subst nm.
  set (rest := (nb ++ comma ++ ph ++ comma ++ ct)%string).
  destruct (split_first "," rest) as (q & r & Er & Hq).
  { unfold rest. rewrite hasChar_app. apply orb_true_iff. right. reflexivity. }
  set (line := formatLine (mkContact i (na ++ String "," nb) ph ct)) in *.
  assert (E1 : line = (EmptyString ++ a ++ String "," ((na ++ String "," nb) ++ comma ++ ph ++ comma ++ ct))%string)
    by reflexivity.
  assert (E2 : line = ((a ++ comma) ++ na ++ String "," rest)%string)
    by (unfold line, formatLine, rest; cbn [id name phoneNumber city]; rewrite !sapp_assoc; reflexivity).
  assert (E3 : line = ((a ++ comma ++ na ++ comma) ++ q ++ String "," r)%string)
    by (rewrite E2, Er; unfold comma; rewrite !sapp_assoc; reflexivity).
  assert (HL : Z.of_nat (String.length a) + Z.of_nat (String.length na) + Z.of_nat (String.length q) + 3
               <= Z.of_nat (String.length line)) by (rewrite E3, !slength_app; cbn; lia).
  unfold parseLine. unfold npos in *.
  rewrite (find_after line EmptyString a _ "," 0 E1 Hz) by reflexivity.
  rewrite size_t_of_small by lia.
  rewrite (find_after line (a ++ comma) na _ "," _ E2) by (auto; rewrite slength_app; cbn; lia).
  rewrite size_t_of_small by lia.
  rewrite (find_after line (a ++ comma ++ na ++ comma) q _ "," _ E3) by (auto; rewrite !slength_app; cbn; lia).
  destruct (Z.eqb_spec (0 + Z.of_nat (String.length a)) (2 ^ 64 - 1)); [lia|].
  destruct (Z.eqb_spec (0 + Z.of_nat (String.length a) + 1 + Z.of_nat (String.length na)) (2 ^ 64 - 1)); [lia|].
  destruct (Z.eqb_spec (0 + Z.of_nat (String.length a) + 1 + Z.of_nat (String.length na) + 1
                        + Z.of_nat (String.length q)) (2 ^ 64 - 1)); [lia|].
  cbn [orb].
  rewrite (substr_field line EmptyString a _ 0 _ E1) by (auto; lia).
  unfold a at 1. rewrite stoi_showZ by (unfold int_min, int_max in *; lia).
  eexists. split; [reflexivity|]. cbn [id name]. split; [reflexivity|].
  rewrite (substr_field line (a ++ comma) na _ _ _ E2) by (rewrite ?slength_app; cbn; lia).
  split; [reflexivity|]. intros Heq. apply (f_equal name) in Heq. cbn [name] in Heq.
  apply (f_equal String.length) in Heq. rename Heq into Hname. rewrite slength_app in Hname. cbn in Hname. lia.
Qed.

(** The loop over the lines, cut after a prefix: when the prefix raises
    no exception, the rest starts from the state it left; otherwise the
    rest is never read. *)
Lemma loadListLines_app pre rest ll ctr :
  loadListLines (pre ++ rest)%list ll ctr =
  match loadListLines pre ll ctr with
  | (ll1, c1, None) => loadListLines rest ll1 c1
  | r => r
  end.
Proof.
  revert ll ctr. induction pre as [|line pre IH]; intros ll ctr; [reflexivity|].
  cbn [app loadListLines]. destruct (parseLine line) as [[c|]|e]; [apply IH | apply IH | reflexivity].
Qed.

Lemma loadListLines_error lines ll ctr e :
  snd (loadListLines lines ll ctr) = Some e <->
  exists pre line post, lines = (pre ++ line :: post)%list /\ snd (loadListLines pre ll ctr) = None /\
    parseLine line = Throw e /\ fst (loadListLines lines ll ctr) = fst (loadListLines pre ll ctr).
Proof.
  split.
  - revert ll ctr. induction lines as [|line lines IH]; intros ll ctr; cbn [loadListLines]; [discriminate|].
    destruct (parseLine line) as [[c|]|e'] eqn:Ep.
    + intros H. destruct (IH _ _ H) as (pre & l & post & -> & Hn & Ht & Hf).
      exists (line :: pre), l, post. cbn [app loadListLines]. rewrite Ep. auto.
    + intros H. destruct (IH _ _ H) as (pre & l & post & -> & Hn & Ht & Hf).
      exists (line :: pre), l, post. cbn [app loadListLines]. rewrite Ep. auto.
    + cbn [snd]. intros Heq. injection Heq as ->. exists [], line, lines. auto.
  - intros (pre & line & post & -> & Hn & Ht & _). rewrite loadListLines_app.
    destruct (loadListLines pre ll ctr) as [[ll1 c1] [e'|]]; [discriminate|].
    cbn [loadListLines]. rewrite Ht. reflexivity.
Qed.

(** (C38) An exception of [std::stoi] escapes [LinkedList::loadFromFile]
    exactly at the first line whose id [std::stoi] rejects (among the
    lines with three commas): the file could be opened, every line
    before it was loaded without exception, and the list and the counter
    are left as those lines made them (half loaded, not restored). *)
Theorem load_errors (file : option string) (ll : LinkedList) (ctr : Z) (e : Exn) :
  snd (loadFromFile file ll ctr) = Some e <->
  exists content pre line post,
    file = Some content /\ getlines content = (pre ++ line :: post)%list /\
    snd (loadListLines pre ll ctr) = None /\ parseLine line = Throw e /\
    fst (loadFromFile file ll ctr) = fst (loadListLines pre ll ctr).
Proof.
  destruct file as [content|]; cbn [loadFromFile snd].
  - rewrite loadListLines_error. split.
    + intros (pre & line & post & H1 & H2 & H3 & H4). exists content, pre, line, post. auto.
    + intros (c & pre & line & post & Hc & H1 & H2 & H3 & H4). injection Hc as <-.
      exists pre, line, post. auto.
  - split; [discriminate|]. intros (c & pre & line & post & Hc & _). discriminate.
Qed.

(** A malformed file makes [std::stoi] throw out of
    [loadContactsFromFile]: an id that is not a number raises
    [invalid_argument], an id beyond [int] raises [out_of_range]; the
    vector was already cleared and holds the lines read before.  A line
    with fewer than three commas is skipped. *)
Example load_errors_examples :
  loadContactsFromFile (Some "1,Anna,1111111,Moscow
x,Boris,2222222,Kazan
") [mkContact 9 "Old" "9999999" "Ufa"] 1 =
    ([mkContact 1 "Anna" "1111111" "Moscow"], 2, Some invalid_argument) /\
  loadContactsFromFile (Some "2147483648,Anna,1111111,Moscow
") [] 1 = ([], 1, Some out_of_range) /\
  loadContactsFromFile (Some "no commas here
7,Vera,3333333,Omsk") [] 1 = ([mkContact 7 "Vera" "3333333" "Omsk"], 8, None).
Proof. vm_compute. repeat split. Qed.

Lemma load_save_roundtrip_witness :
  Forall (fun c => csvSafe c = true) demoContacts /\
  loadContactsFromFile (Some (saveContactsToFile demoContacts)) [] 1 =
    (demoContacts, fold_left bumpCounter demoContacts 1, None) /\
  1 <= fold_left bumpCounter demoContacts 1 /\
  Forall (fun c => id c < fold_left bumpCounter demoContacts 1) demoContacts.
Proof.
  assert (H : Forall (fun c => csvSafe c = true) demoContacts) by (apply Forall_csvSafe; vm_compute; reflexivity).
  split; [exact H | exact (load_save_roundtrip demoContacts [] 1 H)].
Defined.

Lemma loadFromFile_duplicates_witness :
  Forall (fun c => csvSafe c = true) (head testList) /\
  (let '(ll', _, err) := loadFromFile (Some (saveToFile testList)) testList 1 in
   err = None /\ Permutation (head ll') (head testList ++ head testList)).
Proof.
  assert (H : Forall (fun c => csvSafe c = true) (head testList)) by (apply Forall_csvSafe; vm_compute; reflexivity).
  split; [exact H | exact (loadFromFile_duplicates testList 1 H)].
Defined.

Lemma loadFromFile_counter_overflow_witness :
  int_max <= int_max /\ Forall (fun i => i < int_max) (map id (head emptyNameList)) /\
  (let '(ll', ctr', _) := loadFromFile (Some maxIdFile) emptyNameList int_max in
   ctr' <= int_max + 1 /\ (int_max < ctr' <-> exists c, In c (head ll') /\ id c = int_max)) /\
  snd (fst (loadFromFile (Some maxIdFile) emptyNameList int_max)) = 2 ^ 31.
Proof.
  assert (H1 : int_max <= int_max) by lia.
  assert (H2 : Forall (fun i => i < int_max) (map id (head emptyNameList))) by constructor.
  split; [exact H1 | split; [exact H2 | split]].
  - exact (loadFromFile_counter_overflow (Some maxIdFile) emptyNameList int_max H1 H2).
  - vm_compute. reflexivity.
Defined.

Lemma comma_name_corrupted_witness :
  validContact commaContact = true /\
  (int_min <= id commaContact <= int_max /\ name commaContact = ("Smith" ++ String "," " John")%string /\
   hasChar "," "Smith" = false /\ Z.of_nat (String.length (formatLine commaContact)) < npos) /\
  (exists c', parseLine (formatLine commaContact) = Ok (Some c') /\ id c' = id commaContact /\
              name c' = "Smith"%string /\ c' <> commaContact).
Proof.
  assert (H1 : int_min <= id commaContact <= int_max) by (cbn; unfold int_min, int_max; lia).
  assert (H2 : name commaContact = ("Smith" ++ String "," " John")%string) by reflexivity.
  assert (H3 : hasChar "," "Smith" = false) by reflexivity.
  assert (H4 : Z.of_nat (String.length (formatLine commaContact)) < npos) by (vm_compute; reflexivity).
  split; [vm_compute; reflexivity|]. split; [auto|].
  exact (comma_name_corrupted commaContact "Smith" " John" H1 H2 H3 H4).
Defined.
