(* ===== verification/AvlTree.v ===== *)
(** * [BinaryTree]: the AVL multimap of [src/binary_tree.cpp]

    A [TreeNode*] is a [TreeNode K]: [Leaf] is [nullptr], [Node key
    recordNumbers left right height] is a heap node with the fields of
    [struct TreeNode] ([binary_tree.h], lines 15-29).  Every private
    method that takes a [TreeNode*] by ownership and returns the
    (possibly rotated) subtree is a function from subtree to subtree; the
    [release]/[reset] pairs of the C++ are the reconstruction of the
    parent around the returned child.

    Branches in which the C++ would dereference a null pointer or index
    an empty vector (undefined behaviour) return their input unchanged;
    [AvlBalance] and [AvlOrder] show that none of them is reached from
    a tree that satisfies the invariants.

    The definitions sit in [Module BinaryTree], as the methods sit in the
    C++ class: [BinaryTree.insert] is [BinaryTree::insert], apart from
    [LinkedList.insert] of the list.  The module is exported, so the
    files that import this one use the short names. *)

From Stdlib Require Import ZArith List Bool Lia.
From S2P Require Import Prelude KeyOrder.
Import ListNotations.

Module BinaryTree.
Section Methods.
Context {K : Type} `{KeyOrder K}.

(** [struct TreeNode] and a nullable owning pointer to it. *)
Inductive TreeNode : Type :=
| Leaf
| Node (key : K) (recordNumbers : list Z) (left right : TreeNode) (height : Z).

(** The constructor [TreeNode(key, recordNumber)] of [binary_tree.h]:
    the key, the vector [{ recordNumber }], no children, height 1.
    [cbn] unfolds it as soon as it is applied. *)
Definition newTreeNode (key : K) (recordNumber : Z) : TreeNode :=
  Node key [recordNumber] Leaf Leaf 1.
Arguments newTreeNode _ _ /.

(** [class BinaryTree]: it owns the root. *)
Record BinaryTree : Type := mkBinaryTree { root : TreeNode }.

(** [BinaryTree::BinaryTree()]: the empty tree. *)
Definition empty : BinaryTree := mkBinaryTree Leaf.

(** The move constructor and move assignment: the target takes the
    root, the source is left empty.  (Self-assignment is a no-op.) *)
Definition move (other : BinaryTree) : BinaryTree * BinaryTree :=
  (mkBinaryTree (root other), empty).

(** [getHeight]: [node ? node->height : 0]. *)
Definition getHeight (node : TreeNode) : Z :=
  match node with Leaf => 0 | Node _ _ _ _ h => h end.

(** [getBalance]: left height minus right height; 0 for [nullptr]. *)
Definition getBalance (node : TreeNode) : Z :=
  match node with
  | Leaf => 0
  | Node _ _ l r _ => getHeight l - getHeight r
  end.

(** [rightRotate(y)]: [x = y->left] becomes the root, [y] its right
    child, [x]'s former right child [T2] becomes [y]'s left child; [y]'s
    height is recomputed before [x]'s. *)
Definition rightRotate (y : TreeNode) : TreeNode :=
  match y with
  | Node ky rsy (Node kx rsx xl T2 _) yr _ =>
      let y' := Node ky rsy T2 yr (Z.max (getHeight T2) (getHeight yr) + 1) in
      Node kx rsx xl y' (Z.max (getHeight xl) (getHeight y') + 1)
  | _ => y (* y->left is null: undefined behaviour in the C++ *)
  end.

(** [leftRotate(x)]: the mirror image. *)
Definition leftRotate (x : TreeNode) : TreeNode :=
  match x with
  | Node kx rsx xl (Node ky rsy T2 yr _) _ =>
      let x' := Node kx rsx xl T2 (Z.max (getHeight xl) (getHeight T2) + 1) in
      Node ky rsy x' yr (Z.max (getHeight x') (getHeight yr) + 1)
  | _ => x (* x->right is null: undefined behaviour in the C++ *)
  end.

(** [findMin]: follow [left] while it is not null. *)
Fixpoint findMin (node : TreeNode) : TreeNode :=
  match node with
  | Node _ _ (Node _ _ _ _ _ as l) _ _ => findMin l
  | _ => node
  end.

(** [key < child->key] and [key > child->key]; the C++ evaluates them
    only after [balance > 1] (or [< -1]) has made the child non-null. *)
Definition keyLtChild (key : K) (child : TreeNode) : bool :=
  match child with Node kc _ _ _ _ => key_lt key kc | Leaf => false end.
Definition keyGtChild (key : K) (child : TreeNode) : bool :=
  match child with Node kc _ _ _ _ => key_gt key kc | Leaf => false end.

(** Lines 94-123 of [insert]: recompute the height of the node whose
    child was just replaced, then apply the first of the four cases,
    chosen by comparing the inserted [key] with the child's key. *)
Definition insertRebalance (key : K) (node : TreeNode) : TreeNode :=
  match node with
  | Leaf => Leaf
  | Node k rs l r _ =>
      let h := 1 + Z.max (getHeight l) (getHeight r) in
      let node := Node k rs l r h in
      let balance := getBalance node in
      if (balance >? 1) && keyLtChild key l then rightRotate node
      else if (balance <? -1) && keyGtChild key r then leftRotate node
      else if (balance >? 1) && keyGtChild key l then
        rightRotate (Node k rs (leftRotate l) r h)
      else if (balance <? -1) && keyLtChild key r then
        leftRotate (Node k rs l (rightRotate r) h)
      else node
  end.

(** [TreeNode* insert(node, key, recordNumber)]: BST descent; a null
    slot becomes a fresh node of height 1; an equal key appends the id
    to [recordNumbers] and returns at once (no height update). *)
Fixpoint insertNode (node : TreeNode) (key : K) (recordNumber : Z) : TreeNode :=
  match node with
  | Leaf => newTreeNode key recordNumber
  | Node k rs l r h =>
      if key_lt key k then
        insertRebalance key (Node k rs (insertNode l key recordNumber) r h)
      else if key_gt key k then
        insertRebalance key (Node k rs l (insertNode r key recordNumber) h)
      else Node k (rs ++ [recordNumber]) l r h
  end.

(** Lines 182-210 of [deleteNode]: recompute the height, then apply the
    first of the four cases, chosen by the child's own balance. *)
Definition deleteRebalance (node : TreeNode) : TreeNode :=
  match node with
  | Leaf => Leaf
  | Node k rs l r _ =>
      let h := 1 + Z.max (getHeight l) (getHeight r) in
      let node := Node k rs l r h in
      let balance := getBalance node in
      if (balance >? 1) && (getBalance l >=? 0) then rightRotate node
      else if (balance >? 1) && (getBalance l <? 0) then
        rightRotate (Node k rs (leftRotate l) r h)
      else if (balance <? -1) && (getBalance r <=? 0) then leftRotate node
      else if (balance <? -1) && (getBalance r >? 0) then
        leftRotate (Node k rs l (rightRotate r) h)
      else node
  end.

(** [TreeNode* deleteNode(node, key, recordNumber)].  At the node of
    [key], every occurrence of [recordNumber] is erased (the
    erase-remove idiom).  If ids remain, the node is returned as is.
    Otherwise a node with at most one child is replaced by that child
    (no rebalancing at this level), and a node with two children takes
    the key and the whole id vector of [findMin(node->right)], after
    which [temp->recordNumbers[0]] is deleted under [temp->key] from the
    right subtree, and the node is rebalanced. *)
Fixpoint deleteNode (node : TreeNode) (key : K) (recordNumber : Z) : TreeNode :=
  match node with
  | Leaf => Leaf
  | Node k rs l r h =>
      if key_lt key k then
        deleteRebalance (Node k rs (deleteNode l key recordNumber) r h)
      else if key_gt key k then
        deleteRebalance (Node k rs l (deleteNode r key recordNumber) h)
      else
        match rs \ recordNumber with
        | (_ :: _) as rs' => Node k rs' l r h
        | [] =>
            match l, r with
            | Leaf, _ => r
            | _, Leaf => l
            | _, _ =>
                match findMin r with
                | Node sk ((s0 :: _) as srs) _ _ _ =>
                    deleteRebalance (Node sk srs l (deleteNode r sk s0) h)
                | _ => Node k [] l r h (* empty successor vector: undefined *)
                end
            end
        end
  end.

(** [TreeNode* search(node, key)]: the node whose key equals [key], or
    [nullptr]. *)
Fixpoint searchNode (node : TreeNode) (key : K) : TreeNode :=
  match node with
  | Leaf => Leaf
  | Node k _ l r _ =>
      if key_eqb k key then node
      else if key_lt key k then searchNode l key
      else searchNode r key
  end.

(** [inOrderTraversal(node, contacts, ascending)].  The body of the
    [for] loop over [recordNumbers] is the consumer [visit], which
    returns what it outputs for one id (in the program: the printed
    contact [contacts[id - 1]] when the index is in range, nothing
    otherwise); the traversal's result is the whole output. *)
Fixpoint inOrderTraversal {A : Type} (visit : Z -> list A) (node : TreeNode)
    (ascending : bool) : list A :=
  match node with
  | Leaf => []
  | Node _ rs l r _ =>
      (if ascending then inOrderTraversal visit l ascending
       else inOrderTraversal visit r ascending)
      ++ flat_map visit rs
      ++ (if ascending then inOrderTraversal visit r ascending
          else inOrderTraversal visit l ascending)
  end.

(** The public methods. *)
Definition insert (t : BinaryTree) (key : K) (recordNumber : Z) : BinaryTree :=
  mkBinaryTree (insertNode (root t) key recordNumber).

Definition remove (t : BinaryTree) (key : K) (recordNumber : Z) : BinaryTree :=
  mkBinaryTree (deleteNode (root t) key recordNumber).

Definition search (t : BinaryTree) (key : K) : list Z :=
  match searchNode (root t) key with
  | Node _ rs _ _ _ => rs
  | Leaf => []
  end.

Definition inOrder {A : Type} (t : BinaryTree) (visit : Z -> list A)
    (ascending : bool) : list A :=
  inOrderTraversal visit (root t) ascending.

(** The ids in the order a traversal visits them. *)
Definition visitIds (t : BinaryTree) (ascending : bool) : list Z :=
  inOrder t (fun id => [id]) ascending.

(** Inserting a sequence of pairs in order, as [main.cpp] and
    [test.cpp] fill the tree from the contact vector. *)
Definition insertAll (t : BinaryTree) (kvs : list (K * Z)) : BinaryTree :=
  fold_left (fun t '(k, id) => insert t k id) kvs t.
End Methods.

Arguments TreeNode K : clear implicits.
Arguments BinaryTree K : clear implicits.
Arguments Leaf {K}.
Arguments Node {K} key recordNumbers left right height.
End BinaryTree.
Export BinaryTree.
