(* ===== verification/AvlBalance.v ===== *)
(** * The AVL invariant of [BinaryTree]

    [avl t]: every node's cached [height] is [1 + max] of its children's
    (the missing child counting 0), and every node's balance factor is in
    [-1, 1] (invariant 2 and the height clause of the spec's data model).
    [avlb] is the same check as a boolean function, for concrete trees.

    The invariant does not depend on the keys: [insert] and [remove]
    preserve it for any tree that has it, whether or not its keys are in
    search-tree order ([insert_avl], [remove_avl]); the insertion proof
    follows the code's key-driven choice of rotation through the shape
    [grows] of a subtree whose height has increased.  [avl_minSize] and
    [avl_height_log] bound the height by the number of nodes;
    [avl_getHeight_depth]: every cached height is the number of levels
    [depth]. *)

From Stdlib Require Import ZArith List Bool Lia Arith.
From S2P Require Import Prelude KeyOrder AvlTree.
Import ListNotations.

Section Balance.
Context {K : Type} `{KeyOrder K}.

(** A node assembled with its height recomputed from its children, as
    the rotations and the rebalancing code do. *)
Definition mkNode (k : K) (rs : list Z) (l r : TreeNode K) : TreeNode K :=
  Node k rs l r (1 + Z.max (getHeight l) (getHeight r)).

Inductive avl : TreeNode K -> Prop :=
| avl_Leaf : avl Leaf
| avl_Node k rs l r :
    avl l -> avl r -> -1 <= getHeight l - getHeight r <= 1 ->
    avl (Node k rs l r (1 + Z.max (getHeight l) (getHeight r))).

Fixpoint avlb (t : TreeNode K) : bool :=
  match t with
  | Leaf => true
  | Node _ _ l r h =>
      avlb l && avlb r && (Z.abs (getHeight l - getHeight r) <=? 1)
      && (h =? 1 + Z.max (getHeight l) (getHeight r))
  end.

Fixpoint size (t : TreeNode K) : nat :=
  match t with Leaf => 0%nat | Node _ _ l r _ => S (size l + size r) end.

(** The number of levels of a tree: the most nodes a descent of
    [insert], [deleteNode] or [search] visits. *)
Fixpoint depth (t : TreeNode K) : nat :=
  match t with Leaf => 0%nat | Node _ _ l r _ => S (Nat.max (depth l) (depth r)) end.

(** The fewest nodes an AVL tree of height [h] can have. *)
Fixpoint minSize (h : nat) : nat :=
  match h with
  | O => 0
  | S h' => match h' with O => 1 | S h'' => S (minSize h' + minSize h'') end
  end.

(** ** Elementary facts *)

Lemma avlb_spec t : avlb t = true <-> avl t.
Proof.
  induction t as [|k rs l IHl r IHr h]; simpl; split; try constructor.
  - intros E. repeat rewrite andb_true_iff in E. destruct E as [[[El Er] Eb] Eh].
    apply Z.leb_le in Eb. apply Z.eqb_eq in Eh. subst h.
    constructor; [apply IHl | apply IHr | lia]; assumption.
  - intros Ha. inversion Ha; subst. repeat rewrite andb_true_iff.
    rewrite Z.leb_le, Z.eqb_eq. intuition lia.
Qed.

Lemma avl_inv k rs l r h :
  avl (Node k rs l r h) ->
  avl l /\ avl r /\ -1 <= getHeight l - getHeight r <= 1 /\
  h = 1 + Z.max (getHeight l) (getHeight r).
Proof. intros Ha. inversion Ha; subst. auto. Qed.

Lemma avl_mkNode k rs l r :
  avl l -> avl r -> -1 <= getHeight l - getHeight r <= 1 -> avl (mkNode k rs l r).
Proof. apply avl_Node. Qed.

Lemma getHeight_mkNode k rs l r :
  getHeight (mkNode k rs l r) = 1 + Z.max (getHeight l) (getHeight r).
Proof. reflexivity. Qed.

Lemma avl_height_nonneg t : avl t -> 0 <= getHeight t.
Proof. induction 1; cbn [getHeight]; lia. Qed.

Lemma avl_Node_height k rs l r h : avl (Node k rs l r h) -> 1 <= h.
Proof.
  intros Ha. apply avl_inv in Ha as (Hl & Hr & _ & ->).
  pose proof (avl_height_nonneg l Hl). pose proof (avl_height_nonneg r Hr). lia.
Qed.

Lemma rightRotate_Node k rs kx rsx a b hx c h :
  rightRotate (Node k rs (Node kx rsx a b hx) c h) = mkNode kx rsx a (mkNode k rs b c).
Proof. unfold rightRotate, mkNode. cbn [getHeight]. now rewrite !max_plus_one_comm. Qed.

Lemma leftRotate_Node k rs a ky rsy b c hy h :
  leftRotate (Node k rs a (Node ky rsy b c hy) h) = mkNode ky rsy (mkNode k rs a b) c.
Proof. unfold leftRotate, mkNode. cbn [getHeight]. now rewrite !max_plus_one_comm. Qed.

End Balance.

#[export] Hint Resolve avl_Leaf avl_mkNode avl_height_nonneg : cpp.
#[export] Hint Rewrite @rightRotate_Node @leftRotate_Node @getHeight_mkNode : cpp.

(** Record the non-negativity of the height of every AVL tree in context. *)
Ltac avl_heights :=
  repeat match goal with
  | Ha : avl ?t |- _ =>
      lazymatch goal with
      | _ : 0 <= getHeight t |- _ => fail
      | _ => pose proof (avl_height_nonneg t Ha)
      end
  end.

(** Take a hypothesis [avl (Node ...)] apart. *)
Ltac avl_inv H :=
  let Hl := fresh "Hal" in let Hr := fresh "Har" in
  let Hb := fresh "Hbal" in let Hh := fresh "Hh" in
  apply avl_inv in H as (Hl & Hr & Hb & Hh).

(** Close [avl t /\ bounds] goals in which [t] is built by rotations:
    rewrite the rotations innermost first, then build the AVL proof node by
    node and discharge the height arithmetic. *)
Ltac avl_close :=
  repeat (rewrite ?rightRotate_Node, ?leftRotate_Node; unfold mkNode);
  avl_heights; repeat split; repeat apply avl_Node; try assumption;
  intros; cbn [getHeight] in *; first [lia | exfalso; lia].
Section Rebalance.
Context {K : Type} `{KeyOrder K}.

(** ** Rebalancing after a deletion *)

(** A node whose balance factor is already in [-1, 1] only gets its
    height recomputed. *)
Lemma deleteRebalance_balanced k rs (l r : TreeNode K) h :
  -1 <= getHeight l - getHeight r <= 1 ->
  deleteRebalance (Node k rs l r h) = mkNode k rs l r.
Proof.
  intros Hb. unfold deleteRebalance; cbn [getBalance getHeight].
  repeat (zcase; try lia); reflexivity.
Qed.

Lemma deleteRebalance_left_heavy k rs (l r : TreeNode K) h :
  avl l -> avl r -> getHeight l - getHeight r = 2 ->
  avl (deleteRebalance (Node k rs l r h)) /\
  getHeight l <= getHeight (deleteRebalance (Node k rs l r h)) <= getHeight l + 1.
Proof.
  intros Hl Hr Hb. destruct l as [|kx rsx a b hx]; [cbn in Hb; avl_heights; lia|].
  pose proof Hl as Hl0. avl_inv Hl. subst hx.
  unfold deleteRebalance; cbn [getBalance getHeight] in *.
  repeat (zcase; try lia).
  - avl_close.
  - destruct b as [|kz rsz b1 b2 hz]; [cbn in *; avl_heights; lia|].
    avl_inv Har. subst hz. avl_close.
Qed.

Lemma deleteRebalance_right_heavy k rs (l r : TreeNode K) h :
  avl l -> avl r -> getHeight r - getHeight l = 2 ->
  avl (deleteRebalance (Node k rs l r h)) /\
  getHeight r <= getHeight (deleteRebalance (Node k rs l r h)) <= getHeight r + 1.
Proof.
  intros Hl Hr Hb. destruct r as [|ky rsy b c hy]; [cbn in Hb; avl_heights; lia|].
  pose proof Hr as Hr0. avl_inv Hr. subst hy.
  unfold deleteRebalance; cbn [getBalance getHeight] in *.
  repeat (zcase; try lia).
  - avl_close.
  - destruct b as [|kz rsz b1 b2 hz]; [cbn in *; avl_heights; lia|].
    avl_inv Hal. subst hz. avl_close.
Qed.

(** Each child lost at most one level of height and the node was balanced
    before: the rebalanced node is AVL, and it lost at most one level. *)
Lemma deleteRebalance_shrink k rs (l r l' r' : TreeNode K) h :
  avl l' -> avl r' -> -1 <= getHeight l - getHeight r <= 1 ->
  getHeight l - 1 <= getHeight l' <= getHeight l ->
  getHeight r - 1 <= getHeight r' <= getHeight r ->
  avl (deleteRebalance (Node k rs l' r' h)) /\
  Z.max (getHeight l) (getHeight r) <= getHeight (deleteRebalance (Node k rs l' r' h))
    <= 1 + Z.max (getHeight l) (getHeight r).
Proof.
  intros Hl Hr Hb Hhl Hhr.
  destruct (Z.le_gt_cases (getHeight l' - getHeight r') 1);
    [destruct (Z.le_gt_cases (-1) (getHeight l' - getHeight r'))|].
  - rewrite deleteRebalance_balanced by lia. unfold mkNode. avl_close.
  - destruct (deleteRebalance_right_heavy k rs l' r' h) as [Ha Hh']; auto; [lia|].
    split; [exact Ha | lia].
  - destruct (deleteRebalance_left_heavy k rs l' r' h) as [Ha Hh']; auto; [lia|].
    split; [exact Ha | lia].
Qed.
End Rebalance.

Section Remove.
Context {K : Type} `{KeyOrder K}.

(** Conclude a [deleteRebalance] step from the bounds on its children. *)
Local Ltac shrink l r :=
  match goal with
  | |- context [deleteRebalance (Node ?k ?rs ?l' ?r' ?h)] =>
      let Ha := fresh "Ha" in let Hh := fresh "Hh" in
      destruct (deleteRebalance_shrink k rs l r l' r' h) as [Ha Hh];
      try assumption; try lia; cbn [getHeight] in *; split; [exact Ha | lia]
  end.

(** [deleteNode] keeps the AVL invariant, and the height of the subtree it
    works on drops by at most one level. *)
Lemma deleteNode_avl (t : TreeNode K) key rn :
  avl t ->
  avl (deleteNode t key rn) /\
  getHeight t - 1 <= getHeight (deleteNode t key rn) <= getHeight t.
Proof.
  revert key rn. induction t as [|k rs l IHl r IHr h]; intros key rn Ha.
  - cbn. split; [constructor | lia].
  - pose proof Ha as Ha0. avl_inv Ha. subst h. avl_heights. cbn [deleteNode].
    kcases key k.
    + destruct (IHl key rn Hal) as [Hl' Hhl']. shrink l r.
    + destruct (IHr key rn Har) as [Hr' Hhr']. shrink l r.
    + destruct (rs \ rn) as [|x rs'] eqn:E;
        [|split; [apply avl_Node; assumption | cbn; lia]].
      destruct l as [|kl rsl ll lr hl]; [cbn [getHeight] in *; split; [assumption | lia]|].
      destruct r as [|kr rsr rl rr hr]; [cbn [getHeight] in *; split; [assumption | lia]|].
      cbv beta iota. destruct (findMin (Node kr rsr rl rr hr)) as [|sk [|s0 srs] sl sr sh];
        try (split; [apply avl_Node; assumption | cbn; lia]).
      destruct (IHr sk s0 Har) as [Hr' Hhr'].
      shrink (Node kl rsl ll lr hl) (Node kr rsr rl rr hr).
Qed.
End Remove.

Section Insert.
Context {K : Type} `{KeyOrder K}.

(** The shape of a subtree [t'] that [insert] made one level taller than
    [t]: no rotation happened at its root (the root key is [t]'s), the
    inserted key differs from it, and the new subtree leans by one level
    towards the side the key went to.  This is what makes the code's
    choice of rotation by [key < node->left->key] correct. *)
Definition grows (key : K) (t t' : TreeNode K) : Prop :=
  match t, t' with
  | Leaf, _ => True
  | Node k _ _ _ _, Node k' _ l' r' _ =>
      k' = k /\ key <> k /\
      (klt key k -> getHeight l' = getHeight r' + 1) /\
      (klt k key -> getHeight r' = getHeight l' + 1)
  | Node _ _ _ _ _, Leaf => False
  end.

Lemma insertRebalance_balanced key k rs (l r : TreeNode K) h :
  -1 <= getHeight l - getHeight r <= 1 ->
  insertRebalance key (Node k rs l r h) = mkNode k rs l r.
Proof.
  intros Hb. unfold insertRebalance; cbn [getBalance getHeight].
  repeat (zcase; try lia); reflexivity.
Qed.

(** A child that kept its height or grew by one level, the node was
    balanced before and did not need a rotation. *)
Lemma insert_no_rotation key k rs (l r l' r' : TreeNode K) :
  avl l' -> avl r' -> -1 <= getHeight l - getHeight r <= 1 ->
  -1 <= getHeight l' - getHeight r' <= 1 ->
  getHeight l <= getHeight l' <= getHeight l + 1 ->
  getHeight r <= getHeight r' <= getHeight r + 1 ->
  (klt key k -> r' = r) -> (klt k key -> l' = l) -> key <> k ->
  let h := 1 + Z.max (getHeight l) (getHeight r) in
  avl (mkNode k rs l' r') /\ h <= getHeight (mkNode k rs l' r') <= h + 1 /\
  (getHeight (mkNode k rs l' r') = h + 1 -> grows key (Node k rs l r h) (mkNode k rs l' r')).
Proof.
  intros Hl Hr Hb Hb' Hhl Hhr Er El Hne h. subst h.
  split; [apply avl_mkNode; assumption|]. rewrite getHeight_mkNode.
  split; [lia|]. intros Hg. cbn [grows]. repeat split; [exact Hne | |];
    intros Hk; [rewrite (Er Hk) in *|rewrite (El Hk) in *]; lia.
Qed.

(** The insertion went into the left child, which grew to two levels
    more than the right one: the code's rotation restores the height the
    node had before the insertion. *)
Lemma insert_left_rotation key k rs (l l' r : TreeNode K) h :
  avl l' -> avl r -> getHeight l' = getHeight r + 2 ->
  grows key l l' -> l <> Leaf ->
  avl (insertRebalance key (Node k rs l' r h)) /\
  getHeight (insertRebalance key (Node k rs l' r h)) = getHeight r + 2.
Proof.
  intros Hl' Hr Hh Hg Hnl. destruct l as [|kl rsl ll0 lr0 hl0]; [congruence|].
  destruct l' as [|kl' rsl' ll lr hl']; [contradiction|].
  destruct Hg as (-> & Hne & Hglt & Hggt).
  pose proof Hl' as Hl'0. avl_inv Hl'. subst hl'. avl_heights.
  unfold insertRebalance; cbn [getBalance getHeight keyLtChild keyGtChild] in *.
  zcase; [|lia]. kcases key kl; [|zcase; [lia|] | congruence].
  - specialize (Hglt Hk). avl_close.
  - specialize (Hggt Hk). destruct lr as [|kz rsz b1 b2 hz]; [cbn in *; lia|].
    avl_inv Har. subst hz. avl_close.
Qed.

Lemma insert_right_rotation key k rs (l r r' : TreeNode K) h :
  avl l -> avl r' -> getHeight r' = getHeight l + 2 ->
  grows key r r' -> r <> Leaf ->
  avl (insertRebalance key (Node k rs l r' h)) /\
  getHeight (insertRebalance key (Node k rs l r' h)) = getHeight l + 2.
Proof.
  intros Hl Hr' Hh Hg Hnr. destruct r as [|kr rsr rl0 rr0 hr0]; [congruence|].
  destruct r' as [|kr' rsr' rl rr hr']; [contradiction|].
  destruct Hg as (-> & Hne & Hglt & Hggt).
  pose proof Hr' as Hr'0. avl_inv Hr'. subst hr'. avl_heights.
  unfold insertRebalance; cbn [getBalance getHeight keyLtChild keyGtChild] in *.
  zcase; [lia|]. zcase; [|lia]. kcases key kr; [ | | congruence].
  - specialize (Hglt Hk). destruct rl as [|kz rsz b1 b2 hz]; [cbn in *; lia|].
    avl_inv Hal. subst hz. avl_close.
  - specialize (Hggt Hk). avl_close.
Qed.
End Insert.

Section InsertMain.
Context {K : Type} `{KeyOrder K}.

Lemma insertNode_grows (t : TreeNode K) key rn :
  avl t ->
  avl (insertNode t key rn) /\
  getHeight t <= getHeight (insertNode t key rn) <= getHeight t + 1 /\
  (getHeight (insertNode t key rn) = getHeight t + 1 -> grows key t (insertNode t key rn)).
Proof.
  induction t as [|k rs l IHl r IHr h]; intros Ha.
  - cbn. split; [apply avl_Node; [constructor | constructor | cbn; lia] | split; [lia | trivial]].
  - pose proof Ha as Ha0. avl_inv Ha. subst h. avl_heights. cbn [insertNode].
    kcases key k.
    + destruct (IHl Hal) as (Hl' & Hhl' & Hgl').
      destruct (Z.le_gt_cases (getHeight (insertNode l key rn) - getHeight r) 1).
      * rewrite insertRebalance_balanced by lia.
        apply insert_no_rotation; auto; try lia;
          [intros Hk'; exfalso; exact (klt_asym _ _ Hk Hk') | exact (klt_neq _ _ Hk)].
      * destruct (insert_left_rotation key k rs l (insertNode l key rn) r
                    (1 + Z.max (getHeight l) (getHeight r))) as [Ha' Hh'];
          auto; [lia | apply Hgl'; lia | intros ->; cbn [insertNode getHeight] in *; lia |].
        cbn [getHeight]. repeat split; [exact Ha' | lia | lia | intros; lia].
    + destruct (IHr Har) as (Hr' & Hhr' & Hgr').
      destruct (Z.le_gt_cases (-1) (getHeight l - getHeight (insertNode r key rn))).
      * rewrite insertRebalance_balanced by lia.
        apply insert_no_rotation; auto; try lia;
          [intros Hk'; exfalso; exact (klt_asym _ _ Hk Hk') | intros ->; exact (klt_irrefl _ Hk)].
      * destruct (insert_right_rotation key k rs l r (insertNode r key rn)
                    (1 + Z.max (getHeight l) (getHeight r))) as [Ha' Hh'];
          auto; [lia | apply Hgr'; lia | intros ->; cbn [insertNode getHeight] in *; lia |].
        cbn [getHeight]. repeat split; [exact Ha' | lia | lia | intros; lia].
    + split; [apply avl_Node; assumption|]. cbn [getHeight]. repeat split; lia.
Qed.

(** ** Theorems *)

(** [insertNode] keeps the AVL invariant; the subtree it works on grows
    by at most one level. *)
Lemma insertNode_avl (t : TreeNode K) key rn :
  avl t ->
  avl (insertNode t key rn) /\
  getHeight t <= getHeight (insertNode t key rn) <= getHeight t + 1.
Proof. intros Ha. destruct (insertNode_grows t key rn Ha) as (? & ? & _). auto. Qed.
End InsertMain.

Section Bounds.
Context {K : Type} `{KeyOrder K}.

Lemma minSize_SS n : minSize (S (S n)) = S (minSize (S n) + minSize n).
Proof. reflexivity. Qed.

Lemma minSize_succ n : (minSize n <= minSize (S n))%nat.
Proof. destruct n as [|[|n]]; cbn [minSize]; lia. Qed.

Lemma minSize_mono n m : (n <= m)%nat -> (minSize n <= minSize m)%nat.
Proof.
  induction 1 as [|m Hnm IH]; [lia|]. pose proof (minSize_succ m). lia.
Qed.

(** An AVL tree of height [h] has at least [minSize h] nodes (the
    Fibonacci-like recurrence [N(h) = N(h-1) + N(h-2) + 1]). *)
Lemma avl_minSize (t : TreeNode K) :
  avl t -> (minSize (Z.to_nat (getHeight t)) <= size t)%nat.
Proof.
  induction 1 as [|k rs l r Hl IHl Hr IHr Hb]; [cbn; lia|].
  avl_heights. cbn [getHeight size].
  replace (Z.to_nat (1 + Z.max (getHeight l) (getHeight r)))
    with (S (Z.to_nat (Z.max (getHeight l) (getHeight r)))) by lia.
  destruct (Z.to_nat (Z.max (getHeight l) (getHeight r))) as [|m] eqn:Em;
    [cbn; lia|].
  rewrite minSize_SS.
  destruct (Z.le_ge_cases (getHeight l) (getHeight r)).
  - assert (Z.to_nat (getHeight r) = S m) as Er by lia. rewrite Er in IHr.
    pose proof (minSize_mono m (Z.to_nat (getHeight l)) ltac:(lia)). lia.
  - assert (Z.to_nat (getHeight l) = S m) as El by lia. rewrite El in IHl.
    pose proof (minSize_mono m (Z.to_nat (getHeight r)) ltac:(lia)). lia.
Qed.

Lemma minSize_pow h :
  (2 ^ (h / 2) <= minSize h + 1 /\ 2 ^ (S h / 2) <= minSize (S h) + 1)%nat.
Proof.
  induction h as [|h [IH1 IH2]]; [cbn; lia|]. split; [exact IH2|].
  replace (S (S h) / 2)%nat with (S (h / 2)) by
    (replace (S (S h)) with (h + 1 * 2)%nat by lia; rewrite Nat.div_add; lia).
  rewrite minSize_SS. cbn [Nat.pow]. pose proof (minSize_succ h). lia.
Qed.

(** In an AVL tree every cached height is the number of levels. *)
Lemma avl_getHeight_depth (t : TreeNode K) : avl t -> getHeight t = Z.of_nat (depth t).
Proof.
  induction 1 as [|k rs l r Hl IHl Hr IHr Hb]; [reflexivity|].
  cbn [getHeight depth]. rewrite IHl, IHr, Nat2Z.inj_succ, Nat2Z.inj_max. lia.
Qed.

(** The cached height is logarithmic in the number of nodes:
    [2 ^ (height / 2) <= size + 1], i.e. [height <= 2 log2 (size + 1) + 1]. *)
Lemma avl_height_log (t : TreeNode K) :
  avl t -> (2 ^ (Z.to_nat (getHeight t) / 2) <= size t + 1)%nat.
Proof.
  intros Ha. pose proof (avl_minSize t Ha).
  destruct (minSize_pow (Z.to_nat (getHeight t))) as [Hp _]. lia.
Qed.
End Bounds.

(** ** The public operations *)

Section Public.
Context {K : Type} `{KeyOrder K}.

(** (C1) [BinaryTree::insert] keeps the AVL invariant of the whole tree
    (every cached height exact, every balance factor in [-1, 1]), and the
    tree grows by at most one level. *)
Theorem insert_avl (t : BinaryTree K) key rn :
  avl (root t) ->
  avl (root (insert t key rn)) /\
  getHeight (root t) <= getHeight (root (insert t key rn)) <= getHeight (root t) + 1.
Proof. intros Ha. exact (insertNode_avl (root t) key rn Ha). Qed.

(** (C2) [BinaryTree::remove] keeps the AVL invariant of the whole tree,
    and the tree loses at most one level. *)
Theorem remove_avl (t : BinaryTree K) key rn :
  avl (root t) ->
  avl (root (remove t key rn)) /\
  getHeight (root t) - 1 <= getHeight (root (remove t key rn)) <= getHeight (root t).
Proof. intros Ha. exact (deleteNode_avl (root t) key rn Ha). Qed.
End Public.

