(* ===== verification/AvlOrder.v ===== *)
(** * Search order and functional behaviour of [BinaryTree]

    The abstract view of a tree is its in-order list of entries
    [elements t : list (K * list Z)], one [(key, recordNumbers)] pair per
    node.  The abstract specification of the index is the sorted
    association list: [ainsert] and [aremove] say what [insert] and
    [remove] must do to it, [lookup] what [search] must return.

    - Rotations and both rebalancing steps leave [elements] unchanged.
    - [bst t] (invariant 1) is strict sortedness of the keys of
      [elements t]; [insertNode] refines [ainsert] on every search tree
      ([insertNode_elements]); [deleteNode] refines [aremove] on search
      trees whose id vectors are non-empty (invariant 3) and uniform
      ([deleteNode_elements]); [search] refines [lookup]
      ([search_lookup]).
    - [records_nonempty_preserved]: invariant 3 is kept on every tree.
    - [deleteNode_unfound]: [deleteNode] follows the descent of [search],
      so removing an id [search] does not return changes nothing, node
      for node, on a tree satisfying invariants 2 and 3.
    - The section [Public] restates these results for the public
      [insert], [remove] and [inOrder] of [BinaryTree] ([insert_elements],
      [remove_elements], [insert_bst], [insert_remove_nonempty], [remove_unfound],
      [inOrder_elements]).
    - The section [Successor]: the branch of [deleteNode] that copies the
      in-order successor ([successor_keeps_ids]) leaves the successor's
      key in two nodes when the successor holds a second id
      ([remove_duplicates_key], for every search tree); concrete trees
      are in [AvlScenarios]. *)

From Stdlib Require Import ZArith List Bool Lia Sorting.Sorted.
From S2P Require Import Prelude KeyOrder AvlTree AvlBalance.
Import ListNotations.

Section Order.
Context {K : Type} `{KeyOrder K}.

(** ** Abstract view and abstract operations *)

Fixpoint elements (t : TreeNode K) : list (K * list Z) :=
  match t with
  | Leaf => []
  | Node k rs l r _ => elements l ++ (k, rs) :: elements r
  end.

Definition keys (t : TreeNode K) : list K := map fst (elements t).

(** Keys strictly increasing. *)
Definition ksorted (es : list (K * list Z)) : Prop :=
  StronglySorted (fun a b => klt (fst a) (fst b)) es.

Definition bst (t : TreeNode K) : Prop := ksorted (elements t).

(** Insertion of one id into a sorted association list. *)
Fixpoint ainsert (key : K) (rn : Z) (es : list (K * list Z)) : list (K * list Z) :=
  match es with
  | [] => [(key, [rn])]
  | (k, rs) :: es' =>
      match key_compare key k with
      | Lt => (key, [rn]) :: es
      | Eq => (k, rs ++ [rn]) :: es'
      | Gt => (k, rs) :: ainsert key rn es'
      end
  end.

(** Removal of an id (every occurrence of it) from the entry of a key,
    dropping the entry when no id is left. *)
Fixpoint aremove (key : K) (rn : Z) (es : list (K * list Z)) : list (K * list Z) :=
  match es with
  | [] => []
  | (k, rs) :: es' =>
      match key_compare key k with
      | Lt => es
      | Eq => match rs \ rn with [] => es' | rs' => (k, rs') :: es' end
      | Gt => (k, rs) :: aremove key rn es'
      end
  end.

Fixpoint lookup (key : K) (es : list (K * list Z)) : list Z :=
  match es with
  | [] => []
  | (k, rs) :: es' => if key_eqb k key then rs else lookup key es'
  end.

(** ** Rotations keep the in-order sequence *)

Lemma elements_rightRotate (t : TreeNode K) : elements (rightRotate t) = elements t.
Proof.
  destruct t as [|k rs [|kx rsx a b hx] c h]; cbn; rewrite <- ?app_assoc; reflexivity.
Qed.

Lemma elements_leftRotate (t : TreeNode K) : elements (leftRotate t) = elements t.
Proof.
  destruct t as [|k rs a [|ky rsy b c hy] h]; cbn; rewrite <- ?app_assoc; reflexivity.
Qed.

Lemma elements_insertRebalance key (t : TreeNode K) :
  elements (insertRebalance key t) = elements t.
Proof.
  destruct t as [|k rs l r h]; [reflexivity|]. unfold insertRebalance.
  repeat case_if; rewrite ?elements_rightRotate, ?elements_leftRotate; cbn [elements];
    rewrite ?elements_rightRotate, ?elements_leftRotate; reflexivity.
Qed.

Lemma elements_deleteRebalance (t : TreeNode K) :
  elements (deleteRebalance t) = elements t.
Proof.
  destruct t as [|k rs l r h]; [reflexivity|]. unfold deleteRebalance.
  repeat case_if; rewrite ?elements_rightRotate, ?elements_leftRotate; cbn [elements];
    rewrite ?elements_rightRotate, ?elements_leftRotate; reflexivity.
Qed.
End Order.

#[export] Hint Rewrite @elements_rightRotate @elements_leftRotate
  @elements_insertRebalance @elements_deleteRebalance : cpp.

Section Refinement.
Context {K : Type} `{KeyOrder K}.

(** ** Sorted association lists *)

Lemma klt_compare_gt (a b : K) : klt b a -> key_compare a b = Gt.
Proof. unfold klt. intros E. rewrite key_compare_antisym, E. reflexivity. Qed.

Lemma ksorted_app_cons (L R : list (K * list Z)) x :
  ksorted (L ++ x :: R) <->
  ksorted L /\ ksorted R /\
  (forall e, In e L -> klt (fst e) (fst x)) /\ (forall e, In e R -> klt (fst x) (fst e)).
Proof.
  unfold ksorted. rewrite SSorted_app. split.
  - intros (HL & HxR & HLR). apply StronglySorted_inv in HxR as [HR Hx].
    rewrite Forall_forall in Hx. repeat split; auto.
    intros e He. apply HLR; [exact He | left; reflexivity].
  - intros (HL & HR & HLx & HxR). repeat split; auto.
    + constructor; [exact HR | apply Forall_forall; exact HxR].
    + intros a b Ha [<-|Hb]; [auto|]. eapply klt_trans; eauto.
Qed.

(** The entries of [ainsert] have the inserted key or a key already there. *)
Lemma Forall_ainsert (P : K -> Prop) key rn es :
  P key -> Forall (fun e => P (fst e)) es -> Forall (fun e => P (fst e)) (ainsert key rn es).
Proof.
  intros Hk. induction 1 as [|[k rs] es Hp Hes IH]; cbn; [auto|].
  destruct (key_compare key k); auto.
Qed.

Lemma ksorted_ainsert key rn es : ksorted es -> ksorted (ainsert key rn es).
Proof.
  unfold ksorted. induction 1 as [|[k rs] es Hs IH Hf]; cbn; [repeat constructor|].
  destruct (key_compare_spec key k) as [->|Hlt|Hgt].
  - constructor; assumption.
  - constructor; [constructor; assumption|]. constructor; [exact Hlt|].
    eapply Forall_impl; [|exact Hf]. intros e He. cbn in *. eapply klt_trans; eauto.
  - constructor; [exact IH|]. apply Forall_ainsert; assumption.
Qed.

(** [ainsert] walks past a prefix of smaller keys ... *)
Lemma ainsert_prefix key rn (L M : list (K * list Z)) :
  (forall e, In e L -> klt (fst e) key) -> ainsert key rn (L ++ M) = L ++ ainsert key rn M.
Proof.
  induction L as [|[k rs] L IH]; intros HL; [reflexivity|]. cbn.
  rewrite klt_compare_gt by (apply (HL (k, rs)); left; reflexivity).
  f_equal. apply IH. intros e He. apply HL. right. exact He.
Qed.

(** ... and stops before a larger key, whatever comes before it. *)
Lemma ainsert_app_lt key rn (L R : list (K * list Z)) k rs :
  klt key k -> ainsert key rn (L ++ (k, rs) :: R) = ainsert key rn L ++ (k, rs) :: R.
Proof.
  intros Hk. induction L as [|[k' rs'] L IH]; cbn; [now rewrite Hk|].
  destruct (key_compare key k'); [reflexivity | reflexivity | now rewrite IH].
Qed.

Lemma Forall_aremove (P : K * list Z -> Prop) key rn es :
  Forall P es -> (forall k rs, P (k, rs) -> P (k, rs \ rn)) -> Forall P (aremove key rn es).
Proof.
  intros Hes HP. induction Hes as [|[k rs] es Hp Hes IH]; cbn; [constructor|].
  destruct (key_compare key k); [|constructor; assumption|constructor; assumption].
  destruct (rs \ rn) as [|x rs'] eqn:E; [assumption|].
  constructor; [rewrite <- E; apply HP; exact Hp | exact Hes].
Qed.

Lemma ksorted_aremove key rn es : ksorted es -> ksorted (aremove key rn es).
Proof.
  unfold ksorted. induction 1 as [|[k rs] es Hs IH Hf]; cbn; [constructor|].
  destruct (key_compare key k); [| constructor; assumption |].
  - destruct (rs \ rn); [exact Hs | constructor; assumption].
  - constructor; [exact IH|]. apply Forall_aremove; [exact Hf|]. cbn. auto.
Qed.

Lemma aremove_prefix key rn (L M : list (K * list Z)) :
  (forall e, In e L -> klt (fst e) key) -> aremove key rn (L ++ M) = L ++ aremove key rn M.
Proof.
  induction L as [|[k rs] L IH]; intros HL; [reflexivity|]. cbn.
  rewrite klt_compare_gt by (apply (HL (k, rs)); left; reflexivity).
  f_equal. apply IH. intros e He. apply HL. right. exact He.
Qed.

Lemma aremove_app_lt key rn (L R : list (K * list Z)) k rs :
  klt key k -> aremove key rn (L ++ (k, rs) :: R) = aremove key rn L ++ (k, rs) :: R.
Proof.
  intros Hk. induction L as [|[k' rs'] L IH]; cbn; [now rewrite Hk|].
  destruct (key_compare key k'); [|reflexivity | now rewrite IH].
  destruct (rs' \ rn); reflexivity.
Qed.

Lemma lookup_absent key (es : list (K * list Z)) :
  (forall e, In e es -> fst e <> key) -> lookup key es = [].
Proof.
  induction es as [|[k rs] es IH]; intros Hn; [reflexivity|]. cbn.
  destruct (key_eqb k key) eqn:E.
  - apply key_eqb_spec in E. exfalso. apply (Hn (k, rs)); [left|]; auto.
  - apply IH. intros e He. apply Hn. right. exact He.
Qed.

Lemma lookup_app_l key (L M : list (K * list Z)) :
  (forall e, In e L -> fst e <> key) -> lookup key (L ++ M) = lookup key M.
Proof.
  induction L as [|[k rs] L IH]; intros Hn; [reflexivity|]. cbn.
  destruct (key_eqb k key) eqn:E.
  - apply key_eqb_spec in E. exfalso. apply (Hn (k, rs)); [left|]; auto.
  - apply IH. intros e He. apply Hn. right. exact He.
Qed.

Lemma lookup_app_r key (L M : list (K * list Z)) :
  (forall e, In e M -> fst e <> key) -> lookup key (L ++ M) = lookup key L.
Proof.
  intros Hn. induction L as [|[k rs] L IH]; cbn; [now apply lookup_absent|].
  destruct (key_eqb k key); [reflexivity | exact IH].
Qed.
End Refinement.

Section TreeRefinement.
Context {K : Type} `{KeyOrder K}.

(** Take [bst (Node ...)] apart into its two subtrees and the bounds. *)
Local Ltac bst_inv Hs :=
  let HL := fresh "HsL" in let HR := fresh "HsR" in
  let HLk := fresh "HLk" in let HkR := fresh "HkR" in
  unfold bst in Hs; cbn [elements] in Hs;
  apply ksorted_app_cons in Hs as (HL & HR & HLk & HkR); cbn [fst] in HLk, HkR.

(** On a search tree, [insertNode] does to the in-order entries exactly
    what [ainsert] does to a sorted association list. *)
Lemma insertNode_elements (t : TreeNode K) key rn :
  bst t -> elements (insertNode t key rn) = ainsert key rn (elements t).
Proof.
  induction t as [|k rs l IHl r IHr h]; intros Hs; [reflexivity|].
  bst_inv Hs. cbn [insertNode elements]. kcases key k.
  - rewrite elements_insertRebalance. cbn [elements]. rewrite IHl by exact HsL.
    now rewrite ainsert_app_lt.
  - rewrite elements_insertRebalance. cbn [elements]. rewrite IHr by exact HsR.
    rewrite ainsert_prefix by (intros e He; eapply klt_trans; eauto).
    cbn. now rewrite klt_compare_gt.
  - subst key. rewrite ainsert_prefix by exact HLk. cbn. now rewrite key_compare_refl.
Qed.

(** [insertNode] keeps the search-tree order (invariant 1). *)
Lemma insertNode_bst (t : TreeNode K) key rn : bst t -> bst (insertNode t key rn).
Proof.
  intros Hs. unfold bst. rewrite insertNode_elements by exact Hs.
  now apply ksorted_ainsert.
Qed.

(** The descent of [search] finds the entry of the key in the in-order
    list. *)
Lemma searchNode_lookup (t : TreeNode K) key :
  bst t ->
  match searchNode t key with Node _ rs _ _ _ => rs | Leaf => [] end =
  lookup key (elements t).
Proof.
  induction t as [|k rs l IHl r IHr h]; intros Hs; [reflexivity|].
  bst_inv Hs. cbn [searchNode elements]. kcases key k.
  - assert (Hne : key_eqb k key = false)
      by (apply not_true_iff_false; rewrite key_eqb_spec; intros ->; exact (klt_irrefl _ Hk)).
    rewrite Hne, IHl by exact HsL. symmetry. apply lookup_app_r.
    intros e [<-|He]; cbn; [intros ->; exact (klt_irrefl _ Hk)|].
    intros Heq. apply (klt_irrefl key). rewrite <- Heq at 2. eapply klt_trans; eauto.
  - assert (Hne : key_eqb k key = false)
      by (apply not_true_iff_false; rewrite key_eqb_spec; intros ->; exact (klt_irrefl _ Hk)).
    rewrite Hne, IHr by exact HsR. symmetry. rewrite lookup_app_l.
    + cbn. now rewrite Hne.
    + intros e He Heq. apply (klt_irrefl key). rewrite <- Heq at 1. eapply klt_trans; eauto.
  - subst key. assert (Heq : key_eqb k k = true) by now apply key_eqb_spec.
    rewrite Heq. rewrite lookup_app_l; [cbn; now rewrite Heq|].
    intros e He Hek. apply (klt_irrefl k). rewrite <- Hek at 1. auto.
Qed.

(** (C7) On a search tree, [search] returns the id vector of the entry of
    the key, or nothing. *)
Theorem search_lookup (t : BinaryTree K) key :
  bst (root t) -> search t key = lookup key (elements (root t)).
Proof. intros Hs. unfold search. now apply searchNode_lookup. Qed.
End TreeRefinement.

Section DeleteRefinement.
Context {K : Type} `{KeyOrder K}.

(** Invariant 3: no node has an empty id vector. *)
Definition nonempty_records (t : TreeNode K) : Prop :=
  Forall (fun e => snd e <> []) (elements t).

(** Every id vector holds copies of a single id. *)
Definition uniform_records (t : TreeNode K) : Prop :=
  Forall (fun e => uniform (snd e)) (elements t).

Local Ltac bst_inv Hs :=
  let HL := fresh "HsL" in let HR := fresh "HsR" in
  let HLk := fresh "HLk" in let HkR := fresh "HkR" in
  unfold bst in Hs; cbn [elements] in Hs;
  apply ksorted_app_cons in Hs as (HL & HR & HLk & HkR); cbn [fst] in HLk, HkR.

(** Split [Forall P (elements (Node ...))] into its three parts. *)
Local Ltac forall_inv Hf :=
  let HL := fresh Hf "L" in let Hx := fresh Hf "x" in let HR := fresh Hf "R" in
  cbn [elements] in Hf; apply Forall_app in Hf as [HL Hf];
  apply Forall_cons_iff in Hf as [Hx HR].

Lemma Forall_elements_Node (P : K * list Z -> Prop) k rs (l r : TreeNode K) h :
  Forall P (elements l) -> P (k, rs) -> Forall P (elements r) ->
  Forall P (elements (Node k rs l r h)).
Proof. intros; cbn [elements]; apply Forall_app; auto. Qed.

(** [findMin] of a non-empty tree is the node of its first in-order entry. *)
Lemma findMin_elements (t : TreeNode K) :
  t <> Leaf ->
  exists sk srs sl sr sh R,
    findMin t = Node sk srs sl sr sh /\ elements t = (sk, srs) :: R.
Proof.
  induction t as [|k rs l IHl r _ h]; intros Hne; [congruence|].
  destruct l as [|kl rsl ll lr hl].
  - exists k, rs, Leaf, r, h, (elements r). split; reflexivity.
  - destruct IHl as (sk & srs & sl & sr & sh & R & Hm & He); [discriminate|].
    exists sk, srs, sl, sr, sh, (R ++ (k, rs) :: elements r). split.
    + exact Hm.
    + cbn [elements] in *. rewrite He. reflexivity.
Qed.

(** On a search tree whose id vectors are non-empty and uniform,
    [deleteNode] does to the in-order entries exactly what [aremove] does to
    a sorted association list. *)
Lemma deleteNode_elements (t : TreeNode K) key rn :
  bst t -> nonempty_records t -> uniform_records t ->
  elements (deleteNode t key rn) = aremove key rn (elements t).
Proof.
  unfold nonempty_records, uniform_records.
  revert key rn. induction t as [|k rs l IHl r IHr h]; intros key rn Hs Hn Hu; [reflexivity|].
  bst_inv Hs. forall_inv Hn. forall_inv Hu. cbn [deleteNode elements]. kcases key k.
  - rewrite elements_deleteRebalance. cbn [elements]. rewrite IHl by assumption.
    now rewrite aremove_app_lt.
  - rewrite elements_deleteRebalance. cbn [elements]. rewrite IHr by assumption.
    rewrite aremove_prefix by (intros e He; eapply klt_trans; eauto).
    cbn. now rewrite klt_compare_gt.
  - subst key. rewrite aremove_prefix by exact HLk. cbn [aremove].
    rewrite key_compare_refl. destruct (rs \ rn) as [|x rs'] eqn:E; [|reflexivity].
    destruct l as [|kl rsl ll lr hl]; [reflexivity|].
    destruct r as [|kr rsr rl rr hr]; [cbn [elements]; now rewrite app_nil_r|].
    destruct (findMin_elements (Node kr rsr rl rr hr)) as (sk & srs & sl & sr & sh & R & Hm & Er);
      [discriminate|].
    cbv beta iota. rewrite Hm.
    pose proof HnR as Hn'. pose proof HuR as Hu'. rewrite Er in Hn', Hu'.
    apply Forall_cons_iff in Hn' as [Hsk _]. apply Forall_cons_iff in Hu' as [Husk _].
    cbn [snd] in Hsk, Husk.
    destruct srs as [|s0 srs]; [congruence|].
    rewrite elements_deleteRebalance. cbn [elements]. rewrite IHr by assumption.
    rewrite Er. cbn [aremove]. rewrite key_compare_refl, erase_remove_head_uniform by exact Husk.
    rewrite <- Er. reflexivity.
Qed.
End DeleteRefinement.

Section Functional.
Context {K : Type} `{KeyOrder K}.

Lemma key_eqb_refl (a : K) : key_eqb a a = true.
Proof. now apply key_eqb_spec. Qed.

Lemma key_eqb_neq (a b : K) : a <> b -> key_eqb a b = false.
Proof. intros Hne. apply not_true_iff_false. rewrite key_eqb_spec. exact Hne. Qed.

Lemma key_eqb_sym (a b : K) : key_eqb a b = key_eqb b a.
Proof.
  destruct (key_eq_dec a b) as [->|Hne]; [reflexivity|].
  rewrite !key_eqb_neq; auto.
Qed.

(** Decide [key_eqb a b] in the goal by deciding [a = b]. *)
Local Ltac keq a b :=
  destruct (key_eq_dec a b) as [<-|?];
  [rewrite ?key_eqb_refl | rewrite ?(key_eqb_neq a b) by assumption].

Lemma lookup_above key (es : list (K * list Z)) :
  Forall (fun e => klt key (fst e)) es -> lookup key es = [].
Proof.
  intros Hf. apply lookup_absent. rewrite Forall_forall in Hf.
  intros e He Heq. pose proof (Hf e He) as Hk. rewrite Heq in Hk. exact (klt_irrefl _ Hk).
Qed.

Lemma lookup_ainsert key rn k' (es : list (K * list Z)) :
  ksorted es ->
  lookup k' (ainsert key rn es) =
  if key_eqb key k' then lookup key es ++ [rn] else lookup k' es.
Proof.
  unfold ksorted. induction 1 as [|[k rs] es Hs IH Hf]; cbn [ainsert lookup].
  - keq key k'; reflexivity.
  - destruct (key_compare_spec key k) as [<-|Hlt|Hgt]; cbn [lookup].
    + rewrite key_eqb_refl. keq key k'; reflexivity.
    + rewrite (key_eqb_neq k key) by (intros ->; exact (klt_irrefl _ Hlt)).
      rewrite (lookup_above key es); [keq key k'; reflexivity|].
      eapply Forall_impl; [|exact Hf]. intros e He. eapply klt_trans; eauto.
    + rewrite IH, (key_eqb_neq k key) by (intros ->; exact (klt_irrefl _ Hgt)).
      keq key k'; [rewrite key_eqb_neq|]; auto. intros ->. exact (klt_irrefl _ Hgt).
Qed.

Lemma lookup_aremove key rn k' (es : list (K * list Z)) :
  ksorted es ->
  lookup k' (aremove key rn es) =
  if key_eqb key k' then lookup key es \ rn else lookup k' es.
Proof.
  unfold ksorted. induction 1 as [|[k rs] es Hs IH Hf]; cbn [aremove lookup].
  - keq key k'; reflexivity.
  - destruct (key_compare_spec key k) as [<-|Hlt|Hgt].
    + rewrite key_eqb_refl.
      assert (Habs : lookup key es = []) by (apply lookup_above; exact Hf).
      destruct (rs \ rn) as [|x rs'] eqn:E; cbn [lookup].
      * keq key k'; [rewrite Habs; reflexivity | reflexivity].
      * keq key k'; reflexivity.
    + assert (Habs : lookup key es = [])
        by (apply lookup_above; eapply Forall_impl; [|exact Hf];
            intros e He; eapply klt_trans; eauto).
      cbn [lookup]. keq key k'; [|reflexivity].
      rewrite (key_eqb_neq k key), Habs by (intros ->; exact (klt_irrefl _ Hlt)).
      reflexivity.
    + cbn [lookup]. rewrite IH, (key_eqb_neq k key) by (intros ->; exact (klt_irrefl _ Hgt)).
      keq key k'; [rewrite key_eqb_neq|]; auto. intros ->. exact (klt_irrefl _ Hgt).
Qed.

(** (C3) Round trip of the index: after [insert t key rn], [search]
    returns the ids filed under [key] before, followed by [rn]; every
    other key is unaffected. *)
Theorem search_insert (t : BinaryTree K) key rn k' :
  bst (root t) ->
  search (insert t key rn) k' =
  if key_eqb key k' then search t key ++ [rn] else search t k'.
Proof.
  intros Hs. unfold search, insert. cbn [root].
  rewrite !searchNode_lookup by first [exact Hs | apply insertNode_bst; exact Hs].
  rewrite insertNode_elements, lookup_ainsert by exact Hs. reflexivity.
Qed.

(** (C4) After [remove t key rn] on a search tree whose vectors are
    non-empty and uniform, [search key] returns the ids filed before
    with every copy of [rn] erased; every other key is unaffected. *)
Theorem search_remove (t : BinaryTree K) key rn k' :
  bst (root t) -> nonempty_records (root t) -> uniform_records (root t) ->
  search (remove t key rn) k' =
  if key_eqb key k' then search t key \ rn else search t k'.
Proof.
  intros Hs Hn Hu. unfold remove.
  assert (He : elements (deleteNode (root t) key rn) = aremove key rn (elements (root t)))
    by (apply deleteNode_elements; assumption).
  unfold search. cbn [root].
  rewrite !searchNode_lookup by first [exact Hs | unfold bst; rewrite He; apply ksorted_aremove; exact Hs].
  rewrite He, lookup_aremove by exact Hs. reflexivity.
Qed.

(** (C9) [remove] keeps the search-tree order on trees whose vectors
    are non-empty and uniform. *)
Theorem deleteNode_bst (t : TreeNode K) key rn :
  bst t -> nonempty_records t -> uniform_records t -> bst (deleteNode t key rn).
Proof.
  intros Hs Hn Hu. unfold bst. rewrite deleteNode_elements by assumption.
  now apply ksorted_aremove.
Qed.
End Functional.

Section Unconditional.
Context {K : Type} `{KeyOrder K}.

Local Ltac forall_inv Hf :=
  let HL := fresh Hf "L" in let Hx := fresh Hf "x" in let HR := fresh Hf "R" in
  cbn [elements] in Hf; apply Forall_app in Hf as [HL Hf];
  apply Forall_cons_iff in Hf as [Hx HR].

Local Ltac forall_node :=
  cbn [elements]; apply Forall_app; split; [|apply Forall_cons_iff; split].

(** A property of entries that holds of [(key, [rn])] and survives
    appending [rn] holds of every entry after [insert], search tree or
    not. *)
Lemma insertNode_Forall (P : K * list Z -> Prop) (t : TreeNode K) key rn :
  P (key, [rn]) -> (forall k rs, P (k, rs) -> P (k, rs ++ [rn])) ->
  Forall P (elements t) -> Forall P (elements (insertNode t key rn)).
Proof.
  intros Hnew Happ. induction t as [|k rs l IHl r IHr h]; intros Hf; [repeat constructor; exact Hnew|].
  forall_inv Hf. cbn [insertNode]. kcases key k;
    rewrite ?elements_insertRebalance; forall_node; auto.
Qed.

(** Invariant 3 after [insertNode] and [deleteNode], for every tree: no
    node is left with an empty id vector.  (On a node with two children
    whose successor's vector is empty the C++ would index an empty
    vector; the hypothesis rules that branch out.) *)
Lemma records_nonempty_preserved (t : TreeNode K) key rn :
  nonempty_records t ->
  nonempty_records (insertNode t key rn) /\ nonempty_records (deleteNode t key rn).
Proof.
  unfold nonempty_records. intros Hn. split.
  - apply insertNode_Forall; [cbn; discriminate | | exact Hn].
    intros k rs _. cbn. intros E. apply app_eq_nil in E as [_ E]. discriminate.
  - revert key rn. induction t as [|k rs l IHl r IHr h]; intros key rn; [constructor|].
    pose proof Hn as Hn0. forall_inv Hn. cbn [deleteNode]. kcases key k.
    + rewrite elements_deleteRebalance. forall_node; auto.
    + rewrite elements_deleteRebalance. forall_node; auto.
    + destruct (rs \ rn) as [|x rs'] eqn:E; [|forall_node; auto; cbn; discriminate].
      destruct l as [|kl rsl ll lr hl]; [exact HnR|].
      destruct r as [|kr rsr rl rr hr]; [exact HnL|].
      destruct (findMin_elements (Node kr rsr rl rr hr)) as (sk & srs & sl & sr & sh & R & Hm & Er);
        [discriminate|].
      cbv beta iota. rewrite Hm. pose proof HnR as Hn'. rewrite Er in Hn'.
      apply Forall_cons_iff in Hn' as [Hsk _]. cbn [snd] in Hsk.
      destruct srs as [|s0 srs]; [congruence|].
      rewrite elements_deleteRebalance. forall_node; auto.
Qed.

(** Removing under a key the tree does not hold gives back the very
    same tree, node for node (the spec's idempotence of absence, in its
    strongest form): every level of the descent recomputes a height that
    was already right and finds nothing to rotate. *)
Theorem deleteNode_absent (t : TreeNode K) key rn :
  avl t -> ~ In key (keys t) -> deleteNode t key rn = t.
Proof.
  unfold keys. induction t as [|k rs l IHl r IHr h]; intros Ha Hin; [reflexivity|].
  avl_inv Ha. subst h. cbn [elements] in Hin. rewrite map_app, in_app_iff in Hin.
  cbn [map fst In] in Hin. cbn [deleteNode]. kcases key k.
  - rewrite IHl by tauto. now rewrite deleteRebalance_balanced.
  - rewrite IHr by tauto. now rewrite deleteRebalance_balanced.
  - subst key. tauto.
Qed.

(** [deleteNode] follows the descent of [search]: when the id is not in
    the vector that descent finds, nothing is erased, no node is
    excised, and every level recomputes a height that was right. *)
Lemma deleteNode_unfound (t : TreeNode K) key rn :
  avl t -> nonempty_records t ->
  ~ In rn (match searchNode t key with Node _ rs _ _ _ => rs | Leaf => [] end) ->
  deleteNode t key rn = t.
Proof.
  induction t as [|k rs l IHl r IHr h]; intros Ha Hn Hin; [reflexivity|].
  avl_inv Ha. subst h. forall_inv Hn. cbn [deleteNode searchNode] in *. kcases key k.
  - rewrite key_eqb_neq, Hlt in Hin by (intros ->; exact (klt_irrefl _ Hk)).
    rewrite IHl by assumption. apply deleteRebalance_balanced. exact Hbal.
  - rewrite key_eqb_neq, Hlt in Hin by (intros ->; exact (klt_irrefl _ Hk)).
    rewrite IHr by assumption. apply deleteRebalance_balanced. exact Hbal.
  - subst key. rewrite (proj2 (key_eqb_spec k k) eq_refl) in Hin.
    rewrite erase_remove_absent by exact Hin. cbn [snd] in Hnx.
    destruct rs; [contradiction|reflexivity].
Qed.

(** The traversal visits the entries in in-order sequence when
    [ascending] and in exactly the reverse sequence otherwise; within an
    entry the ids come in insertion order both ways. *)
Lemma inOrderTraversal_elements {A : Type} (visit : Z -> list A) (t : TreeNode K) :
  inOrderTraversal visit t true = flat_map (fun e => flat_map visit (snd e)) (elements t) /\
  inOrderTraversal visit t false =
    flat_map (fun e => flat_map visit (snd e)) (rev (elements t)).
Proof.
  induction t as [|k rs l [IHl IHl'] r [IHr IHr'] h]; [split; reflexivity|].
  cbn [inOrderTraversal elements]. rewrite IHl, IHl', IHr, IHr'.
  rewrite rev_app_distr. cbn [rev]. rewrite <- app_assoc. cbn [app].
  rewrite !flat_map_app. cbn [flat_map]. split; reflexivity.
Qed.
End Unconditional.

(** ** The successor that keeps ids *)

Section Successor.
Context {K : Type} `{KeyOrder K}.

Local Ltac bst_inv Hs :=
  let HL := fresh "HsL" in let HR := fresh "HsR" in
  let HLk := fresh "HLk" in let HkR := fresh "HkR" in
  unfold bst in Hs; cbn [elements] in Hs;
  apply ksorted_app_cons in Hs as (HL & HR & HLk & HkR); cbn [fst] in HLk, HkR.

(** The branch of [deleteNode] that copies the in-order successor: the
    node [search] finds for [key] is left with no id once [rn] is
    erased, it has two children, and its successor [findMin(node->right)]
    holds an id other than its first one. *)
Definition successor_keeps_ids (t : TreeNode K) (key : K) (rn : Z) : Prop :=
  match searchNode t key with
  | Node _ rs l r _ =>
      rs \ rn = [] /\ l <> Leaf /\ r <> Leaf /\
      match findMin r with Node _ (s0 :: srest) _ _ _ => srest \ s0 <> [] | _ => False end
  | Leaf => False
  end.

(** Strictly sorted keys are distinct. *)
Lemma ksorted_NoDup (es : list (K * list Z)) : ksorted es -> NoDup (map fst es).
Proof.
  induction 1 as [|e es _ IH Hf]; constructor; [|exact IH].
  intros Hin. apply in_map_iff in Hin as (e' & He & Hin).
  apply (klt_irrefl (fst e)). rewrite <- He at 2. exact (proj1 (Forall_forall _ _) Hf e' Hin).
Qed.

(** Erasing an id from the node [search] finds keeps the key in the
    tree while ids remain there. *)
Lemma deleteNode_keeps_key (t : TreeNode K) key rn :
  match searchNode t key with Node _ rs _ _ _ => rs \ rn <> [] | Leaf => False end ->
  In key (keys (deleteNode t key rn)).
Proof.
  unfold keys. induction t as [|k rs l IHl r IHr h]; [intros []|].
  cbn [searchNode deleteNode]. kcases key k.
  - rewrite key_eqb_neq by (intros ->; exact (klt_irrefl _ Hk)). intros Hs.
    rewrite elements_deleteRebalance. cbn [elements]. rewrite map_app. apply in_or_app. auto.
  - rewrite key_eqb_neq by (intros ->; exact (klt_irrefl _ Hk)). intros Hs.
    rewrite elements_deleteRebalance. cbn [elements]. rewrite map_app. apply in_or_app.
    right. right. auto.
  - subst key. rewrite key_eqb_refl. destruct (rs \ rn) as [|x rs']; [congruence|].
    intros _. cbn [elements]. rewrite map_app. apply in_or_app. right. left. reflexivity.
Qed.

(** On a search tree, [search] of the key of [findMin] ends at that node. *)
Lemma findMin_searchNode (t : TreeNode K) sk srs sl sr sh :
  bst t -> findMin t = Node sk srs sl sr sh -> searchNode t sk = Node sk srs sl sr sh.
Proof.
  induction t as [|k rs l IHl r _ h]; intros Hs Hm; [discriminate|].
  destruct l as [|kl rsl ll lr hl].
  - cbn [findMin] in Hm. injection Hm as -> -> -> -> ->. cbn [searchNode]. now rewrite key_eqb_refl.
  - bst_inv Hs. destruct (findMin_elements (Node kl rsl ll lr hl)) as (sk' & srs' & sl' & sr' & sh' & R & Hm' & E);
      [discriminate|].
    change (findMin (Node kl rsl ll lr hl) = Node sk srs sl sr sh) in Hm. rewrite Hm in Hm'. injection Hm' as <- <- <- <- <-.
    assert (Hin : In (sk, srs) (elements (Node kl rsl ll lr hl))) by (rewrite E; left; reflexivity).
    cbn [elements] in Hin. apply HLk in Hin as Hlt. cbn [fst] in Hlt.
    cbn [searchNode]. rewrite key_eqb_neq by (intros ->; exact (klt_irrefl _ Hlt)).
    kcases sk k; [|exact (False_ind _ (klt_irrefl _ (klt_trans _ _ _ Hlt Hk)))|subst; exact (False_ind _ (klt_irrefl _ Hlt))].
    apply IHl; [exact HsL | exact Hm].
Qed.

(** At the node of the key, the successor's key is copied into the node
    and survives in the right subtree: it is in two nodes. *)
Lemma deleteNode_dup_keys (t : TreeNode K) key rn :
  bst t -> successor_keeps_ids t key rn -> ~ NoDup (keys (deleteNode t key rn)).
Proof.
  unfold keys, successor_keeps_ids. induction t as [|k rs l IHl r IHr h]; intros Hs Hc; [destruct Hc|].
  pose proof Hs as Hs0. bst_inv Hs. cbn [searchNode deleteNode] in *. kcases key k.
  - rewrite key_eqb_neq, Hlt in Hc by (intros ->; exact (klt_irrefl _ Hk)).
    intros Hnd. rewrite elements_deleteRebalance in Hnd. cbn [elements] in Hnd. rewrite map_app in Hnd.
    exact (IHl HsL Hc (NoDup_app_remove_r _ _ Hnd)).
  - rewrite key_eqb_neq, Hlt in Hc by (intros ->; exact (klt_irrefl _ Hk)).
    intros Hnd. rewrite elements_deleteRebalance in Hnd. cbn [elements] in Hnd. rewrite map_app in Hnd.
    apply NoDup_app_remove_l in Hnd. cbn [map] in Hnd. apply NoDup_cons_iff in Hnd as [_ Hnd].
    exact (IHr HsR Hc Hnd).
  - subst key. rewrite key_eqb_refl in Hc. destruct Hc as (E & Hl & Hr & Hm). rewrite E.
    destruct l as [|kl rsl ll lr hl]; [congruence|]. destruct r as [|kr rsr rl rr hr]; [congruence|].
    destruct (findMin (Node kr rsr rl rr hr)) as [|sk [|s0 srest] sl sr sh] eqn:Em; try contradiction.
    cbv beta iota. rewrite elements_deleteRebalance. cbn [elements fst]. rewrite map_app. cbn [map fst].
    intros Hnd. apply NoDup_app_remove_l, NoDup_cons_iff in Hnd as [Hnin _]. apply Hnin.
    apply deleteNode_keeps_key. rewrite (findMin_searchNode _ _ _ _ _ _ HsR Em).
    destruct (s0 :: srest) eqn:Es; [discriminate|]. injection Es as <- <-.
    rewrite erase_remove_cons_self. exact Hm.
Qed.
End Successor.

(** ** The public operations *)

Section Public.
Context {K : Type} `{KeyOrder K}.

(** (C5) On a search tree, [BinaryTree::insert] does to the in-order
    entries exactly what [ainsert] does to a sorted association list:
    the id is appended to the entry of its key, or a new entry is made in
    key order. *)
Theorem insert_elements (t : BinaryTree K) key rn :
  bst (root t) -> elements (root (insert t key rn)) = ainsert key rn (elements (root t)).
Proof. intros Hs. exact (insertNode_elements (root t) key rn Hs). Qed.

(** (C6) On a search tree whose id vectors are non-empty and uniform,
    [BinaryTree::remove] does to the in-order entries exactly what
    [aremove] does to a sorted association list. *)
Theorem remove_elements (t : BinaryTree K) key rn :
  bst (root t) -> nonempty_records (root t) -> uniform_records (root t) ->
  elements (root (remove t key rn)) = aremove key rn (elements (root t)).
Proof. intros Hs Hn Hu. exact (deleteNode_elements (root t) key rn Hs Hn Hu). Qed.

(** (C8) [BinaryTree::insert] keeps the search-tree order of the whole
    tree (invariant 1). *)
Theorem insert_bst (t : BinaryTree K) key rn : bst (root t) -> bst (root (insert t key rn)).
Proof. intros Hs. exact (insertNode_bst (root t) key rn Hs). Qed.

(** Invariant 3 after [BinaryTree::insert] and [BinaryTree::remove],
    for every tree: no node is left with an empty id vector. *)
Theorem insert_remove_nonempty (t : BinaryTree K) key rn :
  nonempty_records (root t) ->
  nonempty_records (root (insert t key rn)) /\ nonempty_records (root (remove t key rn)).
Proof. intros Hn. exact (records_nonempty_preserved (root t) key rn Hn). Qed.

(** (C12) Idempotence of absence (spec 4.3 and 8): on a tree with
    exact heights, balance in [-1, 1] and no empty id vector, removing an
    id that [search] does not return under the key (the key is absent,
    or holds other ids only) gives back the identical tree. *)
Theorem remove_unfound (t : BinaryTree K) key rn :
  avl (root t) -> nonempty_records (root t) -> ~ In rn (search t key) -> remove t key rn = t.
Proof.
  intros Ha Hn Hin. unfold remove. rewrite deleteNode_unfound by assumption. destruct t; reflexivity.
Qed.

(** (C32) [BinaryTree::remove] can put one key in two nodes: on any
    search tree, when the node of [key] is left with no id, has two
    children, and its in-order successor holds an id other than its
    first, the successor's key and ids are copied into the node while
    the successor itself survives in the right subtree (only its first
    id is erased there).  The resulting tree holds a key twice and is no
    longer a search tree (invariant 1 broken). *)
Theorem remove_duplicates_key (t : BinaryTree K) key rn :
  bst (root t) -> successor_keeps_ids (root t) key rn ->
  ~ NoDup (keys (root (remove t key rn))) /\ ~ bst (root (remove t key rn)).
Proof.
  intros Hs Hc. pose proof (deleteNode_dup_keys (root t) key rn Hs Hc) as Hd.
  split; [exact Hd | intros Hb; exact (Hd (ksorted_NoDup _ Hb))].
Qed.

(** (C13) [BinaryTree::inOrder] visits the entries in key order when
    [ascending] and in exactly the reverse order otherwise; within an
    entry the ids come in insertion order both ways. *)
Theorem inOrder_elements {A : Type} (t : BinaryTree K) (visit : Z -> list A) (ascending : bool) :
  inOrder t visit ascending =
  flat_map (fun e => flat_map visit (snd e))
    (if ascending then elements (root t) else rev (elements (root t))).
Proof.
  unfold inOrder. destruct ascending; apply (inOrderTraversal_elements visit (root t)).
Qed.
End Public.

