(* ===== verification/AvlIndex.v ===== *)
(** * The index as the record layer sees it

    [main.cpp] uses the tree through four calls: the constructor,
    [insert] (once per contact, after every edit the tree is rebuilt from
    scratch), [search] and [inOrder].  The class [MultiIndex] is that
    contract: an ordered multimap from keys to id vectors, with its laws.
    [BinaryTree_MultiIndex] discharges it for [BinaryTree], with the
    invariant [tree_ok] (invariants 1-3 of the spec).  [insertAll_from]
    and [lookup_fold_ainsert] describe the tree [main.cpp] builds from the
    contact vector; [App] uses them.

    [reachable] is the state machine of the public API: the empty tree,
    and anything one [insert] or [remove] makes of a reachable tree.
    [reachable_invariant] shows by rule induction that the AVL invariant
    and invariant 3 hold in every reachable state; the search-tree order
    needs the restriction of [deleteNode_bst] (see [AvlScenarios]).
    [reachable_height_log]: in every reachable tree the height cached at
    the root is its number of levels [depth], logarithmic in its size. *)

From Stdlib Require Import ZArith List Bool Lia Sorting.Sorted.
From S2P Require Import Prelude KeyOrder AvlTree AvlBalance AvlOrder.
Import ListNotations.

Class MultiIndex (K : Type) `{KeyOrder K} (T : Type) := {
  mi_empty : T;
  mi_insert : T -> K -> Z -> T;
  mi_search : T -> K -> list Z;
  mi_traverse : forall {A : Type}, T -> (Z -> list A) -> bool -> list A;
  mi_entries : T -> list (K * list Z);
  mi_ok : T -> Prop;
  mi_ok_empty : mi_ok mi_empty;
  mi_ok_insert : forall t k r, mi_ok t -> mi_ok (mi_insert t k r);
  mi_entries_empty : mi_entries mi_empty = [];
  mi_entries_insert : forall t k r, mi_ok t ->
    mi_entries (mi_insert t k r) = ainsert k r (mi_entries t);
  mi_entries_sorted : forall t, mi_ok t -> ksorted (mi_entries t);
  mi_search_entries : forall t k, mi_ok t -> mi_search t k = lookup k (mi_entries t);
  mi_traverse_entries : forall A t (visit : Z -> list A) ascending, mi_ok t ->
    mi_traverse t visit ascending =
    flat_map (fun e => flat_map visit (snd e))
      (if ascending then mi_entries t else rev (mi_entries t))
}.

Section TreeIndex.
Context {K : Type} `{KeyOrder K}.

Definition tree_ok (t : BinaryTree K) : Prop :=
  avl (root t) /\ bst (root t) /\ nonempty_records (root t).

Lemma tree_ok_insert (t : BinaryTree K) k r : tree_ok t -> tree_ok (insert t k r).
Proof.
  intros (Ha & Hs & Hn). unfold tree_ok, insert; cbn [root]. repeat split.
  - apply insertNode_avl. exact Ha.
  - apply insertNode_bst. exact Hs.
  - apply records_nonempty_preserved. exact Hn.
Qed.

#[export, refine] Instance BinaryTree_MultiIndex : MultiIndex K (BinaryTree K) := {
  mi_empty := empty;
  mi_insert := insert;
  mi_search := search;
  mi_traverse := fun A t visit asc => inOrder t visit asc;
  mi_entries := fun t => elements (root t);
  mi_ok := tree_ok
}.
Proof.
  - repeat split; constructor.
  - exact tree_ok_insert.
  - reflexivity.
  - intros t k r (_ & Hs & _). apply insertNode_elements. exact Hs.
  - intros t (_ & Hs & _). exact Hs.
  - intros t k (_ & Hs & _). unfold search. apply searchNode_lookup. exact Hs.
  - intros A t visit [|] _; unfold inOrder; apply inOrderTraversal_elements.
Defined.

(** ** The public API as a state machine *)

Inductive TreeOp : Type :=
| OpInsert (key : K) (recordNumber : Z)
| OpRemove (key : K) (recordNumber : Z).

Definition applyOp (t : BinaryTree K) (op : TreeOp) : BinaryTree K :=
  match op with
  | OpInsert k r => insert t k r
  | OpRemove k r => remove t k r
  end.

Inductive reachable : BinaryTree K -> Prop :=
| reach_empty : reachable empty
| reach_op t op : reachable t -> reachable (applyOp t op).

(** (C10) In every state reachable through the public API, the tree is
    AVL (exact cached heights, balance factors in [-1, 1]) and no node
    has an empty id vector. *)
Theorem reachable_invariant (t : BinaryTree K) :
  reachable t -> avl (root t) /\ nonempty_records (root t).
Proof.
  induction 1 as [|t [k r|k r] _ [Ha Hn]]; [split; constructor|..]; cbn [applyOp root].
  - split; [apply insertNode_avl | apply records_nonempty_preserved]; assumption.
  - split; [apply deleteNode_avl | apply records_nonempty_preserved]; assumption.
Qed.

Lemma reachable_avl (t : BinaryTree K) : reachable t -> avl (root t).
Proof.
  induction 1 as [|t [k r|k r] _ Ha]; [constructor|..]; cbn [applyOp root];
    [apply insertNode_avl | apply deleteNode_avl]; exact Ha.
Qed.

(** (C14) In every state reachable through the public API the height
    cached at the root ([getHeight], read by every rebalancing step) is
    the number of levels of the tree, and that number is logarithmic in
    the number of nodes: [2 ^ (depth / 2) <= size + 1], so a descent of
    [insert], [remove] or [search] visits at most [2 log2 (n + 1) + 1]
    nodes. *)
Theorem reachable_height_log (t : BinaryTree K) :
  reachable t ->
  getHeight (root t) = Z.of_nat (depth (root t)) /\ (2 ^ (depth (root t) / 2) <= size (root t) + 1)%nat.
Proof.
  intros Hr. pose proof (reachable_avl t Hr) as Ha. pose proof (avl_getHeight_depth _ Ha) as Hd.
  split; [exact Hd|]. pose proof (avl_height_log _ Ha) as Hl. rewrite Hd, Nat2Z.id in Hl. exact Hl.
Qed.

(** Every sequence of calls from the empty tree reaches a [reachable]
    state. *)
Lemma reachable_ops (ops : list TreeOp) : reachable (fold_left applyOp ops empty).
Proof.
  assert (Hg : forall t, reachable t -> reachable (fold_left applyOp ops t)).
  { induction ops as [|op ops IH]; intros t Ht; [exact Ht|]. apply IH. constructor. exact Ht. }
  apply Hg. constructor.
Qed.

(** Inserting a sequence of pairs into a valid tree keeps it valid and
    folds [ainsert] over its entries. *)
Lemma insertAll_from (t : BinaryTree K) (kvs : list (K * Z)) :
  tree_ok t ->
  tree_ok (insertAll t kvs) /\
  elements (root (insertAll t kvs)) = fold_left (fun es '(k, id) => ainsert k id es) kvs (elements (root t)).
Proof.
  unfold insertAll. revert t. induction kvs as [|[k id] kvs IH]; intros t Ht; [split; [exact Ht | reflexivity]|].
  cbn [fold_left]. destruct (IH (insert t k id)) as [Hok He]; [now apply tree_ok_insert|].
  split; [exact Hok|]. rewrite He. unfold insert; cbn [root].
  rewrite insertNode_elements by apply Ht. reflexivity.
Qed.

(** Looking a key up after folding [ainsert]: what was there, then the ids
    of the pairs with that key, in order. *)
Lemma lookup_fold_ainsert (kvs : list (K * Z)) es k :
  ksorted es ->
  lookup k (fold_left (fun es '(k', id) => ainsert k' id es) kvs es) =
  lookup k es ++ map snd (filter (fun '(k', _) => key_eqb k' k) kvs).
Proof.
  revert es. induction kvs as [|[k' id] kvs IH]; intros es Hs; cbn [fold_left filter map].
  - rewrite app_nil_r. reflexivity.
  - rewrite IH by (apply ksorted_ainsert; exact Hs). rewrite lookup_ainsert by exact Hs.
    destruct (key_eqb k' k) eqn:E; [|reflexivity].
    apply key_eqb_spec in E. subst k'. cbn [map]. rewrite <- app_assoc. reflexivity.
Qed.

(** (C11) The tree [main.cpp] builds (inserts only, from the empty tree)
    satisfies invariants 1-3, and its in-order entries are those of the
    sorted association list built by [ainsert]. *)
Theorem insertAll_ok (kvs : list (K * Z)) :
  tree_ok (insertAll empty kvs) /\
  elements (root (insertAll empty kvs)) =
    fold_left (fun es '(k, id) => ainsert k id es) kvs [].
Proof.
  apply insertAll_from. repeat split; constructor.
Qed.
End TreeIndex.

Arguments TreeOp K : clear implicits.
