(* ===== verification/AvlScenarios.v ===== *)
(** * The tree on concrete inputs: tests, witnesses and defects

    The key type is [string] ([std::string]).  Boolean checkers for the
    invariants ([ksortedb], [nonemptyb], [uniformb]) decide them on
    concrete trees, so the scenarios of [test.cpp] and of the spec run by
    evaluation.  The witnesses apply each theorem of the tree files at a
    concrete tree where its hypotheses hold.

    The last section shows the defects of [deleteNode] on concrete trees:
    - [remove_duplicates_key_example]: the duplicated key of
      [AvlOrder.remove_duplicates_key] after four inserts and one
      removal, with a traversal that lists an id twice;
    - [remove_resurrects_id]: in that state, removing the remaining ids
      of the key leaves an id that was removed visible to [search];
    - [remove_erases_every_copy]: [remove(key, id)] erases every copy of
      [id] under [key] (the erase-remove idiom, see [search_remove]),
      while the spec says one occurrence.
    The witnesses at the end include those of [remove_duplicates_key]
    and of [AvlIndex.reachable_height_log]. *)

From Stdlib Require Import ZArith List Bool Lia String Sorting.Sorted.
From S2P Require Import Prelude KeyOrder AvlTree AvlBalance AvlOrder AvlIndex.
Import ListNotations.
Open Scope string_scope.

Section Checkers.
Context {K : Type} `{KeyOrder K}.

Fixpoint ksortedb (es : list (K * list Z)) : bool :=
  match es with
  | a :: ((b :: _) as es') => key_lt (fst a) (fst b) && ksortedb es'
  | _ => true
  end.

Definition nonemptyb (t : TreeNode K) : bool :=
  forallb (fun e => match snd e with [] => false | _ => true end) (elements t).

Definition uniformb (t : TreeNode K) : bool :=
  forallb (fun e => match snd e with [] => true | x :: v => forallb (Z.eqb x) v end)
    (elements t).

Lemma ksortedb_sound es : ksortedb es = true -> ksorted es.
Proof.
  intros Hb. apply Sorted_StronglySorted; [intros a b c; apply klt_trans|].
  induction es as [|a es IH]; [constructor|].
  destruct es as [|b es']; [repeat constructor|].
  cbn [ksortedb] in Hb. apply andb_prop in Hb as [Hab Hb].
  constructor; [exact (IH Hb)|]. constructor. now apply key_lt_spec.
Qed.

Lemma nonemptyb_sound t : nonemptyb t = true -> nonempty_records t.
Proof.
  unfold nonemptyb, nonempty_records. rewrite forallb_forall, Forall_forall.
  intros Hb e He. specialize (Hb e He). destruct (snd e); [discriminate | congruence].
Qed.

Lemma uniformb_sound t : uniformb t = true -> uniform_records t.
Proof.
  unfold uniformb, uniform_records. rewrite forallb_forall, Forall_forall.
  intros Hb e He. specialize (Hb e He). destruct (snd e) as [|x v]; [intros ? ? []|].
  rewrite forallb_forall in Hb.
  assert (Hx : forall y, In y (x :: v) -> y = x)
    by (intros y [<-|Hy]; [reflexivity | symmetry; apply Z.eqb_eq, Hb, Hy]).
  intros a b Ha Hb'. rewrite (Hx a Ha), (Hx b Hb'). reflexivity.
Qed.

(** Discharge [tree_ok] on a concrete tree by evaluation. *)
Lemma tree_ok_check (t : BinaryTree K) :
  avlb (root t) = true -> ksortedb (elements (root t)) = true ->
  nonemptyb (root t) = true -> tree_ok t.
Proof.
  intros Ha Hs Hn. repeat split.
  - now apply avlb_spec.
  - now apply ksortedb_sound.
  - now apply nonemptyb_sound.
Qed.
End Checkers.

(** ** [test.cpp] *)

Module testAVLInsertion.

(** The seven contacts of [testAVLInsertion] and [testAVLDeletion]. *)
Definition testContacts : list (string * Z) :=
  [("Елена", 1); ("Алексей", 2); ("Мария", 3); ("Игорь", 4);
   ("Сергей", 5); ("Анна", 6); ("Дмитрий", 7)].

Definition t7 : BinaryTree string := insertAll empty testContacts.

(** [assert(!result.empty() && result[0] == id)]: [&&] short-circuits, so
    an empty result fails the assertion without reading [result[0]]. *)
Definition assertFirst (result : list Z) (i : Z) : bool :=
  match result with
  | r :: _ => Z.eqb r i
  | [] => false
  end.

(** [assert(result.empty())]. *)
Definition assertEmpty (result : list Z) : bool :=
  match result with
  | [] => true
  | _ => false
  end.

(** The three [assert]s of [testAVLInsertion], in the order they run. *)
Definition asserts : list bool :=
  [assertFirst (search t7 "Мария") 3; assertFirst (search t7 "Игорь") 4;
   assertEmpty (search t7 "Петр")].
End testAVLInsertion.
Import testAVLInsertion.

(** [testAVLInsertion]: the three assertions hold, the searches return
    exactly these ids, and the height of the tree is 3 (within the
    spec's bound of 4 for seven nodes). *)
Example testAVLInsertion_asserts :
  testAVLInsertion.asserts = [true; true; true] /\
  search t7 "Мария" = [3] /\ search t7 "Игорь" = [4] /\ search t7 "Петр" = [] /\
  getHeight (root t7) = 3.
Proof. vm_compute. repeat split. Qed.

(** The ascending and descending traversals of [testAVLInsertion], in the
    byte order of the UTF-8 names. *)
Example testAVLInsertion_traversals :
  visitIds t7 true = [2; 6; 7; 1; 4; 3; 5] /\ visitIds t7 false = [5; 3; 4; 1; 7; 6; 2].
Proof. vm_compute. split; reflexivity. Qed.

(** [testAVLDeletion]: removing "Мария" 3, the absent "Петр" 8 and
    "Елена" 1; both removed names are gone and the rest is in order. *)
Definition t7del : BinaryTree string :=
  remove (remove (remove t7 "Мария" 3) "Петр" 8) "Елена" 1.

(** The two [assert]s of [testAVLDeletion]: "Мария" is gone after the
    first removal, "Елена" after the third. *)
Definition testAVLDeletion : list bool :=
  [assertEmpty (search (remove t7 "Мария" 3) "Мария"); assertEmpty (search t7del "Елена")].

Example testAVLDeletion_asserts :
  testAVLDeletion = [true; true] /\
  search t7del "Мария" = [] /\ search t7del "Елена" = [] /\
  visitIds t7del true = [2; 6; 7; 4; 5] /\ tree_ok t7del.
Proof.
  split; [vm_compute; reflexivity|]. split; [vm_compute; reflexivity|].
  split; [vm_compute; reflexivity|]. split; [vm_compute; reflexivity|].
  apply tree_ok_check; vm_compute; reflexivity.
Qed.

(** The multi-value scenario of the spec (section 8). *)
Definition anna2 : BinaryTree string := insertAll empty [("Anna", 1); ("Anna", 2)].

Example multi_value_scenario :
  search anna2 "Anna" = [1; 2] /\
  search (remove anna2 "Anna" 1) "Anna" = [2] /\
  search (remove (remove anna2 "Anna" 1) "Anna" 2) "Anna" = [] /\
  keys (root (remove (remove anna2 "Anna" 1) "Anna" 2)) = [].
Proof. vm_compute. repeat split. Qed.

(** ** Witnesses: each theorem at a concrete tree *)

Lemma t7_avl : avl (root t7).
Proof. apply avlb_spec. vm_compute. reflexivity. Qed.

Lemma t7_bst : bst (root t7).
Proof. apply ksortedb_sound. vm_compute. reflexivity. Qed.

Lemma t7_nonempty : nonempty_records (root t7).
Proof. apply nonemptyb_sound. vm_compute. reflexivity. Qed.

Lemma t7_uniform : uniform_records (root t7).
Proof. apply uniformb_sound. vm_compute. reflexivity. Qed.

Lemma insert_avl_witness :
  avl (root t7) /\ avl (root (insert t7 "Петр" 8)) /\
  getHeight (root t7) <= getHeight (root (insert t7 "Петр" 8)) <= getHeight (root t7) + 1.
Proof. split; [exact t7_avl | exact (insert_avl t7 "Петр" 8 t7_avl)]. Defined.

Lemma remove_avl_witness :
  avl (root t7) /\ avl (root (remove t7 "Елена" 1)) /\
  getHeight (root t7) - 1 <= getHeight (root (remove t7 "Елена" 1)) <= getHeight (root t7).
Proof. split; [exact t7_avl | exact (remove_avl t7 "Елена" 1 t7_avl)]. Defined.

Lemma insert_elements_witness :
  bst (root t7) /\
  elements (root (insert t7 "Петр" 8)) = ainsert "Петр" 8 (elements (root t7)).
Proof. split; [exact t7_bst | exact (insert_elements t7 "Петр" 8 t7_bst)]. Defined.

Lemma insert_bst_witness : bst (root t7) /\ bst (root (insert t7 "Петр" 8)).
Proof. split; [exact t7_bst | exact (insert_bst t7 "Петр" 8 t7_bst)]. Defined.

Lemma search_lookup_witness :
  bst (root t7) /\ search t7 "Игорь" = lookup "Игорь" (elements (root t7)).
Proof. split; [exact t7_bst | exact (search_lookup t7 "Игорь" t7_bst)]. Defined.

Lemma remove_elements_witness :
  bst (root t7) /\ nonempty_records (root t7) /\ uniform_records (root t7) /\
  elements (root (remove t7 "Елена" 1)) = aremove "Елена" 1 (elements (root t7)).
Proof.
  split; [exact t7_bst|]. split; [exact t7_nonempty|]. split; [exact t7_uniform|].
  exact (remove_elements t7 "Елена" 1 t7_bst t7_nonempty t7_uniform).
Defined.

Lemma search_insert_witness :
  bst (root t7) /\
  search (insert t7 "Мария" 8) "Мария" =
    (if key_eqb "Мария" "Мария" then (search t7 "Мария" ++ [8])%list else search t7 "Мария").
Proof. split; [exact t7_bst | exact (search_insert t7 "Мария" 8 "Мария" t7_bst)]. Defined.

Lemma search_remove_witness :
  bst (root t7) /\ nonempty_records (root t7) /\ uniform_records (root t7) /\
  search (remove t7 "Мария" 3) "Мария" =
    (if key_eqb "Мария" "Мария" then (search t7 "Мария" \ 3)%cpp else search t7 "Мария").
Proof.
  split; [exact t7_bst|]. split; [exact t7_nonempty|]. split; [exact t7_uniform|].
  exact (search_remove t7 "Мария" 3 "Мария" t7_bst t7_nonempty t7_uniform).
Defined.

Lemma deleteNode_bst_witness :
  bst (root t7) /\ nonempty_records (root t7) /\ uniform_records (root t7) /\
  bst (deleteNode (root t7) "Елена" 1).
Proof.
  split; [exact t7_bst|]. split; [exact t7_nonempty|]. split; [exact t7_uniform|].
  exact (deleteNode_bst (root t7) "Елена" 1 t7_bst t7_nonempty t7_uniform).
Defined.

Lemma insert_remove_nonempty_witness :
  nonempty_records (root t7) /\
  nonempty_records (root (insert t7 "Анна" 6)) /\
  nonempty_records (root (remove t7 "Анна" 6)).
Proof.
  split; [exact t7_nonempty | exact (insert_remove_nonempty t7 "Анна" 6 t7_nonempty)].
Defined.

Lemma deleteNode_absent_witness :
  avl (root t7) /\ ~ In "Петр" (keys (root t7)) /\ deleteNode (root t7) "Петр" 8 = root t7.
Proof.
  assert (Hn : ~ In "Петр" (keys (root t7))).
  { vm_compute. intros Hin. repeat (destruct Hin as [Hin|Hin]; [discriminate|]). exact Hin. }
  split; [exact t7_avl|]. split; [exact Hn|].
  exact (deleteNode_absent (root t7) "Петр" 8 t7_avl Hn).
Defined.

Lemma remove_unfound_witness :
  avl (root t7) /\ nonempty_records (root t7) /\ ~ In 9%Z (search t7 "Мария") /\
  remove t7 "Мария" 9 = t7.
Proof.
  assert (Hn : ~ In 9%Z (search t7 "Мария")) by (vm_compute; intros [H|[]]; discriminate).
  split; [exact t7_avl|]. split; [exact t7_nonempty|]. split; [exact Hn|].
  exact (remove_unfound t7 "Мария" 9 t7_avl t7_nonempty Hn).
Defined.

Definition someOps : list (TreeOp string) :=
  [OpInsert "B" 1; OpInsert "A" 2; OpInsert "C" 3; OpInsert "C" 4; OpRemove "B" 1].

Lemma reachable_invariant_witness :
  reachable (fold_left applyOp someOps empty) /\
  avl (root (fold_left applyOp someOps empty)) /\
  nonempty_records (root (fold_left applyOp someOps empty)).
Proof.
  split; [exact (reachable_ops someOps)|].
  exact (reachable_invariant _ (reachable_ops someOps)).
Defined.

(** ** Defects of [deleteNode] *)

(** Four inserts give a correct tree: "B" at the root, "A" left, "C" right
    with the ids [3; 4]. *)
Definition bug0 : BinaryTree string :=
  insertAll empty [("B", 1); ("A", 2); ("C", 3); ("C", 4)].

(** Removing the root's only id: the root has two children, its successor
    is "C" with [3; 4]; the root takes "C" and [3; 4], then only the id 3
    is erased from the old "C" node, which keeps [4]. *)
Definition bug1 : BinaryTree string := remove bug0 "B" 1.

(** The defect of [remove_duplicates_key] on a tree built by four
    inserts: removing ("B", 1) gives a tree whose in-order keys are "A",
    "C", "C" and whose ascending traversal lists the id 4, inserted once,
    twice. *)
Example remove_duplicates_key_example :
  tree_ok bug0 /\ keys (root bug1) = ["A"; "C"; "C"] /\ ~ bst (root bug1) /\
  visitIds bug1 true = [2; 3; 4; 4].
Proof.
  split; [apply tree_ok_check; vm_compute; reflexivity|].
  assert (Hk : keys (root bug1) = ["A"; "C"; "C"]) by (vm_compute; reflexivity).
  split; [exact Hk|]. split; [|vm_compute; reflexivity].
  intros Hs. unfold bst, ksorted in Hs.
  assert (He : elements (root bug1) = [("A", [2]); ("C", [3; 4]); ("C", [4])])
    by (vm_compute; reflexivity).
  rewrite He in Hs. apply StronglySorted_inv in Hs as [Hs _].
  apply StronglySorted_inv in Hs as [_ Hf]. apply Forall_inv in Hf.
  exact (klt_irrefl "C" Hf).
Qed.

(** In that state, removing the ids 3 and then 4 under "C" leaves
    [search "C"] returning [4]: an id that was removed is still found,
    where the abstract specification ([aremove], [lookup]) has no id left
    under "C". *)
Theorem remove_resurrects_id :
  search (remove (remove bug1 "C" 3) "C" 4) "C" = [4] /\
  lookup "C" (aremove "C" 4 (aremove "C" 3 (aremove "B" 1 (elements (root bug0))))) = [].
Proof. vm_compute. split; reflexivity. Qed.

(** The id 1 filed twice under "Anna". *)
Definition annaTwice : BinaryTree string := insertAll empty [("Anna", 1); ("Anna", 1)].

(** [remove(key, id)] erases every copy of [id] under [key] (see
    [search_remove]), not one occurrence: with the id 1 filed twice under
    "Anna", one [remove] leaves nothing. *)
Example remove_erases_every_copy :
  search annaTwice "Anna" = [1; 1] /\ search (remove annaTwice "Anna" 1) "Anna" = [].
Proof. vm_compute. split; reflexivity. Qed.

Lemma remove_duplicates_key_witness :
  bst (root bug0) /\ successor_keeps_ids (root bug0) "B" 1 /\
  ~ NoDup (keys (root (remove bug0 "B" 1))) /\ ~ bst (root (remove bug0 "B" 1)).
Proof.
  assert (Hs : bst (root bug0))
    by (refine (proj1 (proj2 (tree_ok_check bug0 _ _ _))); vm_compute; reflexivity).
  assert (Hc : successor_keeps_ids (root bug0) "B" 1)
    by (vm_compute; split; [reflexivity | split; [discriminate | split; discriminate]]).
  split; [exact Hs | split; [exact Hc | exact (remove_duplicates_key bug0 "B" 1 Hs Hc)]].
Defined.

Lemma reachable_height_log_witness :
  reachable (fold_left applyOp (map (fun '(k, i) => OpInsert k i) testContacts ++ [OpRemove "Мария" 3]) empty) /\
  getHeight (root t7) = 3 /\ getHeight (root (remove t7 "Мария" 3)) = Z.of_nat (depth (root (remove t7 "Мария" 3))) /\
  (2 ^ (depth (root (remove t7 "Мария" 3)) / 2) <= size (root (remove t7 "Мария" 3)) + 1)%nat.
Proof.
  pose proof (reachable_ops (map (fun '(k, i) => OpInsert k i) testContacts ++ [OpRemove "Мария" 3])) as Hr.
  assert (E : fold_left applyOp (map (fun '(k, i) => OpInsert k i) testContacts ++ [OpRemove "Мария" 3]) empty
              = remove t7 "Мария" 3) by (vm_compute; reflexivity).
  split; [exact Hr | split; [vm_compute; reflexivity|]]. rewrite E in Hr.
  exact (reachable_height_log _ Hr).
Defined.
