(* ===== verification/App.v ===== *)
(** * The console program of [src/main.cpp]

    [main] keeps five pieces of state across menu choices: the contact
    vector, the index arrays, the tree, the sorted list and main's own
    copy of the list's sort attributes; [contact.cpp] adds the global id
    counter, and menu items 19, 20 and 0 use files.  [AppState] holds them
    all, the files as a map from names to contents.

    One iteration of the [while(true)] loop is [step]: a [Command] is a
    menu choice with the lines it reads, the result is the new state, what
    the program prints ([Output]) and whether it goes on ([Running]),
    leaves by choice 0 ([Exited]) or dies of an exception that nothing
    catches ([Terminated]).  Each group of menu items is a definition of
    its own.  Item 18 carries the answers as typed: [readChoice] reads
    them one at a time and the first that is not 1 or 2 ends the item;
    [Unknown] carries only numbers outside 0-20.  [startup] is the code
    before the loop, on the fields [readInputs] accepts from the console.

    [std::sort] is a parameter [sortImpl] of the section, any function
    whose results satisfy [sortIndices]; the theorems assume only that.

    Theorems: every reachable state keeps the tree and the index arrays
    equal to what [main] would build from the current vector
    ([appInv]); while no contact has been deleted, every search by name
    (binary searches and the tree) prints exactly the contacts with that
    name; after a deletion, the tree search for a contact stored after
    the deleted one no longer prints it; every contact held is valid. *)

From Stdlib Require Import ZArith List Bool Lia String Sorting.Sorted Sorting.Permutation.
From S2P Require Import Prelude KeyOrder Contact IndexSearch LinkedList Persistence.
From S2P Require Import AvlTree AvlBalance AvlOrder AvlIndex.
Import ListNotations.

(** What the program prints, one constructor per kind of message. *)
Inductive Output : Type :=
| OutContact (c : Contact)
| OutBadId (id : Z)
| OutIdNotFound (id : Z)
| OutNotFound (key : string)
| OutListEmpty
| OutRemoved
| OutListNotFound (key : string)
| OutEdited
| OutEditNotFound (key : string)
| OutDeleted
| OutDeleteNotFound (key : string)
| OutSortChanged
| OutBadChoice
| OutInvalidMenu.

Inductive Status : Type := Running | Exited | Terminated (e : Exn).

Definition FileSystem : Type := string -> option string.

Definition writeFile (fs : FileSystem) (filename content : string) : FileSystem :=
  fun n => if String.eqb n filename then Some content else fs n.

Record AppState : Type := mkAppState {
  contacts : list Contact;
  indices : IndexArray;
  tree : BinaryTree string;
  sortedList : LinkedList;
  primaryAttr : PrimarySortAttribute.t;
  secondaryAttr : SecondarySortAttribute.t;
  primaryOrder : SortOrder.t;
  secondaryOrder : SortOrder.t;
  global_id_counter : Z;
  files : FileSystem
}.

(** The menu: each choice with the lines it reads. *)
Inductive Command : Type :=
| PrintAll                                        (* 1 *)
| PrintName (ascending : bool)                    (* 2, 3 *)
| PrintCity (ascending : bool)                    (* 4, 5 *)
| SearchName (recursive : bool) (key : string)    (* 6, 7 *)
| SearchCity (recursive : bool) (key : string)    (* 8, 9 *)
| Edit (key newName newPhone newCity : string)    (* 10 *)
| Delete (key : string)                           (* 11 *)
| TreePrint (ascending : bool)                    (* 12, 13 *)
| TreeSearch (key : string)                       (* 14 *)
| ListPrint                                       (* 15 *)
| ListSearch (key : string)                       (* 16 *)
| ListRemove (key : string)                       (* 17 *)
| ChangeSort (answers : list Z)                   (* 18 *)
| ListSave (filename : string)                    (* 19 *)
| ListLoad (filename : string)                    (* 20 *)
| ExitProgram                                     (* 0 *)
| Unknown (choice : Z)                            (* default *)
    (notItem : (choice <? 0) || (20 <? choice) = true).

Section Program.
Variable sortImpl : IndexArray -> IndexArray.

(** The tree and the list as [main] fills them from the vector. *)
Definition buildTree (cs : list Contact) : BinaryTree string :=
  insertAll BinaryTree.empty (map (fun c => (name c, id c)) cs).

Definition buildList (pa : PrimarySortAttribute.t) (sa : SecondarySortAttribute.t)
    (po so : SortOrder.t) (cs : list Contact) : LinkedList :=
  fold_left LinkedList.insert cs (newLinkedList pa sa po so).

(** Everything before the loop: [inputContacts] from an empty vector and
    the counter at 1, then the indices, the tree and the list. *)
Definition startup (inputs : list (string * string * string)) (fs : FileSystem) : AppState :=
  let '(cs, ctr) := inputContacts [] 1 inputs in
  mkAppState cs (sortImpl (buildIndices cs)) (buildTree cs)
    (buildList PrimarySortAttribute.NAME SecondarySortAttribute.CITY
               SortOrder.ASCENDING SortOrder.ASCENDING cs)
    PrimarySortAttribute.NAME SecondarySortAttribute.CITY SortOrder.ASCENDING SortOrder.ASCENDING
    ctr fs.

(** [printSortedByName] and [printSortedByCity]: each entry is looked up
    by id with [std::find_if]. *)
Definition printSorted (cs : list Contact) (index : list Index) : list Output :=
  flat_map (fun idx => match List.find (fun c => id c =? recordNumber idx) cs with
                       | Some c => [OutContact c]
                       | None => [OutIdNotFound (recordNumber idx)]
                       end) index.

(** The loop over found ids of menu items 6 to 9 and 14:
    [contacts[id - 1]] when [id - 1] is in range. *)
Definition printIds (cs : list Contact) (key : string) (ids : list Z) : list Output :=
  match ids with
  | [] => [OutNotFound key]
  | _ => flat_map (fun i => match resolve cs i with
                            | Some c => [OutContact c]
                            | None => [OutBadId i]
                            end) ids
  end.

(** Menu items 6 to 9. *)
Definition searchIndex (s : AppState) (byName recursive : bool) (key : string) : list Output :=
  let index := if byName then nameIndexAsc (indices s) else cityIndexAsc (indices s) in
  let ids := if recursive then searchRecursiveFromMain index key
             else binarySearchIterative index key in
  printIds (contacts s) key ids.

(** After menu items 10 and 11: the tree and the list are rebuilt from the
    vector, the list with [main]'s own attributes. *)
Definition rebuild (s : AppState) (cs : list Contact) (ia : IndexArray) : AppState :=
  mkAppState cs ia (buildTree cs)
    (buildList (primaryAttr s) (secondaryAttr s) (primaryOrder s) (secondaryOrder s) cs)
    (primaryAttr s) (secondaryAttr s) (primaryOrder s) (secondaryOrder s)
    (global_id_counter s) (files s).

(** Menu item 10: [editContact] rebuilds and sorts the indices when it
    found the contact. *)
Definition stepEdit (s : AppState) (key newName newPhone newCity : string) : AppState * list Output :=
  let '(cs, found) := editContact (contacts s) key newName newPhone newCity in
  if found then (rebuild s cs (sortImpl (buildIndices cs)), [OutEdited])
  else (rebuild s cs (indices s), [OutEditNotFound key]).

(** Menu item 11: [deleteContact] rebuilds and sorts the indices when it
    removed something. *)
Definition stepDelete (s : AppState) (key : string) : AppState * list Output :=
  let '(cs, removed) := deleteContact (contacts s) key in
  if removed then (rebuild s cs (sortImpl (buildIndices cs)), [OutDeleted])
  else (rebuild s cs (indices s), [OutDeleteNotFound key]).

Definition setSortedList (s : AppState) (ll : LinkedList) : AppState :=
  mkAppState (contacts s) (indices s) (tree s) ll (primaryAttr s) (secondaryAttr s)
    (primaryOrder s) (secondaryOrder s) (global_id_counter s) (files s).

(** [printContacts] of [contact.cpp]: every contact of the vector. *)
Definition printContacts (cs : list Contact) : list Output := map OutContact cs.

(** [LinkedList::printSorted]: the chain from [head], or the message of
    an empty list. *)
Definition printSortedList (ll : LinkedList) : list Output :=
  match head ll with
  | [] => [OutListEmpty]
  | l => map OutContact l
  end.

(** The body of the loop of [inOrderTraversal] over a node's ids:
    [contacts[id - 1]] when [id - 1] is in range, nothing otherwise. *)
Definition visitContact (cs : list Contact) (i : Z) : list Output :=
  match resolve cs i with
  | Some c => [OutContact c]
  | None => []
  end.

(** What [LinkedList::search] prints: the matches, or "not found". *)
Definition searchOut (ll : LinkedList) (key : string) : list Output :=
  match LinkedList.search ll key with
  | [] => [OutListNotFound key]
  | l => map OutContact l
  end.

(** The message [LinkedList::remove] ends with. *)
Definition removeOut (key : string) (outcome : RemoveOutcome) : Output :=
  match outcome with
  | ListEmpty => OutListEmpty
  | Removed => OutRemoved
  | NotFound => OutListNotFound key
  end.

(** Menu items 12 to 14: the traversal in either direction, and the
    search with its loop over the ids found. *)
Definition stepTree (s : AppState) (cmd : Command) : list Output :=
  match cmd with
  | TreePrint asc => inOrder (tree s) (visitContact (contacts s)) asc
  | TreeSearch key => printIds (contacts s) key (BinaryTree.search (tree s) key)
  | _ => []
  end.

(** Menu items 15 to 17. *)
Definition stepList (s : AppState) (cmd : Command) : AppState * list Output :=
  match cmd with
  | ListPrint => (s, printSortedList (sortedList s))
  | ListSearch key => (s, searchOut (sortedList s) key)
  | ListRemove key =>
      let '(ll, outcome) := LinkedList.remove (sortedList s) key in
      (setSortedList s ll, [removeOut key outcome])
  | _ => (s, [])
  end.

(** [std::cin >> choice] in menu item 18: the next answer typed; with
    none left the extraction fails and stores 0. *)
Definition readChoice (answers : list Z) : Z * list Z :=
  match answers with [] => (0, []) | a :: rest => (a, rest) end.

(** Menu item 18: the four answers are read one at a time, and the first
    that is not 1 or 2 sends the program back to the menu before the next
    is read; only the list changes, [main]'s [primaryAttr] and the others
    keep their values. *)
Definition stepChangeSort (s : AppState) (answers : list Z) : AppState * list Output :=
  let ord choice := if choice =? 1 then Some SortOrder.ASCENDING
                    else if choice =? 2 then Some SortOrder.DESCENDING else None in
  let '(p, a1) := readChoice answers in
  match (if p =? 1 then Some PrimarySortAttribute.NAME
         else if p =? 2 then Some PrimarySortAttribute.CITY else None) with
  | None => (s, [OutBadChoice])
  | Some pa =>
      let '(sc, a2) := readChoice a1 in
      match (if sc =? 1 then Some SecondarySortAttribute.NAME
             else if sc =? 2 then Some SecondarySortAttribute.CITY else None) with
      | None => (s, [OutBadChoice])
      | Some sa =>
          let '(po, a3) := readChoice a2 in
          match ord po with
          | None => (s, [OutBadChoice])
          | Some o1 =>
              let '(so, _) := readChoice a3 in
              match ord so with
              | None => (s, [OutBadChoice])
              | Some o2 => (setSortedList s (changeSortAttributes (sortedList s) pa sa o1 o2),
                            [OutSortChanged])
              end
          end
      end
  end.

Definition setFiles (s : AppState) (fs : FileSystem) : AppState :=
  mkAppState (contacts s) (indices s) (tree s) (sortedList s) (primaryAttr s) (secondaryAttr s)
    (primaryOrder s) (secondaryOrder s) (global_id_counter s) fs.

(** Menu item 19: [sortedList.saveToFile(filename)] writes the list to
    the file of the name read. *)
Definition stepSave (s : AppState) (filename : string) : AppState :=
  setFiles s (writeFile (files s) filename (saveToFile (sortedList s))).

(** Menu item 20: an exception of [std::stoi] is not caught and ends the
    program. *)
Definition stepLoad (s : AppState) (filename : string) : AppState * list Output * Status :=
  let '(ll, ctr, err) := loadFromFile (files s filename) (sortedList s) (global_id_counter s) in
  let s' := mkAppState (contacts s) (indices s) (tree s) ll (primaryAttr s) (secondaryAttr s)
              (primaryOrder s) (secondaryOrder s) ctr (files s) in
  match err with
  | None => (s', [], Running)
  | Some e => (s', [], Terminated e)
  end.

(** One iteration of the menu loop. *)
Definition step (s : AppState) (cmd : Command) : AppState * list Output * Status :=
  match cmd with
  | PrintAll => (s, printContacts (contacts s), Running)
  | PrintName asc =>
      (s, printSorted (contacts s) (if asc then nameIndexAsc (indices s) else nameIndexDesc (indices s)), Running)
  | PrintCity asc =>
      (s, printSorted (contacts s) (if asc then cityIndexAsc (indices s) else cityIndexDesc (indices s)), Running)
  | SearchName recursive key => (s, searchIndex s true recursive key, Running)
  | SearchCity recursive key => (s, searchIndex s false recursive key, Running)
  | Edit key n p c => let '(s', out) := stepEdit s key n p c in (s', out, Running)
  | Delete key => let '(s', out) := stepDelete s key in (s', out, Running)
  | TreePrint _ | TreeSearch _ => (s, stepTree s cmd, Running)
  | ListPrint | ListSearch _ | ListRemove _ => let '(s', out) := stepList s cmd in (s', out, Running)
  | ChangeSort answers => let '(s', out) := stepChangeSort s answers in (s', out, Running)
  | ListSave filename => (stepSave s filename, [], Running)
  | ListLoad filename => stepLoad s filename
  | ExitProgram =>
      (setFiles s (writeFile (writeFile (files s) "contacts.csv" (saveContactsToFile (contacts s)))
                             "linked_list.csv" (saveToFile (sortedList s))), [], Exited)
  | Unknown _ _ => (s, [OutInvalidMenu], Running)
  end.

(** A session: the commands are executed while the program runs. *)
Fixpoint run (s : AppState) (cmds : list Command) : AppState * list Output * Status :=
  match cmds with
  | [] => (s, [], Running)
  | cmd :: rest =>
      let '(s', out, st) := step s cmd in
      match st with
      | Running => let '(s'', out', st') := run s' rest in (s'', out ++ out', st')
      | _ => (s', out, st)
      end
  end.
End Program.

(** ** Invariants of the program *)

Lemma deleteContact_unchanged cs key :
  snd (deleteContact cs key) = false -> fst (deleteContact cs key) = cs.
Proof.
  unfold deleteContact, remove_if. cbn [fst snd]. intros H.
  apply negb_false_iff, Nat.eqb_eq, filter_length_forallb in H.
  apply filter_all_true. intros x Hx. rewrite forallb_forall in H. auto.
Qed.

(** The vector, the index arrays and the tree of a state. *)
Definition core (s : AppState) : list Contact * IndexArray * BinaryTree string :=
  (contacts s, indices s, tree s).

Definition changesContacts (cmd : Command) : bool :=
  match cmd with Edit _ _ _ _ | Delete _ => true | _ => false end.

(** Case analysis of menu item 18: every answer read and every test on it. *)
Ltac changeSort_cases :=
  unfold stepChangeSort, readChoice;
  repeat match goal with
  | |- context [match ?l with [] => _ | _ :: _ => _ end] => is_var l; destruct l
  | |- context [if ?b then _ else _] => destruct b
  end.

(** Only menu items 10 and 11 touch the vector, the indices and the tree. *)
Lemma step_core sortImpl s cmd :
  changesContacts cmd = false -> core (fst (fst (step sortImpl s cmd))) = core s.
Proof.
  destruct cmd; cbn [changesContacts]; intros H; try discriminate; cbn [step]; try reflexivity.
  - unfold stepList. destruct (LinkedList.remove (sortedList s) key). reflexivity.
  - changeSort_cases; reflexivity.
  - unfold stepLoad. destruct (loadFromFile _ _ _) as [[ll ctr] [e|]]; reflexivity.
Qed.

Section Correctness.
Variable sortImpl : IndexArray -> IndexArray.
Hypothesis sortImpl_ok : forall ia, sortIndices ia (sortImpl ia).

(** The index arrays are a sorted form of the vector's entries and the
    tree is the tree [main] builds from the vector. *)
Definition appInv (s : AppState) : Prop :=
  sortIndices (buildIndices (contacts s)) (indices s) /\ tree s = buildTree (contacts s).

(** The states of the program: after [startup] on the fields the retry
    loops of [inputContacts] accept from the console, and after any menu
    item. *)
Inductive reachable : AppState -> Prop :=
| reach_start numContacts lines rest inputs fs :
    readInputs numContacts lines = Some (inputs, rest) -> reachable (startup sortImpl inputs fs)
| reach_step s cmd : reachable s -> reachable (fst (fst (step sortImpl s cmd))).

Lemma appInv_core s s' : core s' = core s -> appInv s -> appInv s'.
Proof. unfold core, appInv. intros E. injection E as -> -> ->. exact (fun H => H). Qed.

Lemma appInv_step s cmd : appInv s -> appInv (fst (fst (step sortImpl s cmd))).
Proof.
  intros Hs. destruct (changesContacts cmd) eqn:Ec; [|exact (appInv_core _ _ (step_core _ s cmd Ec) Hs)].
  destruct cmd; try discriminate; cbn [step].
  - unfold stepEdit. destruct (editContact (contacts s) key newName newPhone newCity) as [cs [|]] eqn:E;
      cbn; split; try reflexivity; [apply sortImpl_ok|].
    pose proof (editContact_unchanged (contacts s) key newName newPhone newCity) as U.
    rewrite E in U. cbn in U. rewrite U by reflexivity. apply Hs.
  - unfold stepDelete. destruct (deleteContact (contacts s) key) as [cs [|]] eqn:E;
      cbn; split; try reflexivity; [apply sortImpl_ok|].
    pose proof (deleteContact_unchanged (contacts s) key) as U.
    rewrite E in U. cbn in U. rewrite U by reflexivity. apply Hs.
Qed.

(** (C21) In every state the program can reach, the index arrays are a
    sorted arrangement of the entries of the current vector and the tree
    is the tree built from it: menu items 10 and 11 rebuild both, and no
    other item changes the vector. *)
Theorem reachable_appInv (s : AppState) : reachable s -> appInv s.
Proof.
  induction 1 as [n lines rest inputs fs _|s cmd _ IH].
  - unfold startup, appInv. destruct (inputContacts [] 1 inputs) as [cs ctr]. cbn.
    split; [apply sortImpl_ok | reflexivity].
  - apply appInv_step, IH.
Qed.
(** (C40) In every state the program can reach, every contact of the
    vector is valid (non-empty name and city, a phone number of 7 to 15
    digits): [inputContacts] stores only fields its retry loops accepted,
    [editContact] only valid edits, and no other menu item changes the
    vector. *)
Theorem reachable_contacts_valid (s : AppState) :
  reachable s -> Forall (fun c => validContact c = true) (contacts s).
Proof.
  induction 1 as [n lines rest inputs fs Hr|s cmd _ IH].
  - unfold startup. pose proof (proj1 (inputContacts_valid n lines inputs rest [] 1 Hr (Forall_nil _))) as Hv.
    destruct (inputContacts [] 1 inputs) as [cs ctr]. exact Hv.
  - destruct (changesContacts cmd) eqn:Ec.
    + destruct cmd; try discriminate; cbn [step].
      * unfold stepEdit. pose proof (editContact_valid (contacts s) key newName newPhone newCity IH) as Hv.
        destruct (editContact (contacts s) key newName newPhone newCity) as [cs [|]]; exact Hv.
      * unfold stepDelete. pose proof (deleteContact_valid (contacts s) key IH) as Hv.
        destruct (deleteContact (contacts s) key) as [cs [|]]; exact Hv.
    + pose proof (step_core sortImpl s cmd Ec) as E. unfold core in E. injection E as E _ _.
      rewrite E. exact IH.
Qed.
End Correctness.

(** ** Searching by name *)

(** What a search for [key] should print: every contact named [key], or
    the "not found" message. *)
Definition expectedOut (cs : list Contact) (key : string) : list Output :=
  match filter (fun c => String.eqb (name c) key) cs with
  | [] => [OutNotFound key]
  | l => map OutContact l
  end.

Lemma flat_map_resolve (cs l : list Contact) :
  ids_from cs 1 -> (forall x, In x l -> In x cs) ->
  flat_map (fun i => match resolve cs i with Some c => [OutContact c] | None => [OutBadId i] end)
    (map id l) = map OutContact l.
Proof.
  intros Hids. induction l as [|x l IH]; intros Hin; [reflexivity|]. cbn [map flat_map].
  rewrite resolve_ids_from by (exact Hids || apply Hin; now left).
  cbn [app]. f_equal. apply IH. intros y Hy. apply Hin. now right.
Qed.

(** A contact printed by the loop over found ids is [contacts[i - 1]]
    for one of the ids. *)
Lemma printIds_In (cs : list Contact) key ids c :
  In (OutContact c) (printIds cs key ids) -> exists i, In i ids /\ resolve cs i = Some c.
Proof.
  unfold printIds. destruct ids as [|i0 ids]; [intros [H|[]]; discriminate|].
  intros H. apply in_flat_map in H as (i & Hi & H). exists i. split; [exact Hi|].
  destruct (resolve cs i) as [x|]; destruct H as [H|[]]; [injection H as Hx; subst x; reflexivity | discriminate].
Qed.

(** The ids of the matching contacts, in any order, print as the
    matching contacts in that order. *)
Lemma printIds_perm (cs : list Contact) key ids :
  ids_from cs 1 -> Permutation ids (map id (filter (fun c => String.eqb (name c) key) cs)) ->
  Permutation (printIds cs key ids) (expectedOut cs key).
Proof.
  intros Hids HP. unfold expectedOut.
  assert (Hin : forall x, In x (filter (fun c => String.eqb (name c) key) cs) -> In x cs)
    by (intros x Hx; apply filter_In in Hx; apply Hx).
  destruct (filter (fun c => String.eqb (name c) key) cs) as [|c l] eqn:F.
  - apply Permutation_sym, Permutation_nil in HP. subst ids. reflexivity.
  - destruct ids as [|i ids]; [apply Permutation_nil in HP; discriminate|].
    unfold printIds. rewrite (Permutation_flat_map _ HP). rewrite flat_map_resolve; auto.
Qed.

Lemma key_eqb_string (a b : string) : key_eqb a b = String.eqb a b.
Proof.
  destruct (String.eqb_spec a b) as [->|Hne].
  - apply key_eqb_spec. reflexivity.
  - destruct (key_eqb a b) eqn:E; [apply key_eqb_spec in E; contradiction | reflexivity].
Qed.

(** The tree [main] builds finds the ids of the contacts named [key], in
    vector order. *)
Lemma search_buildTree (cs : list Contact) key :
  BinaryTree.search (buildTree cs) key = map id (filter (fun c => String.eqb (name c) key) cs).
Proof.
  unfold buildTree.
  destruct (insertAll_from BinaryTree.empty (map (fun c => (name c, id c)) cs)) as [(_ & Hs & _) He];
    [repeat split; constructor|].
  unfold BinaryTree.search. rewrite searchNode_lookup by exact Hs. rewrite He.
  rewrite lookup_fold_ainsert by constructor. unfold BinaryTree.empty. cbn [root elements lookup app].
  rewrite filter_map_swap, map_map. cbn [snd]. f_equal. apply filter_ext. intros c.
  apply key_eqb_string.
Qed.

Section NoDelete.
Variable sortImpl : IndexArray -> IndexArray.
Hypothesis sortImpl_ok : forall ia, sortIndices ia (sortImpl ia).

Definition isDelete (cmd : Command) : bool := match cmd with Delete _ => true | _ => false end.

(** The states reached without menu item 11. *)
Inductive reachableNoDelete : AppState -> Prop :=
| nd_start numContacts lines rest inputs fs :
    readInputs numContacts lines = Some (inputs, rest) -> reachableNoDelete (startup sortImpl inputs fs)
| nd_step s cmd : reachableNoDelete s -> isDelete cmd = false ->
    reachableNoDelete (fst (fst (step sortImpl s cmd))).

Lemma reachableNoDelete_inv s : reachableNoDelete s -> ids_from (contacts s) 1 /\ appInv s.
Proof.
  induction 1 as [n lines rest inputs fs _|s cmd _ [Hids Hinv] Hd].
  - pose proof (inputContacts_ids [] 1 inputs) as Hc. unfold startup.
    destruct (inputContacts [] 1 inputs) as [cs ctr]. cbn in *.
    split; [apply Hc; [intros [|k] c' Hk; discriminate | reflexivity] | split; [apply sortImpl_ok | reflexivity]].
  - split; [|apply appInv_step; assumption].
    destruct (changesContacts cmd) eqn:Ec.
    + destruct cmd; try discriminate. cbn [step]. unfold stepEdit.
      pose proof (editContact_ids_from (contacts s) 1 key newName newPhone newCity Hids) as H.
      destruct (editContact (contacts s) key newName newPhone newCity) as [cs [|]]; exact H.
    + pose proof (step_core sortImpl s cmd Ec) as E. unfold core in E. injection E as E _ _.
      rewrite E. exact Hids.
Qed.

(** (C22) As long as no contact has been deleted (and the vector holds
    fewer than [2^31] contacts), a search by name prints exactly the
    contacts with that name, or "not found": the binary searches of menu
    items 6 and 7 in the order of the sorted index, the tree of menu item
    14 in vector order. *)
Theorem search_prints_matches (s : AppState) (recursive : bool) (key : string) :
  reachableNoDelete s -> Z.of_nat (List.length (contacts s)) < 2 ^ 31 ->
  Permutation (snd (fst (step sortImpl s (SearchName recursive key)))) (expectedOut (contacts s) key) /\
  snd (fst (step sortImpl s (TreeSearch key))) = expectedOut (contacts s) key.
Proof.
  intros Hr Hn. destruct (reachableNoDelete_inv s Hr) as [Hids [Hsort Htree]].
  rewrite buildIndices_spec in Hsort. destruct Hsort as ((Pn & Sn) & _).
  split; cbn [step fst snd].
  - unfold searchIndex. apply printIds_perm; [exact Hids|].
    assert (E : (if recursive then searchRecursiveFromMain (nameIndexAsc (indices s)) key
                 else binarySearchIterative (nameIndexAsc (indices s)) key) =
                binarySearchIterative (nameIndexAsc (indices s)) key)
      by (destruct recursive; [apply binarySearchRecursive_bsLoop | reflexivity]).
    rewrite E. exact (search_entries name (contacts s) _ key Pn Sn Hn).
  - unfold stepTree. rewrite Htree, search_buildTree. unfold printIds, expectedOut.
    destruct (filter (fun c => String.eqb (name c) key) (contacts s)) as [|c l] eqn:F; [reflexivity|].
    rewrite <- F. rewrite flat_map_resolve by (exact Hids || (intros x Hx; apply filter_In in Hx; apply Hx)).
    rewrite F. reflexivity.
Qed.
(** (C33) After menu item 11 deletes a contact [d], a search in the
    tree (menu item 14) for the name [n] of the first contact [c] named
    [n], placed after [d], never prints [c], although [c] is still in the
    vector: the tree returns the right ids, but [main] resolves each id
    as [contacts[id - 1]], and [deleteContact] has moved every contact
    after [d] one place down. *)
Theorem delete_then_search_wrong_contact (s : AppState) (key n : string)
    (pre post1 post2 : list Contact) (d c : Contact) :
  reachableNoDelete s -> contacts s = pre ++ d :: post1 ++ c :: post2 ->
  name d = key -> name c = n -> n <> key -> Forall (fun x => name x <> n) (pre ++ post1) ->
  In c (contacts (fst (fst (step sortImpl s (Delete key))))) /\
  ~ In (OutContact c) (snd (fst (step sortImpl (fst (fst (step sortImpl s (Delete key)))) (TreeSearch n)))).
Proof.
  intros Hr Hcs Hd Hc Hnk Hpre. destruct (reachableNoDelete_inv s Hr) as [Hids _].
  assert (Hck : name c <> key) by congruence.
  destruct (deleteContact_shift (contacts s) pre post1 post2 d c key Hids Hcs Hd Hck)
    as (Hin & Hnd & p & Hp & Hle & Hid).
  assert (E : contacts (fst (fst (step sortImpl s (Delete key)))) = fst (deleteContact (contacts s) key) /\
              tree (fst (fst (step sortImpl s (Delete key)))) = buildTree (fst (deleteContact (contacts s) key))).
  { cbn [step]. unfold stepDelete. destruct (deleteContact (contacts s) key) as [cs' []]; split; reflexivity. }
  destruct E as [Ec Et]. set (s1 := fst (fst (step sortImpl s (Delete key)))) in *.
  split; [rewrite Ec; exact Hin|].
  cbn [step snd fst]. unfold stepTree. rewrite Et, search_buildTree, Ec.
  intros Hout. apply printIds_In in Hout as (i & Hi & Hres).
  pose proof (resolve_pos _ _ _ _ Hnd Hp Hres) as Epos.
  apply in_map_iff in Hi as (y & <- & Hy). apply filter_In in Hy as [Hy Hyn]. apply String.eqb_eq in Hyn.
  unfold deleteContact, remove_if in Hy. cbn [fst] in Hy. apply filter_In in Hy as [Hy _].
  assert (Hs2 : ids_from (c :: post2) (1 + Z.of_nat (List.length (pre ++ d :: post1)))).
  { apply ids_from_app. rewrite <- app_assoc. cbn [app]. rewrite <- Hcs. exact Hids. }
  rewrite length_app in Hs2. cbn [List.length] in Hs2.
  rewrite Forall_forall in Hpre. rewrite Hcs in Hy. apply in_app_or in Hy as [Hy|[<-|Hy]].
  - apply (Hpre y); [apply in_or_app; left; exact Hy | exact Hyn].
  - congruence.
  - apply in_app_or in Hy as [Hy|Hy]; [apply (Hpre y); [apply in_or_app; right; exact Hy | exact Hyn]|].
    pose proof (ids_from_In _ _ _ Hs2 Hy). lia.
Qed.
End NoDelete.

(** ** Sessions *)

Local Open Scope string_scope.

(** [main.cpp] started on the three contacts of [demoInputs], with
    [std::sort] played by insertion sort and no files. *)
Definition demoStart : AppState := startup sortIndicesBy demoInputs (fun _ => None).

(** After menu item 11 deletes "Anna" (id 1), a search for "Boris"
    (id 2), by binary search and by the tree, prints the contact "Vera"
    found at [contacts[2 - 1]]; a search for "Vera" (id 3) reports an
    incorrect id.  The searches of [main.cpp] find the right ids and
    then resolve them by position, which [deleteContact] has shifted. *)
Example delete_then_search_example :
  snd (fst (run sortIndicesBy demoStart
    [Delete "Anna"; SearchName false "Boris"; TreeSearch "Boris"; SearchName true "Vera"])) =
  [OutDeleted; OutContact (mkContact 3 "Vera" "3333333" "Omsk");
   OutContact (mkContact 3 "Vera" "3333333" "Omsk"); OutBadId 3].
Proof. vm_compute. reflexivity. Qed.

(** Menu item 18 changes the list's attributes but not [main]'s copy, so
    the rebuild after menu item 10 sorts by name again. *)
Example change_sort_lost_on_edit :
  primaryAttribute (sortedList (fst (fst (run sortIndicesBy demoStart [ChangeSort [2; 2; 1; 1]])))) =
    PrimarySortAttribute.CITY /\
  primaryAttribute (sortedList (fst (fst (run sortIndicesBy demoStart
    [ChangeSort [2; 2; 1; 1]; Edit "Boris" "" "" ""])))) = PrimarySortAttribute.NAME.
Proof. vm_compute. split; reflexivity. Qed.

Definition demoSession : list Command :=
  [SearchName false "Boris"; Edit "Boris" "Boris" "4444444" "Ufa"; ListRemove "Vera"; TreePrint true].

Definition demoState : AppState := fold_left (fun s cmd => fst (fst (step sortIndicesBy s cmd))) demoSession demoStart.

Lemma demoState_reachable : reachable sortIndicesBy demoState.
Proof.
  unfold demoState. generalize (reach_start sortIndicesBy 3 demoLines [] demoInputs (fun _ => None) demoLines_read).
  fold demoStart. generalize demoStart. induction demoSession as [|cmd rest IH]; intros s Hs; [exact Hs|].
  apply IH. constructor. exact Hs.
Qed.

Lemma demoState_noDelete : reachableNoDelete sortIndicesBy demoState.
Proof.
  unfold demoState. generalize (nd_start sortIndicesBy 3 demoLines [] demoInputs (fun _ => None) demoLines_read).
  fold demoStart. generalize demoStart. unfold demoSession.
  intros s Hs. repeat (apply nd_step; [|reflexivity]). exact Hs.
Qed.

Lemma reachable_appInv_witness : reachable sortIndicesBy demoState /\ appInv demoState.
Proof. split; [exact demoState_reachable | exact (reachable_appInv sortIndicesBy sortIndicesBy_sorts _ demoState_reachable)]. Defined.

Lemma search_prints_matches_witness :
  reachableNoDelete sortIndicesBy demoState /\ Z.of_nat (List.length (contacts demoState)) < 2 ^ 31 /\
  Permutation (snd (fst (step sortIndicesBy demoState (SearchName true "Boris")))) (expectedOut (contacts demoState) "Boris") /\
  snd (fst (step sortIndicesBy demoState (TreeSearch "Boris"))) = expectedOut (contacts demoState) "Boris".
Proof.
  assert (Hn : Z.of_nat (List.length (contacts demoState)) < 2 ^ 31) by (vm_compute; reflexivity).
  split; [exact demoState_noDelete | split; [exact Hn|]].
  exact (search_prints_matches sortIndicesBy sortIndicesBy_sorts demoState true "Boris" demoState_noDelete Hn).
Defined.

(** ** [testLinkedList] of [test.cpp] *)

(** What [testLinkedList] prints, call by call: the list after the five
    inserts, the two searches, the two removals, the list again, and the
    list after [changeSortAttributes] to city descending, name ascending. *)
Definition testLinkedListRun : list Output :=
  let l := testList in
  let '(l1, r1) := LinkedList.remove l "Галина" in
  let '(l2, r2) := LinkedList.remove l1 "Петр" in
  printSortedList l ++ searchOut l "Алексей" ++ searchOut l "Петр" ++
  [removeOut "Галина" r1; removeOut "Петр" r2] ++ printSortedList l2 ++
  printSortedList (changeSortAttributes l2 PrimarySortAttribute.CITY SecondarySortAttribute.NAME
                     SortOrder.DESCENDING SortOrder.ASCENDING).

(** The ids of the contacts printed, with the messages in between: the
    list printed "sorted" is Алексей, Виктория, Дмитрий, Борис, Галина;
    Алексей is found, Петр is not; Галина is removed, Петр is not found;
    after the re-sort the cities are not in descending order (Москва
    before Новосибирск). *)
Example testLinkedList_prints :
  map (fun o => match o with OutContact c => id c | _ => 0%Z end) testLinkedListRun =
    [2; 3; 5; 1; 4; 2; 0; 0; 0; 2; 3; 5; 1; 2; 1; 3; 5]%Z /\
  filter (fun o => match o with OutContact _ => false | _ => true end) testLinkedListRun =
    [OutListNotFound "Петр"; OutRemoved; OutListNotFound "Петр"].
Proof. vm_compute. split; reflexivity. Qed.

Lemma delete_then_search_wrong_contact_witness :
  reachableNoDelete sortIndicesBy demoStart /\
  contacts demoStart = ([] ++ mkContact 1 "Anna" "1111111" "Moscow" ::
    [] ++ mkContact 2 "Boris" "2222222" "Kazan" :: [mkContact 3 "Vera" "3333333" "Omsk"])%list /\
  Forall (fun x => name x <> "Boris") ([] ++ [])%list /\
  In (mkContact 2 "Boris" "2222222" "Kazan")
     (contacts (fst (fst (step sortIndicesBy demoStart (Delete "Anna"))))) /\
  ~ In (OutContact (mkContact 2 "Boris" "2222222" "Kazan"))
     (snd (fst (step sortIndicesBy (fst (fst (step sortIndicesBy demoStart (Delete "Anna")))) (TreeSearch "Boris")))).
Proof.
  assert (H1 : reachableNoDelete sortIndicesBy demoStart) by exact (nd_start sortIndicesBy 3 demoLines [] demoInputs _ demoLines_read).
  assert (H2 : contacts demoStart = ([] ++ mkContact 1 "Anna" "1111111" "Moscow" ::
    [] ++ mkContact 2 "Boris" "2222222" "Kazan" :: [mkContact 3 "Vera" "3333333" "Omsk"])%list) by reflexivity.
  assert (H3 : Forall (fun x => name x <> "Boris") ([] ++ [])%list) by constructor.
  split; [exact H1 | split; [exact H2 | split; [exact H3|]]].
  exact (delete_then_search_wrong_contact sortIndicesBy sortIndicesBy_sorts demoStart "Anna" "Boris" [] [] _ _ _
           H1 H2 eq_refl eq_refl ltac:(discriminate) H3).
Defined.

Lemma reachable_contacts_valid_witness :
  reachable sortIndicesBy demoState /\ Forall (fun c => validContact c = true) (contacts demoState).
Proof. split; [exact demoState_reachable | exact (reachable_contacts_valid sortIndicesBy demoState demoState_reachable)]. Defined.
