(* ===== verification/Session.v ===== *)
(** * Sessions of [src/main.cpp]: the well-formed states and the exit

    [App.step] is one round of [main]'s [while(true)] loop.  This file
    holds two properties of whole sessions:

    - the ids the program holds are well formed in every reachable state
      ([wfState]): the vector's ids are distinct and lie in
      [1 .. global_id_counter - 1], and every contact of the sorted list,
      loaded ones included, has an id below the counter, so the counter
      is a fresh id;
    - the loop as a relation on configurations ([loopStep]: the state,
      the menu choices not yet read, what was printed and the status),
      and the liveness property that a session in which choice 0 is
      entered eventually leaves the loop, with both files saved, unless
      an uncaught [std::stoi] exception of menu item 20 ends it first. *)

From Stdlib Require Import ZArith List Bool Lia String Sorting.Permutation.
From S2P Require Import Prelude KeyOrder Contact IndexSearch LinkedList Persistence.
From S2P Require Import AvlTree App.
Import ListNotations.

(** ** Well-formed ids *)

(** The vector's ids are distinct and in [1 .. global_id_counter - 1];
    the sorted list's ids are below the counter. *)
Definition wfState (s : AppState) : Prop :=
  NoDup (map id (contacts s)) /\
  Forall (fun i => 1 <= i < global_id_counter s) (map id (contacts s)) /\
  Forall (fun i => i < global_id_counter s) (map id (head (sortedList s))).

(** A list filled from an empty one holds the ids it was given: the list
    [main] builds from the vector, and the list [changeSortAttributes]
    rebuilds. *)
Lemma fold_insert_new_ids cs pa sa po so :
  Permutation (map id (head (fold_left LinkedList.insert cs (newLinkedList pa sa po so)))) (map id cs).
Proof.
  apply Permutation_map. rewrite fold_insert_perm. cbn [head newLinkedList]. rewrite app_nil_r. reflexivity.
Qed.

Lemma remove_incl (ll : LinkedList) (key : string) :
  incl (head (fst (LinkedList.remove ll key))) (head ll).
Proof.
  unfold LinkedList.remove. destruct (head ll) as [|h rest] eqn:Eh; [cbn [fst]; rewrite Eh; apply incl_refl|].
  destruct (matches ll key h); cbn [fst setHead head]; [apply incl_tl, incl_refl|].
  pose proof (removeAfter_spec ll key rest) as Hr.
  destruct (removeAfter ll key rest) as [rest'|]; cbn [fst setHead head]; [|rewrite Eh; apply incl_refl].
  destruct Hr as (pre & x & post & -> & _ & _ & ->).
  intros y Hy. destruct Hy as [<-|Hy]; [left; reflexivity|right].
  apply in_app_or in Hy as [Hy|Hy]; apply in_or_app; [left | right; right]; exact Hy.
Qed.

(** After menu items 10 and 11 the vector and the list hold the same ids. *)
Lemma wfState_rebuild s cs ia :
  NoDup (map id cs) -> Forall (fun i => 1 <= i < global_id_counter s) (map id cs) ->
  wfState (rebuild s cs ia).
Proof.
  intros Hnd Hb. unfold wfState, rebuild. cbn [contacts sortedList global_id_counter].
  split; [exact Hnd | split; [exact Hb|]]. unfold buildList. rewrite fold_insert_new_ids.
  eapply Forall_impl; [|exact Hb]. cbn beta. lia.
Qed.

Lemma wfState_setSortedList s ll :
  wfState s -> incl (map id (head ll)) (map id (head (sortedList s))) -> wfState (setSortedList s ll).
Proof.
  intros (Hnd & Hb & Hl) Hi. unfold wfState, setSortedList. cbn [contacts sortedList global_id_counter].
  split; [exact Hnd | split; [exact Hb | exact (incl_Forall Hi Hl)]].
Qed.

(** No menu item breaks the ids. *)
Lemma wfState_step sortImpl s cmd : wfState s -> wfState (fst (fst (step sortImpl s cmd))).
Proof.
  intros Hs. pose proof Hs as (Hnd & Hb & Hl).
  destruct cmd; cbn [step]; try exact Hs; try (cbn [stepList fst]; exact Hs).
  - unfold stepEdit. pose proof (editContact_ids (contacts s) key newName newPhone newCity) as Hi.
    destruct (editContact (contacts s) key newName newPhone newCity) as [cs found]. cbn [fst] in Hi.
    destruct found; cbn [fst]; apply wfState_rebuild; rewrite Hi; assumption.
  - unfold stepDelete, deleteContact, remove_if. cbn zeta.
    destruct (negb _); cbn [fst]; apply wfState_rebuild;
      solve [apply NoDup_map_filter, Hnd | exact (incl_Forall (incl_map_filter _ _ _) Hb)].
  - unfold stepList. pose proof (remove_incl (sortedList s) key) as Hi.
    destruct (LinkedList.remove (sortedList s) key) as [ll o]. cbn [fst] in Hi |- *.
    apply wfState_setSortedList; [exact Hs | apply incl_map, Hi].
  - changeSort_cases; cbn [fst]; try exact Hs; apply wfState_setSortedList; try exact Hs;
      intros x Hx; exact (Permutation_in _ (fold_insert_new_ids _ _ _ _ _) Hx).
  - unfold stepLoad. pose proof (loadFromFile_ids (files s filename) (sortedList s) (global_id_counter s) Hl) as Hf.
    destruct (loadFromFile (files s filename) (sortedList s) (global_id_counter s)) as [[ll ctr] err].
    destruct Hf as [Hc Hl']. unfold wfState.
    destruct err; cbn [fst contacts sortedList global_id_counter]; (split; [exact Hnd | split; [|exact Hl']]);
      eapply Forall_impl; try exact Hb; cbn beta; lia.
Qed.

(** ** The loop and its exit *)

(** A configuration of [main]'s loop: the state, the menu choices still
    to be read, everything printed so far and whether the loop goes on. *)
Record Config : Type := mkConfig {
  cstate : AppState;
  pending : list Command;
  printed : list Output;
  status : Status
}.

(** Choice 0 has been handled: the loop is left with both files written. *)
Definition exitedSaved (c : Config) : Prop :=
  status c = Exited /\
  files (cstate c) "contacts.csv"%string = Some (saveContactsToFile (contacts (cstate c))) /\
  files (cstate c) "linked_list.csv"%string = Some (saveToFile (sortedList (cstate c))).

Section Loop.
Variable sortImpl : IndexArray -> IndexArray.

(** One round of [while(true)]: only a running loop reads a choice. *)
Inductive loopStep : Config -> Config -> Prop :=
| loop_round s cmd rest out s' out' st :
    step sortImpl s cmd = (s', out', st) ->
    loopStep (mkConfig s (cmd :: rest) out Running) (mkConfig s' rest (out ++ out') st).

(** [P] holds after finitely many rounds. *)
Inductive eventually (P : Config -> Prop) : Config -> Prop :=
| ev_now c : P c -> eventually P c
| ev_later c c' : loopStep c c' -> eventually P c' -> eventually P c.

Lemma eventually_weaken (P Q : Config -> Prop) c :
  eventually P c -> (forall c', P c' -> Q c') -> eventually Q c.
Proof. induction 1 as [c H|c c' Hs _ IH]; intros HPQ; [apply ev_now; auto | eapply ev_later; eauto]. Qed.

(** Only choice 0 and an exception of menu item 20 leave the loop. *)
Lemma step_status s cmd :
  cmd <> ExitProgram ->
  snd (step sortImpl s cmd) = Running \/
  exists f e, cmd = ListLoad f /\ snd (step sortImpl s cmd) = Terminated e.
Proof.
  intros Hne. destruct cmd; cbn [step]; try (left; reflexivity); [| | | | |congruence].
  - destruct (stepEdit sortImpl s key newName newPhone newCity); left; reflexivity.
  - destruct (stepDelete sortImpl s key); left; reflexivity.
  - destruct (stepList s (ListRemove key)); left; reflexivity.
  - destruct (stepChangeSort _ _); left; reflexivity.
  - unfold stepLoad. destruct (loadFromFile _ _ _) as [[ll ctr] [e|]]; [right | left; reflexivity].
    exists filename, e. split; reflexivity.
Qed.
(** (C23) Liveness of [main]'s loop: on any state, when the choices read
    are some [pre] without a 0, then 0, then anything, the loop reaches a
    configuration that has left it by choice 0 with "contacts.csv" and
    "linked_list.csv" holding the vector and the list, without reading
    past the 0; the only other way out is an exception of menu item 20
    on one of the loads in [pre]. *)
Theorem loop_reaches_exit (s : AppState) (pre post : list Command) (out : list Output) :
  ~ In ExitProgram pre ->
  eventually (fun c => (exitedSaved c /\ pending c = post) \/
                       (exists f e, In (ListLoad f) pre /\ status c = Terminated e))
    (mkConfig s (pre ++ ExitProgram :: post) out Running).
Proof.
  revert s out. induction pre as [|cmd pre IH]; intros s out Hn; cbn [app].
  - eapply ev_later; [apply loop_round; reflexivity|]. apply ev_now. left.
    repeat split; reflexivity.
  - destruct (step sortImpl s cmd) as [[s' o] st] eqn:E.
    eapply ev_later; [apply loop_round; exact E|].
    destruct (step_status s cmd) as [Hr|(f & e & -> & Ht)]; [intros ->; apply Hn; left; reflexivity| |];
      rewrite E in *; cbn [snd] in *; subst st.
    + eapply eventually_weaken; [apply IH; intros H; apply Hn; right; exact H|].
      intros c [H|(f & e & Hf & H)]; [left; exact H | right; exists f, e; split; [right; exact Hf | exact H]].
    + apply ev_now. right. exists f, e. split; [left; reflexivity | reflexivity].
Qed.
End Loop.

(** (C24) In every state [main] can reach, the vector's ids are distinct
    and lie in [1 .. global_id_counter - 1], and every contact of the
    sorted list, loaded ones included, has an id below the counter. *)
Theorem reachable_wfState (sortImpl : IndexArray -> IndexArray) (s : AppState) :
  reachable sortImpl s -> wfState s.
Proof.
  induction 1 as [n lines rest inputs fs _|s cmd _ IH]; [|apply wfState_step, IH].
  destruct (inputContacts_ids [] 1 inputs) as (H1 & H2 & _); [intros [|k] c Hk; discriminate | reflexivity|].
  unfold startup. destruct (inputContacts [] 1 inputs) as [cs ctr]. cbn [fst snd] in H1, H2.
  destruct (ids_from_wf cs 1 H1) as [Hnd Hb]. rewrite <- H2 in Hb.
  unfold wfState, buildList. cbn [contacts sortedList global_id_counter].
  split; [exact Hnd | split; [exact Hb|]]. rewrite fold_insert_new_ids.
  eapply Forall_impl; [|exact Hb]. cbn beta. lia.
Qed.

(** ** Witnesses *)

Lemma reachable_wfState_witness :
  reachable sortIndicesBy demoState /\ wfState demoState /\ global_id_counter demoState = 4.
Proof.
  split; [exact demoState_reachable|].
  split; [exact (reachable_wfState sortIndicesBy demoState demoState_reachable) | vm_compute; reflexivity].
Defined.

Lemma loop_reaches_exit_witness :
  ~ In ExitProgram [SearchName false "Boris"; ListSave "copy.csv"] /\
  eventually sortIndicesBy
    (fun c => (exitedSaved c /\ pending c = [PrintAll]) \/
              (exists f e, In (ListLoad f) [SearchName false "Boris"; ListSave "copy.csv"] /\
                           status c = Terminated e))
    (mkConfig demoStart ([SearchName false "Boris"; ListSave "copy.csv"] ++ ExitProgram :: [PrintAll]) []
       Running).
Proof.
  assert (Hn : ~ In ExitProgram [SearchName false "Boris"; ListSave "copy.csv"])
    by (cbn; intros [H|[H|[]]]; discriminate).
  split; [exact Hn | exact (loop_reaches_exit sortIndicesBy demoStart _ [PrintAll] [] Hn)].
Defined.
